(** * A shallow embedding of mm.c (boundary-tag allocator, next-fit search)

    The heap is a flat byte-addressed memory.  Pointers are addresses in [Z]
    (NULL is 0, the failure value of the region provider is -1).  Header and
    footer words are 4-byte [unsigned int]s, read and written little-endian.
    Values of type [size_t] wrap around modulo [2^(8 * sizeof(size_t))]; the
    data model (ILP32 or LP64) is a parameter of every operation that
    computes with [size_t].  Loops run on fuel: an operation that runs out of
    fuel yields [None].

    The first part embeds the code.  The second part proves, in this order:
    facts about tagged words; that the free-list variables are never written;
    what [mm_realloc], [mm_check] and the size adjustment do; the
    specifications of [place], [find_fit] and [coalesce] on a heap that
    represents a block list; that [mm_init] establishes and every call of a
    well-behaved caller keeps the heap invariant; and, last, that requests
    large enough to wrap break it. *)

From Stdlib Require Import ZArith List Bool Lia.
Import ListNotations.
Local Open Scope Z_scope.

(** ** Data model *)

Inductive abi := ILP32 | LP64.

Definition sizeof_size_t (a : abi) : Z :=
  match a with ILP32 => 4 | LP64 => 8 end.

Definition SIZE_MOD (a : abi) : Z := 2 ^ (8 * sizeof_size_t a).
Definition SIZE_MAX (a : abi) : Z := SIZE_MOD a - 1.

(** Conversion of an integer to [size_t]. *)
Definition to_size (a : abi) (x : Z) : Z := x mod SIZE_MOD a.

(** Conversion to [unsigned int]. *)
Definition UINT_MOD : Z := 2 ^ 32.
Definition to_uint (x : Z) : Z := x mod UINT_MOD.

(** ** Constants and macros *)

Definition NULL : Z := 0.
Definition ALIGNMENT : Z := 8.
Definition WSIZE : Z := 4.
Definition DSIZE : Z := 8.
Definition CHUNKSIZE : Z := Z.shiftl 1 12.

(** [ALIGN(size)] at type [size_t]: [~0x7] is the int -8. *)
Definition ALIGN (a : abi) (size : Z) : Z :=
  to_size a (Z.land (size + (ALIGNMENT - 1)) (-8)).
Definition SIZE_T_SIZE (a : abi) : Z := ALIGN a (sizeof_size_t a).

Definition MAX (x y : Z) : Z := if x >? y then x else y.
Definition PACK (size alloc : Z) : Z := Z.lor size alloc.

(** ** Memory: one byte per address *)

Definition memory := Z -> Z.

Definition byte_at (m : memory) (p : Z) : Z := m p mod 256.

Definition GET (m : memory) (p : Z) : Z :=
  byte_at m p + 256 * byte_at m (p + 1)
  + 65536 * byte_at m (p + 2) + 16777216 * byte_at m (p + 3).

Definition PUT (m : memory) (p val : Z) : memory :=
  fun q =>
    if q =? p then to_uint val mod 256
    else if q =? p + 1 then (to_uint val / 256) mod 256
    else if q =? p + 2 then (to_uint val / 65536) mod 256
    else if q =? p + 3 then (to_uint val / 16777216) mod 256
    else m q.

Definition GET_SIZE (m : memory) (p : Z) : Z := Z.land (GET m p) (to_uint (-8)).
Definition GET_ALLOC (m : memory) (p : Z) : Z := Z.land (GET m p) 1.

Definition HDRP (bp : Z) : Z := bp - WSIZE.
Definition FTRP (m : memory) (bp : Z) : Z := bp + GET_SIZE m (HDRP bp) - DSIZE.
Definition NEXT_BLKP (m : memory) (bp : Z) : Z := bp + GET_SIZE m (bp - WSIZE).
Definition PREV_BLKP (m : memory) (bp : Z) : Z := bp - GET_SIZE m (bp - DSIZE).

(** [memcpy(dst, src, n)]: the [n] bytes are taken from the memory as it is
    before the copy. *)
Definition memcpy (m : memory) (dst src n : Z) : memory :=
  fun q => if (dst <=? q) && (q <? dst + n) then m (src + (q - dst)) else m q.

(** A [size_t] object read at address [p] (little-endian). *)
Definition load_size_t (a : abi) (m : memory) (p : Z) : Z :=
  match a with
  | ILP32 => GET m p
  | LP64 => GET m p + UINT_MOD * GET m (p + 4)
  end.

(** ** Allocator state: the memory, the region provider's bounds and the
    file-scope variables of mm.c *)

Record state := mkState {
  mem : memory;
  mem_heap_lo : Z;
  mem_brk : Z;
  mem_max_addr : Z;
  heap_listp : Z;
  rover : Z;
  freeHead : Z;
  firstHead : Z;
  num_freeblocks : Z
}.

Definition set_mem (st : state) (m : memory) : state :=
  mkState m (mem_heap_lo st) (mem_brk st) (mem_max_addr st) (heap_listp st)
          (rover st) (freeHead st) (firstHead st) (num_freeblocks st).
Definition set_brk (st : state) (b : Z) : state :=
  mkState (mem st) (mem_heap_lo st) b (mem_max_addr st) (heap_listp st)
          (rover st) (freeHead st) (firstHead st) (num_freeblocks st).
Definition set_heap_listp (st : state) (p : Z) : state :=
  mkState (mem st) (mem_heap_lo st) (mem_brk st) (mem_max_addr st) p
          (rover st) (freeHead st) (firstHead st) (num_freeblocks st).
Definition set_rover (st : state) (p : Z) : state :=
  mkState (mem st) (mem_heap_lo st) (mem_brk st) (mem_max_addr st)
          (heap_listp st) p (freeHead st) (firstHead st) (num_freeblocks st).

Definition put (st : state) (p val : Z) : state := set_mem st (PUT (mem st) p val).

(** Modelled from the spec: the region provider (memlib) is not part of the
    sources.  [extend(byte_count)] grows the region by exactly [byte_count]
    bytes and returns the start of the added span, or fails (-1) when the
    backing capacity is exhausted; the bounds are [mem_heap_lo] and
    [mem_heap_hi] (the last byte of the region). *)
Definition mem_sbrk (st : state) (incr : Z) : state * Z :=
  if (incr <? 0) || (mem_brk st + incr >? mem_max_addr st)
  then (st, -1)
  else (set_brk st (mem_brk st + incr), mem_brk st).

Definition mem_heap_hi (st : state) : Z := mem_brk st - 1.

(** ** The allocator (static helpers first, as they are called) *)

Section Allocator.

Variable A : abi.

(** [coalesce(bp)]: boundary-tag merge, then the rover fix-up. *)
Definition coalesce (st : state) (bp : Z) : state * Z :=
  let m := mem st in
  let prev_alloc := GET_ALLOC m (FTRP m (PREV_BLKP m bp)) in
  let next_alloc := GET_ALLOC m (HDRP (NEXT_BLKP m bp)) in
  let size := GET_SIZE m (HDRP bp) in
  if negb (prev_alloc =? 0) && negb (next_alloc =? 0) then (st, bp)
  else
    let '(st1, bp1) :=
      if negb (prev_alloc =? 0) && (next_alloc =? 0) then
        let size := to_size A (size + GET_SIZE m (HDRP (NEXT_BLKP m bp))) in
        let s1 := put st (HDRP bp) (PACK size 0) in
        let s2 := put s1 (FTRP (mem s1) bp) (PACK size 0) in
        (s2, bp)
      else if (prev_alloc =? 0) && negb (next_alloc =? 0) then
        let size := to_size A (size + GET_SIZE m (HDRP (PREV_BLKP m bp))) in
        let s1 := put st (FTRP m bp) (PACK size 0) in
        let s2 := put s1 (HDRP (PREV_BLKP (mem s1) bp)) (PACK size 0) in
        (s2, PREV_BLKP (mem s2) bp)
      else
        let size :=
          to_size A (size + to_uint (GET_SIZE m (HDRP (PREV_BLKP m bp))
                                     + GET_SIZE m (FTRP m (NEXT_BLKP m bp)))) in
        let s1 := put st (HDRP (PREV_BLKP m bp)) (PACK size 0) in
        let s2 := put s1 (FTRP (mem s1) (NEXT_BLKP (mem s1) bp)) (PACK size 0) in
        (s2, PREV_BLKP (mem s2) bp) in
    if (rover st1 <? NEXT_BLKP (mem st1) bp1) && (rover st1 >? bp1)
    then (set_rover st1 bp1, bp1)
    else (st1, bp1).

(** [extend_heap(words)]: returns NULL when the region cannot grow. *)
Definition extend_heap (st : state) (words : Z) : state * Z :=
  let size := if negb (words mod 2 =? 0)
              then to_size A ((words + 1) * WSIZE)
              else to_size A (words * WSIZE) in
  let '(s0, bp) := mem_sbrk st size in
  if bp =? -1 then (s0, NULL)
  else
    let s1 := put s0 (HDRP bp) (PACK size 0) in
    let s2 := put s1 (FTRP (mem s1) bp) (PACK size 0) in
    let s3 := put s2 (HDRP (NEXT_BLKP (mem s2) bp)) (PACK 0 1) in
    coalesce s3 bp.

(** [place(bp, asize)] *)
Definition place (st : state) (bp asize : Z) : state :=
  let csize := GET_SIZE (mem st) (HDRP bp) in
  if to_size A (csize - asize) >=? DSIZE * 2 then
    let s1 := put st (HDRP bp) (PACK asize 1) in
    let s2 := put s1 (FTRP (mem s1) bp) (PACK asize 1) in
    let bp' := NEXT_BLKP (mem s2) bp in
    let s3 := put s2 (HDRP bp') (PACK (to_size A (csize - asize)) 0) in
    put s3 (FTRP (mem s3) bp') (PACK (to_size A (csize - asize)) 0)
  else
    let s1 := put st (HDRP bp) (PACK csize 1) in
    put s1 (FTRP (mem s1) bp) (PACK csize 1).

(** The fit test shared by the two loops of [find_fit]. *)
Definition fits (m : memory) (bp asize : Z) : bool :=
  (GET_ALLOC m (HDRP bp) =? 0) && (asize <=? GET_SIZE m (HDRP bp)).

(** First loop of [find_fit]: it advances [rover] itself.  The result is the
    final rover and whether the loop left through [return rover]. *)
Fixpoint scan_forward (fuel : nat) (m : memory) (rv asize : Z) : option (Z * bool) :=
  match fuel with
  | O => None
  | S fuel' =>
      if GET_SIZE m (HDRP rv) =? 0 then Some (rv, false)
      else if fits m rv asize then Some (rv, true)
      else scan_forward fuel' m (NEXT_BLKP m rv) asize
  end.

(** Second loop: a local [bp] runs from [heap_listp] up to [oldrover]. *)
Fixpoint scan_wrap (fuel : nat) (m : memory) (bp oldrover asize : Z) : option Z :=
  match fuel with
  | O => None
  | S fuel' =>
      if bp <? oldrover then
        if fits m bp asize then Some bp
        else scan_wrap fuel' m (NEXT_BLKP m bp) oldrover asize
      else Some NULL
  end.

Definition find_fit (fuel : nat) (st : state) (asize : Z) : option (state * Z) :=
  let oldrover := rover st in
  match scan_forward fuel (mem st) (rover st) asize with
  | None => None
  | Some (rv, true) => Some (set_rover st rv, rv)
  | Some (rv, false) =>
      match scan_wrap fuel (mem st) (heap_listp st) oldrover asize with
      | None => None
      | Some bp => Some (set_rover st rv, bp)
      end
  end.

(** ** Public operations *)

Definition mm_init (st : state) : state * Z :=
  let '(s0, p) := mem_sbrk st (4 * WSIZE) in
  let s0 := set_heap_listp s0 p in
  if p =? -1 then (s0, -1)
  else
    let s1 := put s0 (heap_listp s0) 0 in
    let s2 := put s1 (heap_listp s1 + 1 * WSIZE) (PACK DSIZE 1) in
    let s3 := put s2 (heap_listp s2 + 2 * WSIZE) (PACK DSIZE 1) in
    let s4 := put s3 (heap_listp s3 + 3 * WSIZE) (PACK 0 1) in
    let s5 := set_heap_listp s4 (heap_listp s4 + 2 * WSIZE) in
    let s6 := set_rover s5 (heap_listp s5) in
    let '(s7, r) := extend_heap s6 (CHUNKSIZE / WSIZE) in
    if r =? NULL then (s7, -1) else (s7, 0).

(** The adjusted block size computed by [mm_malloc]. *)
Definition adjust_size (size : Z) : Z :=
  if size <=? DSIZE then 2 * DSIZE
  else to_size A (DSIZE * (to_size A (size + DSIZE + (DSIZE - 1)) / DSIZE)).

Definition mm_malloc (fuel : nat) (st : state) (size : Z) : option (state * Z) :=
  if size =? 0 then Some (st, NULL)
  else
    let asize := adjust_size size in
    match find_fit fuel st asize with
    | None => None
    | Some (s1, bp) =>
        if negb (bp =? NULL) then Some (place s1 bp asize, bp)
        else
          let extendsize := MAX asize CHUNKSIZE in
          let '(s2, bp) := extend_heap s1 (extendsize / WSIZE) in
          if bp =? NULL then Some (s2, NULL)
          else Some (place s2 bp asize, bp)
    end.

Definition mm_free (st : state) (bp : Z) : state :=
  if bp =? 0 then st
  else
    let size := GET_SIZE (mem st) (HDRP bp) in
    let s1 := put st (HDRP bp) (PACK size 0) in
    let s2 := put s1 (FTRP (mem s1) bp) (PACK size 0) in
    fst (coalesce s2 bp).

(** The number of bytes [mm_realloc] hands to [memcpy]. *)
Definition copy_length (m : memory) (oldptr size : Z) : Z :=
  let copy := load_size_t A m (oldptr - SIZE_T_SIZE A) in
  if size <? copy then size else copy.

Definition mm_realloc (fuel : nat) (st : state) (oldptr size : Z) : option (state * Z) :=
  match mm_malloc fuel st size with
  | None => None
  | Some (s1, newptr) =>
      if newptr =? NULL then Some (s1, NULL)
      else if size =? 0 then Some (mm_free s1 oldptr, 0)
      else
        let copy := copy_length (mem s1) oldptr size in
        let s2 := set_mem s1 (memcpy (mem s1) newptr oldptr copy) in
        Some (mm_free s2 oldptr, newptr)
  end.

End Allocator.

(** ** The consistency checker [mm_check]

    An [assert] that fails aborts the process; the loops are run on fuel.
    [header_t], [footer_t] and [freeblock_t] hold [size_t]-wide fields, and
    the accessor functions do their address arithmetic in [size_t]. *)

Inductive res (X : Type) : Type :=
| Ret (x : X)
| AssertFail
| OutOfFuel.
Arguments Ret {X} x.
Arguments AssertFail {X}.
Arguments OutOfFuel {X}.

Definition bind {X Y} (r : res X) (k : X -> res Y) : res Y :=
  match r with
  | Ret x => k x
  | AssertFail => AssertFail
  | OutOfFuel => OutOfFuel
  end.
Notation "'do' x <- r ; k" := (bind r (fun x => k))
  (at level 10, x name, r at level 100, k at level 200).

Definition assert (b : bool) : res unit := if b then Ret tt else AssertFail.

Section Checker.

Variable A : abi.

Definition get_size_footer (m : memory) (f : Z) : res Z :=
  do _ <- assert (negb (f =? 0));
  Ret (Z.land (to_size A (-8)) (load_size_t A m f)).

Definition get_size (m : memory) (h : Z) : res Z :=
  do _ <- assert (negb (h =? 0));
  Ret (Z.land (to_size A (-8)) (load_size_t A m h)).

Definition get_alloc (m : memory) (h : Z) : res Z :=
  do _ <- assert (negb (h =? 0));
  Ret (Z.land (load_size_t A m h) 1).

Definition get_footer (m : memory) (h : Z) : res Z :=
  do _ <- assert (negb (h =? 0));
  do s <- get_size m h;
  Ret (to_size A (to_size A (h + s) - sizeof_size_t A)).

Definition get_above_header (m : memory) (h : Z) : res Z :=
  do _ <- assert (negb (h =? 0));
  do s <- get_size m h;
  Ret (to_size A (h + s)).

Definition get_below_header (m : memory) (h : Z) : res Z :=
  do _ <- assert (negb (h =? 0));
  let prev_footer := to_size A (h - sizeof_size_t A) in
  do s <- get_size_footer m prev_footer;
  Ret (to_size A (h - s)).

Definition get_payload (h : Z) : res Z :=
  do _ <- assert (negb (h =? 0));
  Ret (to_size A (h + sizeof_size_t A)).

Definition get_freeblock_header (fb : Z) : res Z :=
  do _ <- assert (negb (fb =? 0));
  Ret (to_size A (fb - sizeof_size_t A)).

(** Fields of a [freeblock_t]. *)
Definition fb_next (m : memory) (fb : Z) : Z := load_size_t A m fb.
Definition fb_prev (m : memory) (fb : Z) : Z := load_size_t A m (fb + sizeof_size_t A).

(** The block loop.  Its condition is [get_size(h > 0)]: the accessor is
    applied to the truth value of the comparison. *)
Fixpoint check_blocks (fuel : nat) (st : state) (h : Z) (prev_alloc : bool) : res Z :=
  match fuel with
  | O => OutOfFuel
  | S fuel' =>
      let m := mem st in
      do c <- get_size m (if h >? 0 then 1 else 0);
      if c =? 0 then Ret h
      else
        do f <- get_footer m h;
        do size <- get_size m h;
        do sf <- get_size_footer m f;
        do _ <- assert (sf =? size);
        do _ <- assert (f - size + sizeof_size_t A =? h);
        do al <- get_alloc m h;
        do _ <- assert (prev_alloc && negb (al =? 0));
        do _ <- assert (size mod ALIGNMENT =? 0);
        do p <- get_payload h;
        do _ <- assert (Z.rem p ALIGNMENT =? 0);
        do _ <- assert ((h >? mem_heap_lo st) && (h <? mem_heap_hi st));
        do al' <- get_alloc m h;
        do h' <- get_above_header m h;
        check_blocks fuel' st h' (negb (al' =? 0))
  end.

(** The list loop: [fb = next] with [next] never reloaded. *)
Fixpoint check_list (fuel : nat) (st : state) (fb prev next count : Z) : res Z :=
  match fuel with
  | O => OutOfFuel
  | S fuel' =>
      if fb =? 0 then Ret count
      else
        let m := mem st in
        let count := count + 1 in
        do h <- get_freeblock_header fb;
        do al <- get_alloc m h;
        do _ <- assert (al =? 0);
        do _ <- (if negb (prev =? 0) then assert (fb_next m prev =? fb) else Ret tt);
        do _ <- (if negb (next =? 0) then assert (fb_prev m next =? fb) else Ret tt);
        do _ <- assert ((fb >? mem_heap_lo st) && (fb <? mem_heap_hi st));
        check_list fuel' st next prev next count
  end.

Fixpoint check_back (fuel : nat) (m : memory) (fb : Z) : res unit :=
  match fuel with
  | O => OutOfFuel
  | S fuel' => if fb =? 0 then Ret tt else check_back fuel' m (fb_prev m fb)
  end.

Definition mm_check (fuel : nat) (st : state) : res unit :=
  let m := mem st in
  let h := firstHead st in
  do al <- get_alloc m h;
  let prev_alloc := al =? 0 in
  do b <- get_below_header m h;
  do _ <- assert (b =? mem_heap_lo st);
  do h <- check_blocks fuel st h prev_alloc;
  do a <- get_above_header m h;
  do _ <- assert (a =? mem_heap_hi st - 7);
  let fb := freeHead st in
  let prev := fb_prev m (freeHead st) in
  let next := fb_next m (freeHead st) in
  do count <- check_list fuel st fb prev next 0;
  do _ <- check_back fuel m prev;
  assert (count =? num_freeblocks st).

End Checker.

(** ** Programs: sequences of public calls

    The caller owns the payload of the blocks it holds and may write to it
    between calls. *)

Inductive call :=
| Malloc (size : Z)
| Free (p : Z)
| Realloc (p size : Z)
| Write (p v : Z).

Definition caller_write (st : state) (p v : Z) : state :=
  set_mem st (fun q => if q =? p then v mod 256 else mem st q).

Definition run_call (A : abi) (fuel : nat) (st : state) (c : call) : option state :=
  match c with
  | Malloc size => option_map fst (mm_malloc A fuel st size)
  | Free p => Some (mm_free A st p)
  | Realloc p size => option_map fst (mm_realloc A fuel st p size)
  | Write p v => Some (caller_write st p v)
  end.

Fixpoint run (A : abi) (fuel : nat) (st : state) (cs : list call) : option state :=
  match cs with
  | [] => Some st
  | c :: cs' =>
      match run_call A fuel st c with
      | None => None
      | Some st' => run A fuel st' cs'
      end
  end.

(** The state of the process before [mm_init]: the file-scope variables are
    zero-initialised and the region is empty. *)
Definition boot (m : memory) (lo cap : Z) : state :=
  mkState m lo lo (lo + cap) 0 0 0 0 0.

(** A concrete region used in examples: 16 KiB at address 4096, zero-filled. *)
Abbreviation demo_boot := (boot (fun _ => 0) 4096 16384).

(** The free-list bookkeeping variables declared next to [mm_check]. *)
Definition bookkeeping (st : state) : Z * Z * Z :=
  (freeHead st, firstHead st, num_freeblocks st).

(** The demo heap after [mm_init], and after a program run on it. *)
Abbreviation demo_init A := (fst (mm_init A demo_boot)).
Abbreviation demo_run A cs := (run A 64 (demo_init A) cs).

(** Whether a run came to its end (it did not run out of fuel). *)
Definition returns {X} (o : option X) : bool :=
  match o with Some _ => true | None => false end.

(** Observers used to state what a run leaves behind. *)
Definition observe {X} (f : state -> X) (o : option state) : option X :=
  option_map f o.
Definition and_then {X} (o : option state) (f : state -> option X) : option X :=
  match o with Some st => f st | None => None end.

(** The implicit block list as the allocator itself walks it: payload
    address, size and allocated bit of every block from [bp] on, up to and
    including the first block of size 0. *)
Fixpoint heap_walk (fuel : nat) (m : memory) (bp : Z) : list (Z * Z * Z) :=
  match fuel with
  | O => []
  | S fuel' =>
      (bp, GET_SIZE m (HDRP bp), GET_ALLOC m (HDRP bp)) ::
      (if GET_SIZE m (HDRP bp) =? 0 then [] else heap_walk fuel' m (NEXT_BLKP m bp))
  end.

(** The byte count [mm_realloc] passes to [memcpy], when it gets that far. *)
Definition realloc_copied (A : abi) (fuel : nat) (st : state) (oldptr size : Z) : option Z :=
  match mm_malloc A fuel st size with
  | Some (s1, newptr) =>
      if (newptr =? NULL) || (size =? 0) then None
      else Some (copy_length A (mem s1) oldptr size)
  | None => None
  end.

(** The adjusted size in the words of the specification: the minimum block
    size for requests of at most 8 bytes, otherwise the request plus 8 bytes
    of overhead rounded up to the next multiple of 8. *)
Definition adjusted_size_spec (size : Z) : Z :=
  if size <=? 8 then 16 else 8 * ((size + 8 + 7) / 8).

(** A well-formed tag: a size that is a multiple of 8 and fits a word. *)
Definition tag_size (sz : Z) : Prop := 0 <= sz < UINT_MOD /\ sz mod 8 = 0.

Definition b2z (b : bool) : Z := if b then 1 else 0.

(** The word at [p] is the tag [(sz, al)]. *)
Definition tagged (m : memory) (p sz : Z) (al : bool) : Prop :=
  GET m p = sz + b2z al.

(** ** The block list a heap represents

    A block is its size and its allocated flag.  [seg m bp bs] says that the
    blocks [bs] are laid out back to back from payload address [bp]: each has
    its header one word below its payload and its footer in its last word. *)

Abbreviation block := (Z * bool)%type.

Definition bsize (b : block) : Z := fst b.
Definition balloc (b : block) : bool := snd b.

Fixpoint total (bs : list block) : Z :=
  match bs with
  | [] => 0
  | b :: r => bsize b + total r
  end.

Definition block_at (m : memory) (bp : Z) (b : block) : Prop :=
  tagged m (HDRP bp) (bsize b) (balloc b) /\
  tagged m (bp + bsize b - DSIZE) (bsize b) (balloc b).

Fixpoint seg (m : memory) (bp : Z) (bs : list block) : Prop :=
  match bs with
  | [] => True
  | b :: r => block_at m bp b /\ seg m (bp + bsize b) r
  end.

Definition block_ok (b : block) : Prop := 8 <= bsize b /\ bsize b mod 8 = 0.

(** No two neighbours are both free. *)
Fixpoint no_adjacent_free (bs : list block) : Prop :=
  match bs with
  | b1 :: r =>
      match r with
      | b2 :: _ => (balloc b1 = false -> balloc b2 = true) /\ no_adjacent_free r
      | [] => True
      end
  | [] => True
  end.

(** Payload addresses of the blocks laid out from [bp], and the address that
    follows the last one (the epilogue's). *)
Fixpoint starts (bp : Z) (bs : list block) : list Z :=
  match bs with
  | [] => [bp]
  | b :: r => bp :: starts (bp + bsize b) r
  end.

Definition prologue : block := (DSIZE, true).

(** The heap of [st] consists of the prologue, the blocks [bs] and the
    epilogue header, fills the region, and the rover is at a block. *)
Record heap_inv (st : state) (bs : list block) : Prop := {
  hi_lo : 0 < mem_heap_lo st;
  hi_listp : heap_listp st = mem_heap_lo st + 2 * WSIZE;
  hi_align : heap_listp st mod 8 = 0;
  hi_seg : seg (mem st) (heap_listp st) (prologue :: bs);
  hi_epilogue : tagged (mem st) (HDRP (mem_brk st)) 0 true;
  hi_brk : mem_brk st = heap_listp st + total (prologue :: bs);
  hi_cap : mem_brk st <= mem_max_addr st /\ mem_max_addr st - mem_heap_lo st < UINT_MOD;
  hi_ok : Forall block_ok bs;
  hi_naf : no_adjacent_free bs;
  hi_rover : In (rover st) (starts (heap_listp st) (prologue :: bs))
}.

(** The first block of [bs], laid out from [bp], that is free and at least
    [asize] bytes long. *)
Fixpoint first_fit (asize bp : Z) (bs : list block) : option Z :=
  match bs with
  | [] => None
  | b :: r =>
      if negb (balloc b) && (asize <=? bsize b) then Some bp
      else first_fit asize (bp + bsize b) r
  end.

(** The result of [find_fit] on a well-laid-out heap whose rover stands at
    the block that starts [post]. *)
Definition find_fit_result (st : state) (asize : Z) (pre post : list block) : state * Z :=
  match first_fit asize (rover st) post with
  | Some r => (set_rover st r, r)
  | None =>
      (set_rover st (heap_listp st + total (pre ++ post)),
       match first_fit asize (heap_listp st) pre with
       | Some r => r
       | None => NULL
       end)
  end.

(** The state a program leaves behind (the start state if it ran out of
    fuel). *)
Definition exec (A : abi) (fuel : nat) (st : state) (cs : list call) : state :=
  match run A fuel st cs with
  | Some st' => st'
  | None => st
  end.

(** Start and size of the block that [coalesce] leaves, given the size and
    flag of the predecessor [(psz, pal)], the size [sz] of the block itself
    and the size and flag of the successor [(nsz, nal)]. *)
Definition merged_start (bp psz : Z) (pal : bool) : Z :=
  if pal then bp else bp - psz.
Definition merged_size (psz : Z) (pal : bool) (sz nsz : Z) (nal : bool) : Z :=
  (if pal then 0 else psz) + sz + (if nal then 0 else nsz).

(** The tag found after a block: that of the next block, or the epilogue's. *)
Definition next_tag (post : list block) : block :=
  match post with
  | nb :: _ => nb
  | [] => (0, true)
  end.

(** The block list after coalescing the free block of size [sz] that lies
    between [pre ++ [pb]] and [post]. *)
Definition coalesce_blocks (pre : list block) (pb : block) (sz : Z) (post : list block)
  : list block :=
  let nb := next_tag post in
  (if balloc pb then pre ++ [pb] else pre)
    ++ (merged_size (bsize pb) (balloc pb) sz (bsize nb) (balloc nb), false)
    :: (if balloc nb then post else tl post).

(** The three parts of the block list around a coalesced block: what lies
    before the merged block, the blocks merged, and what lies after. *)
Definition merge_before (pre : list block) (pb : block) : list block :=
  if balloc pb then pre ++ [pb] else pre.
Definition merge_middle (pb : block) (sz : Z) (post : list block) : list block :=
  (if balloc pb then [] else [pb])
    ++ (sz, false) :: (if balloc (next_tag post) then [] else [next_tag post]).
Definition merge_after (post : list block) : list block :=
  if balloc (next_tag post) then post else tl post.

(** The state before [coalesce(bp)]: the heap is laid out as the block list
    [pre ++ pb :: (sz, false) :: post], prologue included, and only the free
    block at [bp] may have a free neighbour. *)
Record pre_coalesce (st : state) (pre : list block) (pb : block) (sz : Z)
       (post : list block) : Prop := {
  pc_lo : 0 < mem_heap_lo st;
  pc_listp : heap_listp st = mem_heap_lo st + 2 * WSIZE;
  pc_align : heap_listp st mod 8 = 0;
  pc_seg : seg (mem st) (heap_listp st) (pre ++ pb :: (sz, false) :: post);
  pc_epilogue : tagged (mem st) (HDRP (mem_brk st)) 0 true;
  pc_brk : mem_brk st = heap_listp st + total (pre ++ pb :: (sz, false) :: post);
  pc_cap : mem_brk st <= mem_max_addr st /\ mem_max_addr st - mem_heap_lo st < UINT_MOD;
  pc_ok : Forall block_ok (pre ++ pb :: (sz, false) :: post);
  pc_naf_pre : no_adjacent_free (pre ++ [pb]);
  pc_naf_post : no_adjacent_free post;
  pc_rover : In (rover st) (starts (heap_listp st) (pre ++ pb :: (sz, false) :: post))
}.

(** The blocks [place] leaves in the stead of a free block of size [csize]. *)
Definition placed_blocks (asize csize : Z) : list block :=
  if 2 * DSIZE <=? csize - asize
  then [(asize, true); (csize - asize, false)]
  else [(csize, true)].

(** Every block of a list paired with its payload address. *)
Fixpoint placed (bp : Z) (bs : list block) : list (Z * block) :=
  match bs with
  | [] => []
  | b :: r => (bp, b) :: placed (bp + bsize b) r
  end.

(** [p] is the payload address of an allocated block of the list. *)
Definition allocated_in (bp : Z) (bs : list block) (p : Z) : Prop :=
  exists sz, In (p, (sz, true)) (placed bp bs).

(** What [mm_init] expects of the region provider: an empty, 8-aligned
    region whose capacity fits a header word. *)
Definition region_ok (st : state) : Prop :=
  0 < mem_heap_lo st /\ mem_heap_lo st mod 8 = 0 /\
  mem_brk st = mem_heap_lo st /\
  mem_max_addr st - mem_heap_lo st < UINT_MOD.

(** ** Well-behaved callers

    [block_start m bp p]: walking the implicit list from [bp] with
    [NEXT_BLKP], as the allocator does, arrives at [p]. *)
Inductive block_start (m : memory) : Z -> Z -> Prop :=
| block_start_here bp : block_start m bp bp
| block_start_next bp p :
    GET_SIZE m (HDRP bp) <> 0 ->
    block_start m (NEXT_BLKP m bp) p ->
    block_start m bp p.

(** [p] is the payload pointer of a block the caller holds: a block of the
    list other than the prologue, with nonzero size, marked allocated. *)
Definition live (st : state) (p : Z) : Prop :=
  block_start (mem st) (heap_listp st) p /\ p <> heap_listp st /\
  GET_SIZE (mem st) (HDRP p) <> 0 /\ GET_ALLOC (mem st) (HDRP p) = 1.





(** ** The remaining accessors of [header_t], [footer_t] and [freeblock_t] *)

(** A [size_t] object written at address [p] (little-endian). *)
Definition store_size_t (a : abi) (m : memory) (p v : Z) : memory :=
  match a with
  | ILP32 => PUT m p v
  | LP64 => PUT (PUT m p v) (p + 4) (to_size a v / UINT_MOD)
  end.

Section Accessors.

Variable A : abi.

Definition put_footer (m : memory) (f size : Z) (alloc : bool) : res memory :=
  do _ <- assert (negb (f =? 0));
  do _ <- assert (size mod ALIGNMENT =? 0);
  Ret (store_size_t A m f (Z.lor (Z.land (b2z alloc) 1) size)).

Definition put_header (m : memory) (h size : Z) (alloc : bool) : res memory :=
  do _ <- assert (negb (h =? 0));
  do _ <- assert (size mod ALIGNMENT =? 0);
  Ret (store_size_t A m h (Z.lor (b2z alloc) size)).

Definition get_header (p : Z) : res Z :=
  do _ <- assert (negb (p =? 0));
  Ret (to_size A (p - sizeof_size_t A)).

Definition get_freeblock (h : Z) : res Z :=
  do _ <- assert (negb (h =? 0));
  Ret (to_size A (h + sizeof_size_t A)).

End Accessors.

(** The demo heap after one allocation of 100 bytes: the blocks are
    (112, allocated) at 4112 and (3984, free) at 4224. *)
Abbreviation demo_heap A := (exec A 64 (demo_init A) [Malloc 100]).
Abbreviation demo_blocks := [(112, true); (3984, false)].

(** The demo heap with its allocated block tagged free but not yet merged
    with the free block that follows it. *)
Abbreviation demo_unmerged A :=
  (put (put (demo_heap A) (HDRP 4112) (PACK 112 0)) (4112 + 112 - DSIZE) (PACK 112 0)).


(** * Properties *)

(** ** Words in memory *)

Lemma to_uint_range x : 0 <= to_uint x < UINT_MOD.
Proof. unfold to_uint, UINT_MOD. apply Z.mod_pos_bound. reflexivity. Qed.

Lemma to_uint_small x : 0 <= x < UINT_MOD -> to_uint x = x.
Proof. intros. unfold to_uint. apply Z.mod_small. assumption. Qed.


Lemma PUT_outside m p v q : q < p \/ p + 4 <= q -> PUT m p v q = m q.
Proof.
  intros H. unfold PUT.
  destruct (Z.eqb_spec q p); [lia|].
  destruct (Z.eqb_spec q (p + 1)); [lia|].
  destruct (Z.eqb_spec q (p + 2)); [lia|].
  destruct (Z.eqb_spec q (p + 3)); [lia|]. reflexivity.
Qed.

Lemma GET_ext m m' p :
  (forall q, p <= q < p + 4 -> m' q = m q) -> GET m' p = GET m p.
Proof.
  intros H. unfold GET, byte_at.
  rewrite (H p), (H (p + 1)), (H (p + 2)), (H (p + 3)) by lia. reflexivity.
Qed.

Lemma GET_PUT_other m p v q :
  q + 4 <= p \/ p + 4 <= q -> GET (PUT m p v) q = GET m q.
Proof.
  intros H. apply GET_ext. intros. apply PUT_outside. lia.
Qed.

Lemma GET_PUT_same m p v : GET (PUT m p v) p = to_uint v.
Proof.
  pose proof (to_uint_range v) as R. unfold UINT_MOD in R.
  change (2 ^ 32) with 4294967296 in R.
  unfold GET, byte_at, PUT.
  rewrite Z.eqb_refl.
  destruct (Z.eqb_spec (p + 1) p); [lia|]. rewrite Z.eqb_refl.
  destruct (Z.eqb_spec (p + 2) p); [lia|].
  destruct (Z.eqb_spec (p + 2) (p + 1)); [lia|]. rewrite Z.eqb_refl.
  destruct (Z.eqb_spec (p + 3) p); [lia|].
  destruct (Z.eqb_spec (p + 3) (p + 1)); [lia|].
  destruct (Z.eqb_spec (p + 3) (p + 2)); [lia|]. rewrite Z.eqb_refl.
  rewrite !Z.mod_mod by lia.
  generalize dependent (to_uint v). intros x R.
  Z.div_mod_to_equations. lia.
Qed.

(** ** Packed size/allocated words *)

Lemma land_mask x : Z.land x (to_uint (-8)) = 8 * ((x / 8) mod 2 ^ 29).
Proof.
  change (to_uint (-8)) with (Z.shiftl (Z.ones 29) 3).
  rewrite (Z.mul_comm 8). change 8 with (2 ^ 3).
  rewrite <- Z.shiftl_mul_pow2, <- Z.shiftr_div_pow2 by lia.
  apply Z.bits_inj'. intros n Hn. rewrite Z.land_spec.
  destruct (Z.ltb_spec n 3).
  - rewrite !Z.shiftl_spec_low by lia. apply andb_false_r.
  - rewrite !Z.shiftl_spec by lia.
    destruct (Z.ltb_spec (n - 3) 29).
    + rewrite Z.ones_spec_low, Z.mod_pow2_bits_low, Z.shiftr_spec by lia.
      rewrite andb_true_r. f_equal. lia.
    + rewrite Z.ones_spec_high, Z.mod_pow2_bits_high by lia. apply andb_false_r.
Qed.

Lemma land_one x : Z.land x 1 = x mod 2.
Proof. change 1 with (Z.ones 1) at 1. rewrite Z.land_ones by lia. reflexivity. Qed.

Lemma GET_SIZE_facts m p :
  0 <= GET_SIZE m p < UINT_MOD /\ GET_SIZE m p mod 8 = 0 /\
  (GET_SIZE m p <> 0 -> 8 <= GET_SIZE m p).
Proof.
  unfold GET_SIZE. rewrite land_mask.
  pose proof (Z.mod_pos_bound (GET m p / 8) (2 ^ 29) eq_refl) as H.
  change (2 ^ 29) with 536870912 in *. unfold UINT_MOD. change (2 ^ 32) with 4294967296.
  repeat split; try lia.
  rewrite Z.mul_comm. apply Z.mod_mul. lia.
Qed.

Lemma GET_ALLOC_facts m p : GET_ALLOC m p = 0 \/ GET_ALLOC m p = 1.
Proof.
  unfold GET_ALLOC. rewrite land_one.
  pose proof (Z.mod_pos_bound (GET m p) 2 eq_refl). lia.
Qed.

Lemma PACK_add sz (al : bool) : tag_size sz -> PACK sz (b2z al) = sz + b2z al.
Proof.
  intros [R M]. unfold PACK. destruct al; simpl b2z.
  - rewrite <- Z.lxor_lor, <- Z.add_nocarry_lxor; try reflexivity;
      rewrite land_one; Z.div_mod_to_equations; lia.
  - rewrite Z.lor_0_r. lia.
Qed.

Lemma word_size sz (al : bool) :
  tag_size sz -> Z.land (sz + b2z al) (to_uint (-8)) = sz.
Proof.
  intros [R M]. rewrite land_mask. unfold UINT_MOD in R.
  change (2 ^ 32) with 4294967296 in R. change (2 ^ 29) with 536870912.
  destruct al; simpl b2z; Z.div_mod_to_equations; lia.
Qed.

Lemma word_alloc sz (al : bool) :
  tag_size sz -> Z.land (sz + b2z al) 1 = b2z al.
Proof.
  intros [R M]. rewrite land_one.
  destruct al; simpl b2z; Z.div_mod_to_equations; lia.
Qed.

Lemma word_range sz (al : bool) : tag_size sz -> 0 <= sz + b2z al < UINT_MOD.
Proof.
  intros [R M]. unfold UINT_MOD in *. change (2 ^ 32) with 4294967296 in *.
  destruct al; simpl b2z; Z.div_mod_to_equations; lia.
Qed.

Lemma tagged_size m p sz al : tag_size sz -> tagged m p sz al -> GET_SIZE m p = sz.
Proof. unfold tagged, GET_SIZE. intros T ->. apply word_size; assumption. Qed.

Lemma tagged_alloc m p sz al : tag_size sz -> tagged m p sz al -> GET_ALLOC m p = b2z al.
Proof. unfold tagged, GET_ALLOC. intros T ->. apply word_alloc; assumption. Qed.

Lemma tagged_PUT m p sz al : tag_size sz -> tagged (PUT m p (PACK sz (b2z al))) p sz al.
Proof.
  intros T. unfold tagged. rewrite GET_PUT_same, PACK_add by assumption.
  apply to_uint_small, word_range; assumption.
Qed.

Lemma tagged_PUT_other m p v q sz al :
  q + 4 <= p \/ p + 4 <= q -> tagged m q sz al -> tagged (PUT m p v) q sz al.
Proof. unfold tagged. intros H <-. apply GET_PUT_other; assumption. Qed.

(** ** The bookkeeping variables are never written *)

Lemma coalesce_bookkeeping A st bp :
  bookkeeping (fst (coalesce A st bp)) = bookkeeping st.
Proof.
  unfold coalesce.
  destruct (negb (GET_ALLOC (mem st) (FTRP (mem st) (PREV_BLKP (mem st) bp)) =? 0) &&
            negb (GET_ALLOC (mem st) (HDRP (NEXT_BLKP (mem st) bp)) =? 0));
    [reflexivity|].
  destruct (negb (GET_ALLOC (mem st) (FTRP (mem st) (PREV_BLKP (mem st) bp)) =? 0) &&
            (GET_ALLOC (mem st) (HDRP (NEXT_BLKP (mem st) bp)) =? 0));
    [|destruct ((GET_ALLOC (mem st) (FTRP (mem st) (PREV_BLKP (mem st) bp)) =? 0) &&
            negb (GET_ALLOC (mem st) (HDRP (NEXT_BLKP (mem st) bp)) =? 0))];
    match goal with |- context [if ?c then _ else _] => destruct c end; reflexivity.
Qed.

Lemma extend_heap_bookkeeping A st words :
  bookkeeping (fst (extend_heap A st words)) = bookkeeping st.
Proof.
  unfold extend_heap, mem_sbrk.
  destruct (_ || _); simpl.
  - reflexivity.
  - destruct (_ =? -1); [reflexivity|].
    rewrite coalesce_bookkeeping. reflexivity.
Qed.

Lemma place_bookkeeping A st bp asize :
  bookkeeping (place A st bp asize) = bookkeeping st.
Proof. unfold place. destruct (_ >=? _); reflexivity. Qed.

Lemma find_fit_bookkeeping fuel st asize st' bp :
  find_fit fuel st asize = Some (st', bp) -> bookkeeping st' = bookkeeping st.
Proof.
  unfold find_fit. intros H.
  destruct (scan_forward fuel (mem st) (rover st) asize) as [[rv []]|]; try discriminate.
  - injection H as <- _. reflexivity.
  - destruct (scan_wrap fuel (mem st) (heap_listp st) (rover st) asize);
      try discriminate. injection H as <- _. reflexivity.
Qed.

Lemma mm_init_bookkeeping A st :
  bookkeeping (fst (mm_init A st)) = bookkeeping st.
Proof.
  unfold mm_init, mem_sbrk.
  destruct (_ || _); simpl.
  - reflexivity.
  - destruct (_ =? -1); [reflexivity|].
    match goal with
    | |- context [extend_heap A ?s ?w] =>
        pose proof (extend_heap_bookkeeping A s w) as H;
        destruct (extend_heap A s w) as [s7 r]
    end.
    simpl in H. destruct (r =? NULL); simpl; rewrite H; reflexivity.
Qed.

Lemma mm_malloc_bookkeeping A fuel st size st' p :
  mm_malloc A fuel st size = Some (st', p) -> bookkeeping st' = bookkeeping st.
Proof.
  unfold mm_malloc. intros H.
  destruct (size =? 0); [injection H as <- _; reflexivity|].
  destruct (find_fit fuel st (adjust_size A size)) as [[s1 bp]|] eqn:F; try discriminate.
  apply find_fit_bookkeeping in F.
  destruct (negb (bp =? NULL)).
  - injection H as <- _. rewrite place_bookkeeping. exact F.
  - match type of H with
    | context [extend_heap A ?s ?w] =>
        pose proof (extend_heap_bookkeeping A s w) as E;
        destruct (extend_heap A s w) as [s2 bp2]
    end.
    simpl in E.
    destruct (bp2 =? NULL); injection H as <- _;
      rewrite ?place_bookkeeping; congruence.
Qed.

Lemma mm_free_bookkeeping A st bp :
  bookkeeping (mm_free A st bp) = bookkeeping st.
Proof.
  unfold mm_free. destruct (bp =? 0); [reflexivity|].
  rewrite coalesce_bookkeeping. reflexivity.
Qed.

Lemma mm_realloc_bookkeeping A fuel st p size st' q :
  mm_realloc A fuel st p size = Some (st', q) -> bookkeeping st' = bookkeeping st.
Proof.
  unfold mm_realloc. intros H.
  destruct (mm_malloc A fuel st size) as [[s1 np]|] eqn:M; try discriminate.
  apply mm_malloc_bookkeeping in M.
  destruct (np =? NULL); [injection H as <- _; exact M|].
  destruct (size =? 0); injection H as <- _;
    rewrite mm_free_bookkeeping; exact M.
Qed.

Lemma run_call_bookkeeping A fuel st c st' :
  run_call A fuel st c = Some st' -> bookkeeping st' = bookkeeping st.
Proof.
  destruct c as [size|p|p size|p v]; simpl; intros H.
  - destruct (mm_malloc A fuel st size) as [[s q]|] eqn:M; try discriminate.
    injection H as <-. eapply mm_malloc_bookkeeping; eassumption.
  - injection H as <-. apply mm_free_bookkeeping.
  - destruct (mm_realloc A fuel st p size) as [[s q]|] eqn:M; try discriminate.
    injection H as <-. eapply mm_realloc_bookkeeping; eassumption.
  - injection H as <-. reflexivity.
Qed.

Lemma run_bookkeeping A fuel cs : forall st st',
  run A fuel st cs = Some st' -> bookkeeping st' = bookkeeping st.
Proof.
  induction cs as [|c cs IH]; simpl; intros st st' H.
  - injection H as <-. reflexivity.
  - destruct (run_call A fuel st c) as [s1|] eqn:C; try discriminate.
    apply run_call_bookkeeping in C. rewrite (IH _ _ H). exact C.
Qed.

(** C10: [freeHead], [firstHead] and [num_freeblocks] are never written by
    init, allocate, deallocate or resize: after [mm_init] on a freshly booted
    process and any sequence of public calls (and caller writes) they still
    hold their initial values NULL, NULL and 0. *)
Theorem bookkeeping_never_written A fuel m lo cap cs st' :
  run A fuel (fst (mm_init A (boot m lo cap))) cs = Some st' ->
  freeHead st' = NULL /\ firstHead st' = NULL /\ num_freeblocks st' = 0.
Proof.
  intros H. apply run_bookkeeping in H.
  rewrite mm_init_bookkeeping in H. unfold bookkeeping in H. simpl in H.
  injection H as -> -> ->. repeat split.
Qed.

Lemma bookkeeping_never_written_witness :
  exists st', demo_run ILP32 [Malloc 100; Malloc 200; Free 4112; Realloc 4224 300] = Some st' /\
    freeHead st' = NULL /\ firstHead st' = NULL /\ num_freeblocks st' = 0.
Proof.
  assert (R : returns (demo_run ILP32 [Malloc 100; Malloc 200; Free 4112; Realloc 4224 300]) = true)
    by (vm_compute; reflexivity).
  destruct (demo_run ILP32 [Malloc 100; Malloc 200; Free 4112; Realloc 4224 300])
    as [st'|] eqn:E; [|discriminate R].
  exists st'. split; [reflexivity|].
  exact (bookkeeping_never_written ILP32 64 (fun _ => 0) 4096 16384 _ st' E).
Defined.

(** ** Resize *)


(** C1 (the code departs from it): [mm_realloc] calls [mm_malloc(size)]
    first and returns NULL as soon as that yields NULL, which it always does
    for [size = 0]; the branch that frees is never reached.  So
    [resize(p, 0)] returns NULL and leaves the state as it is: on the demo
    heap the block allocated by [allocate(100)] is still ALLOCATED after
    [resize(p, 0)], while [deallocate(p)] marks it FREE. *)
Theorem resize_zero_does_not_free :
  (forall A fuel st p, mm_realloc A fuel st p 0 = Some (st, NULL)) /\
  option_map snd (mm_malloc ILP32 64 (demo_init ILP32) 100) = Some 4112 /\
  observe (fun st => GET_ALLOC (mem st) (HDRP 4112))
          (demo_run ILP32 [Malloc 100; Realloc 4112 0]) = Some 1 /\
  observe (fun st => GET_ALLOC (mem st) (HDRP 4112))
          (demo_run ILP32 [Malloc 100; Free 4112]) = Some 0.
Proof.
  split; [reflexivity|].
  repeat split; vm_compute; reflexivity.
Qed.

(** C2 (the code departs from it): the byte count is read from the
    [size_t] object at [oldptr - SIZE_T_SIZE], that is 8 bytes below the
    payload, not from the block's own header alone.  With a 4-byte [size_t]
    this is the footer of the preceding block: growing the first block of the
    demo heap (usable size 104) from 100 to 200 bytes copies 9 bytes, and the
    byte the caller wrote at offset 50 is lost.  With an 8-byte [size_t] the
    value read is at least [2^32] and 200 bytes are copied. *)
Theorem resize_copies_wrong_length :
  observe (fun st => GET_SIZE (mem st) (HDRP 4112) - DSIZE)
          (demo_run ILP32 [Malloc 100; Write 4162 171]) = Some 104 /\
  observe (fun st => byte_at (mem st) (4112 + 50))
          (demo_run ILP32 [Malloc 100; Write 4162 171]) = Some 171 /\
  and_then (demo_run ILP32 [Malloc 100; Write 4162 171])
           (fun st => realloc_copied ILP32 64 st 4112 200) = Some 9 /\
  and_then (demo_run ILP32 [Malloc 100; Write 4162 171])
           (fun st => option_map snd (mm_realloc ILP32 64 st 4112 200)) = Some 4224 /\
  observe (fun st => byte_at (mem st) (4224 + 50))
          (demo_run ILP32 [Malloc 100; Write 4162 171; Realloc 4112 200]) = Some 0 /\
  and_then (demo_run LP64 [Malloc 100; Write 4162 171])
           (fun st => realloc_copied LP64 64 st 4112 200) = Some 200.
Proof. repeat split; vm_compute; reflexivity. Qed.

(** ** The checker *)

Lemma mm_check_null_firstHead A fuel st :
  firstHead st = NULL -> mm_check A fuel st = AssertFail.
Proof. intros H. unfold mm_check. rewrite H. reflexivity. Qed.

(** C3 (the code departs from it): [mm_check] starts its walk at
    [firstHead], which no operation ever sets, so its first accessor call
    asserts on a NULL pointer: after [mm_init] and any sequence of calls,
    whatever the heap looks like, the checker aborts. *)
Theorem mm_check_always_aborts A fuel fuel' m lo cap cs st' :
  run A fuel (fst (mm_init A (boot m lo cap))) cs = Some st' ->
  mm_check A fuel' st' = AssertFail.
Proof.
  intros H. apply mm_check_null_firstHead.
  apply run_bookkeeping in H. rewrite mm_init_bookkeeping in H.
  unfold bookkeeping in H. simpl in H. injection H as _ -> _. reflexivity.
Qed.

Lemma mm_check_always_aborts_witness :
  run ILP32 64 (fst (mm_init ILP32 (boot (fun _ => 0) 4096 16384))) [] =
    Some (fst (mm_init ILP32 (boot (fun _ => 0) 4096 16384))) /\
  mm_check ILP32 64 (fst (mm_init ILP32 (boot (fun _ => 0) 4096 16384))) = AssertFail.
Proof.
  split; [reflexivity|].
  exact (mm_check_always_aborts ILP32 64 64 (fun _ => 0) 4096 16384 [] _ eq_refl).
Defined.

(** ** Size adjustment *)

Lemma SIZE_MOD_cases A : SIZE_MOD A = 2 ^ 32 \/ SIZE_MOD A = 2 ^ 64.
Proof. destruct A; [left|right]; reflexivity. Qed.

Lemma to_size_small A x : 0 <= x < UINT_MOD -> to_size A x = x.
Proof.
  intros H. unfold to_size. apply Z.mod_small. unfold UINT_MOD in H.
  destruct (SIZE_MOD_cases A) as [-> | ->]; lia.
Qed.

Lemma adjust_size_no_wrap A size :
  0 < size <= SIZE_MAX A - 15 ->
  adjust_size A size = adjusted_size_spec size /\
  16 <= adjust_size A size /\ adjust_size A size mod 8 = 0 /\
  size + 8 <= adjust_size A size < SIZE_MOD A.
Proof.
  unfold adjust_size, adjusted_size_spec, SIZE_MAX, to_size, DSIZE. intros H.
  assert (P : 2 ^ 32 <= SIZE_MOD A /\ SIZE_MOD A mod 8 = 0)
    by (destruct A; split; reflexivity || (vm_compute; discriminate)).
  destruct P as [P1 P2].
  destruct (Z.leb_spec size 8).
  - repeat split; try reflexivity; lia.
  - rewrite (Z.mod_small (size + 8 + (8 - 1))) by lia.
    rewrite (Z.mod_small (8 * _)) by (Z.div_mod_to_equations; lia).
    replace (size + 8 + (8 - 1)) with (size + 8 + 7) by lia.
    repeat split; Z.div_mod_to_equations; lia.
Qed.

(** C9 (the code departs from it): the sum [size + 8 + 7] is computed in
    [size_t] and wraps for the 15 largest requests; for [size = SIZE_MAX]
    the adjusted size is 8, below the minimum block size, not the request
    plus overhead rounded up. *)
Theorem adjust_size_wraps A :
  adjust_size A (SIZE_MAX A) = 8 /\
  adjusted_size_spec (SIZE_MAX A) = SIZE_MAX A + 9 /\
  adjust_size A (SIZE_MAX A) <> adjusted_size_spec (SIZE_MAX A).
Proof. destruct A; repeat split; vm_compute; congruence. Qed.

(** ** Block lists *)

(** Address arithmetic: unfold the address macros, then linear arithmetic. *)
Ltac addr := unfold HDRP, WSIZE, DSIZE, bsize, balloc in *; simpl fst in *; simpl snd in *; lia.

Lemma total_app l1 l2 : total (l1 ++ l2) = total l1 + total l2.
Proof. induction l1 as [|b l1 IH]; simpl; lia. Qed.

Lemma total_nonneg l : Forall block_ok l -> 0 <= total l.
Proof.
  induction 1 as [|b l [H _] _ IH]; simpl; lia.
Qed.

Lemma Forall_app_l {X} (P : X -> Prop) l1 l2 : Forall P (l1 ++ l2) -> Forall P l1.
Proof. intros H. apply Forall_app in H. tauto. Qed.

Lemma Forall_app_r {X} (P : X -> Prop) l1 l2 : Forall P (l1 ++ l2) -> Forall P l2.
Proof. intros H. apply Forall_app in H. tauto. Qed.

Lemma seg_app m l1 : forall bp l2,
  seg m bp (l1 ++ l2) <-> seg m bp l1 /\ seg m (bp + total l1) l2.
Proof.
  induction l1 as [|b l1 IH]; simpl; intros bp l2.
  - rewrite Z.add_0_r. tauto.
  - rewrite IH. replace (bp + bsize b + total l1) with (bp + (bsize b + total l1)) by lia.
    tauto.
Qed.

Lemma tagged_ext m m' p sz al :
  (forall q, p <= q < p + 4 -> m' q = m q) -> tagged m p sz al -> tagged m' p sz al.
Proof. unfold tagged. intros H <-. apply GET_ext. assumption. Qed.

Lemma block_at_ext m m' bp b :
  block_ok b ->
  (forall q, bp - 4 <= q < bp - 4 + bsize b -> m' q = m q) ->
  block_at m bp b -> block_at m' bp b.
Proof.
  intros [H8 _] E [H F]. unfold HDRP, WSIZE, DSIZE in *.
  split.
  - apply (tagged_ext m); [|exact H]. intros. apply E. addr.
  - apply (tagged_ext m); [|exact F]. intros. apply E. addr.
Qed.

Lemma seg_ext m m' l : forall bp,
  Forall block_ok l ->
  (forall q, bp - 4 <= q < bp - 4 + total l -> m' q = m q) ->
  seg m bp l -> seg m' bp l.
Proof.
  induction l as [|b l IH]; simpl; intros bp Hok E H; [exact I|].
  inversion Hok as [|? ? Hb Hl]; subst. destruct H as [H1 H2].
  pose proof (total_nonneg _ Hl). destruct Hb as [Hb1 Hb2].
  split.
  - eapply block_at_ext; try eassumption. split; assumption.
    intros. apply E. lia.
  - apply IH; try assumption. intros. apply E. lia.
Qed.

Lemma seg_PUT m p v l bp :
  Forall block_ok l ->
  p + 4 <= bp - 4 \/ bp - 4 + total l <= p ->
  seg m bp l -> seg (PUT m p v) bp l.
Proof.
  intros Hok D. apply seg_ext; [assumption|].
  intros. apply PUT_outside. lia.
Qed.

Lemma starts_app x l1 : forall bp l2,
  In x (starts bp (l1 ++ l2)) <->
  In x (starts bp l1) \/ In x (starts (bp + total l1) l2).
Proof.
  induction l1 as [|b l1 IH]; simpl; intros bp l2.
  - rewrite Z.add_0_r. destruct l2; simpl; tauto.
  - rewrite IH. replace (bp + bsize b + total l1) with (bp + (bsize b + total l1)) by lia.
    tauto.
Qed.

Lemma starts_head bp l : In bp (starts bp l).
Proof. destruct l; simpl; auto. Qed.

Lemma starts_end l : forall bp, In (bp + total l) (starts bp l).
Proof.
  induction l as [|b l IH]; simpl; intros bp.
  - left. lia.
  - right. replace (bp + (bsize b + total l)) with (bp + bsize b + total l) by lia.
    apply IH.
Qed.

Lemma starts_bounds x l : forall bp,
  Forall block_ok l -> In x (starts bp l) -> bp <= x <= bp + total l.
Proof.
  induction l as [|b l IH]; simpl; intros bp Hok H.
  - lia.
  - inversion Hok as [|? ? [Hb _] Hl]; subst.
    pose proof (total_nonneg _ Hl).
    destruct H as [<- | H]; [lia|].
    apply IH in H; [lia|assumption].
Qed.

(** A start address of a block list splits the list there. *)
Lemma starts_split x l : forall bp,
  In x (starts bp l) -> exists l1 l2, l = l1 ++ l2 /\ x = bp + total l1.
Proof.
  induction l as [|b l IH]; simpl; intros bp H.
  - exists [], []. simpl. split; [reflexivity|lia].
  - destruct H as [<- | H].
    + exists [], (b :: l). simpl. split; [reflexivity|lia].
    + destruct (IH _ H) as (l1 & l2 & -> & ->).
      exists (b :: l1), l2. simpl. split; [reflexivity|lia].
Qed.

Lemma no_adjacent_free_app l1 b l2 :
  no_adjacent_free (l1 ++ b :: l2) <->
  no_adjacent_free (l1 ++ [b]) /\ no_adjacent_free (b :: l2).
Proof.
  induction l1 as [|a l1 IH].
  - simpl. tauto.
  - change ((a :: l1) ++ b :: l2) with (a :: (l1 ++ b :: l2)).
    change ((a :: l1) ++ [b]) with (a :: (l1 ++ [b])).
    destruct l1 as [|c l1].
    + simpl. destruct l2; tauto.
    + simpl in *. tauto.
Qed.

(** ** Placement *)

Lemma put_alloc m p sz : tag_size sz -> tagged (PUT m p (PACK sz 1)) p sz true.
Proof. apply (tagged_PUT m p sz true). Qed.

Lemma put_free m p sz : tag_size sz -> tagged (PUT m p (PACK sz 0)) p sz false.
Proof. apply (tagged_PUT m p sz false). Qed.

Lemma header_size m bp b : tag_size (bsize b) -> block_at m bp b -> GET_SIZE m (HDRP bp) = bsize b.
Proof. intros T [H _]. eapply tagged_size; eassumption. Qed.

Lemma header_alloc m bp b :
  tag_size (bsize b) -> block_at m bp b -> GET_ALLOC m (HDRP bp) = b2z (balloc b).
Proof. intros T [H _]. eapply tagged_alloc; eassumption. Qed.

Lemma tag_size_sub a b : tag_size a -> tag_size b -> b <= a -> tag_size (a - b).
Proof.
  intros [Ra Ma] [Rb Mb] L. split; [lia|].
  rewrite Zminus_mod, Ma, Mb. reflexivity.
Qed.

Lemma tag_size_add a b : tag_size a -> tag_size b -> a + b < UINT_MOD -> tag_size (a + b).
Proof.
  intros [Ra Ma] [Rb Mb] L. split; [lia|].
  rewrite Zplus_mod, Ma, Mb. reflexivity.
Qed.

(** What [place] writes, on a block of size [csize] that holds the request:
    the split happens exactly when the remainder is at least [2 * DSIZE]
    (16 bytes, the minimum block size). *)
Lemma place_spec A st bp asize csize al :
  tag_size csize -> tag_size asize -> 8 <= asize <= csize ->
  block_at (mem st) bp (csize, al) ->
  let st' := place A st bp asize in
  (if 2 * DSIZE <=? csize - asize
   then block_at (mem st') bp (asize, true) /\
        block_at (mem st') (bp + asize) (csize - asize, false)
   else block_at (mem st') bp (csize, true)) /\
  (forall q, q < bp - 4 \/ bp + csize - 4 <= q -> mem st' q = mem st q) /\
  st' = set_mem st (mem st').
Proof.
  intros Tc Ta L B. unfold place.
  rewrite (header_size _ _ (csize, al) Tc B). change (bsize (csize, al)) with csize.
  pose proof (tag_size_sub _ _ Tc Ta (proj2 L)) as Tr.
  rewrite (to_size_small A (csize - asize)) by apply Tr.
  rewrite Z.geb_leb. change (DSIZE * 2) with (2 * DSIZE).
  destruct (Z.leb_spec (2 * DSIZE) (csize - asize)) as [G | G]; cbv zeta.
  - unfold put, set_mem; simpl mem.
    set (m1 := PUT (mem st) (HDRP bp) (PACK asize 1)).
    assert (T1 : tagged m1 (HDRP bp) asize true) by (apply put_alloc; assumption).
    assert (F1 : FTRP m1 bp = bp + asize - DSIZE)
      by (unfold FTRP; rewrite (tagged_size _ _ _ _ Ta T1); reflexivity).
    rewrite F1.
    set (m2 := PUT m1 (bp + asize - DSIZE) (PACK asize 1)).
    assert (T2 : tagged m2 (HDRP bp) asize true)
      by (apply tagged_PUT_other; [addr | assumption]).
    assert (N2 : NEXT_BLKP m2 bp = bp + asize)
      by (unfold NEXT_BLKP; fold (HDRP bp); rewrite (tagged_size _ _ _ _ Ta T2); reflexivity).
    rewrite N2.
    set (m3 := PUT m2 (HDRP (bp + asize)) (PACK (csize - asize) 0)).
    assert (T3 : tagged m3 (HDRP (bp + asize)) (csize - asize) false)
      by (apply put_free; assumption).
    assert (F3 : FTRP m3 (bp + asize) = bp + csize - DSIZE)
      by (unfold FTRP; rewrite (tagged_size _ _ _ _ Tr T3); lia).
    rewrite F3.
    set (m4 := PUT m3 (bp + csize - DSIZE) (PACK (csize - asize) 0)).
    split; [|split; [|reflexivity]].
    + split; split; unfold bsize, balloc; simpl fst; simpl snd.
      * apply tagged_PUT_other; [addr|]. apply tagged_PUT_other; [addr|]. exact T2.
      * apply tagged_PUT_other; [addr|]. apply tagged_PUT_other; [addr|].
        apply put_alloc; assumption.
      * apply tagged_PUT_other; [addr|]. exact T3.
      * replace (bp + asize + (csize - asize) - DSIZE) with (bp + csize - DSIZE) by lia.
        apply put_free; assumption.
    + intros q Q. unfold m4, m3, m2, m1.
      rewrite !PUT_outside by addr. reflexivity.
  - unfold put, set_mem; simpl mem.
    set (m1 := PUT (mem st) (HDRP bp) (PACK csize 1)).
    assert (T1 : tagged m1 (HDRP bp) csize true) by (apply put_alloc; assumption).
    assert (F1 : FTRP m1 bp = bp + csize - DSIZE)
      by (unfold FTRP; rewrite (tagged_size _ _ _ _ Tc T1); reflexivity).
    rewrite F1.
    split; [|split; [|reflexivity]].
    + split; unfold bsize, balloc; simpl fst; simpl snd.
      * apply tagged_PUT_other; [addr | assumption].
      * apply put_alloc; assumption.
    + intros q Q. unfold m1. rewrite !PUT_outside by addr. reflexivity.
Qed.

(** C5 as stated fails: the threshold in [place] is [2 * DSIZE] = 16 bytes,
    one minimum block, not two.  Placing 4080 bytes into the 4096-byte free
    block of the demo heap leaves a remainder of 16 < 32 bytes, and the block
    is split all the same. *)
Lemma place_threshold_counterexample :
  ~ (forall A st bp asize csize,
       tag_size csize -> tag_size asize -> 8 <= asize <= csize ->
       block_at (mem st) bp (csize, false) ->
       csize - asize < 2 * 16 ->
       block_at (mem (place A st bp asize)) bp (csize, true)).
Proof.
  intros H.
  specialize (H ILP32 (demo_init ILP32) 4112 4080 4096).
  assert (T : forall n, n mod 8 = 0 -> 0 <= n < 4294967296 -> tag_size n)
    by (intros n M R; split; assumption).
  destruct H as [H _].
  - apply T; [reflexivity | lia].
  - apply T; [reflexivity | lia].
  - lia.
  - split; vm_compute; reflexivity.
  - lia.
  - vm_compute in H. discriminate H.
Qed.

(** C5, amended: placing a request of size [asize] into a free block of
    size [csize >= asize] splits it into an allocated block of [asize] bytes
    and a free remainder exactly when [csize - asize >= 16] (the minimum
    block size, [2 * DSIZE]); otherwise the whole block is marked allocated.
    Nothing outside the block is written. *)
Theorem place_splits_iff_min_block A st bp asize csize :
  tag_size csize -> tag_size asize -> 8 <= asize <= csize ->
  block_at (mem st) bp (csize, false) ->
  (if 16 <=? csize - asize
   then block_at (mem (place A st bp asize)) bp (asize, true) /\
        block_at (mem (place A st bp asize)) (bp + asize) (csize - asize, false)
   else block_at (mem (place A st bp asize)) bp (csize, true)) /\
  (forall q, q < bp - 4 \/ bp + csize - 4 <= q ->
             mem (place A st bp asize) q = mem st q).
Proof.
  intros Tc Ta L B.
  destruct (place_spec A st bp asize csize false Tc Ta L B) as (H1 & H2 & _).
  split; assumption.
Qed.

Lemma place_splits_iff_min_block_witness :
  block_at (mem (place ILP32 (demo_init ILP32) 4112 4080)) 4112 (4080, true) /\
  block_at (mem (place ILP32 (demo_init ILP32) 4112 4080)) (4112 + 4080) (4096 - 4080, false).
Proof.
  assert (T : forall n, n mod 8 = 0 -> 0 <= n < 4294967296 -> tag_size n)
    by (intros n M R; split; assumption).
  refine (proj1 (place_splits_iff_min_block ILP32 (demo_init ILP32) 4112 4080 4096 _ _ _ _)).
  - apply T; [reflexivity | lia].
  - apply T; [reflexivity | lia].
  - lia.
  - split; vm_compute; reflexivity.
Defined.

(** ** Search *)

Lemma block_tag_size l b :
  Forall block_ok l -> total l < UINT_MOD -> In b l -> tag_size (bsize b).
Proof.
  induction 1 as [|c l [H8 HM] Hl IH]; simpl; intros T I; [contradiction|].
  pose proof (total_nonneg _ Hl). destruct I as [-> | I].
  - split; [lia | assumption].
  - apply IH; [lia | assumption].
Qed.

Lemma tag_size_0 : tag_size 0.
Proof. split; [unfold UINT_MOD; lia | reflexivity]. Qed.

Lemma fits_block m bp b asize :
  tag_size (bsize b) -> block_at m bp b ->
  fits m bp asize = negb (balloc b) && (asize <=? bsize b).
Proof.
  intros T B. unfold fits.
  rewrite (header_size _ _ _ T B), (header_alloc _ _ _ T B).
  destruct (balloc b); reflexivity.
Qed.

Lemma next_block m bp b :
  tag_size (bsize b) -> block_at m bp b -> NEXT_BLKP m bp = bp + bsize b.
Proof.
  intros T B. unfold NEXT_BLKP. fold (HDRP bp).
  rewrite (header_size _ _ _ T B). reflexivity.
Qed.

Lemma scan_forward_spec m asize l : forall q fuel,
  seg m q l -> tagged m (HDRP (q + total l)) 0 true ->
  Forall block_ok l -> total l < UINT_MOD -> (length l < fuel)%nat ->
  scan_forward fuel m q asize =
    Some (match first_fit asize q l with
          | Some r => (r, true)
          | None => (q + total l, false)
          end).
Proof.
  induction l as [|b l IH]; intros q fuel S E Hok T F;
    (destruct fuel as [|fuel]; [simpl in F; lia|]); simpl.
  - simpl in E. rewrite Z.add_0_r in *.
    rewrite (tagged_size _ _ _ _ tag_size_0 E). reflexivity.
  - destruct S as [B S]. inversion Hok as [|? ? Hb Hl]; subst.
    assert (Tb : tag_size (bsize b))
      by (eapply block_tag_size; [exact Hok | exact T | left; reflexivity]).
    pose proof (total_nonneg _ Hl). simpl in T, E, F.
    rewrite (header_size _ _ _ Tb B), (fits_block _ _ _ _ Tb B), (next_block _ _ _ Tb B).
    destruct Hb as [H8 _].
    destruct (Z.eqb_spec (bsize b) 0); [lia|].
    destruct (negb (balloc b) && (asize <=? bsize b)); [reflexivity|].
    rewrite IH; try assumption; try lia.
    + replace (q + bsize b + total l) with (q + (bsize b + total l)) by lia. reflexivity.
    + replace (q + bsize b + total l) with (q + (bsize b + total l)) by lia. assumption.
Qed.

Lemma scan_wrap_spec m asize l : forall q lim fuel,
  seg m q l -> lim = q + total l ->
  Forall block_ok l -> total l < UINT_MOD -> (length l < fuel)%nat ->
  scan_wrap fuel m q lim asize =
    Some (match first_fit asize q l with Some r => r | None => NULL end).
Proof.
  induction l as [|b l IH]; intros q lim fuel S E Hok T F;
    (destruct fuel as [|fuel]; [simpl in F; lia|]); simpl.
  - simpl in E. destruct (Z.ltb_spec q lim); [lia | reflexivity].
  - destruct S as [B S]. inversion Hok as [|? ? Hb Hl]; subst.
    assert (Tb : tag_size (bsize b))
      by (eapply block_tag_size; [exact Hok | exact T | left; reflexivity]).
    pose proof (total_nonneg _ Hl). simpl in T, F. destruct Hb as [H8 _].
    destruct (Z.ltb_spec q (q + total (b :: l))); [|simpl in *; lia].
    rewrite (fits_block _ _ _ _ Tb B), (next_block _ _ _ Tb B).
    destruct (negb (balloc b) && (asize <=? bsize b)); [reflexivity|].
    apply IH; try assumption; simpl; lia.
Qed.

Lemma find_fit_spec fuel st asize pre post :
  seg (mem st) (heap_listp st) (pre ++ post) ->
  tagged (mem st) (HDRP (heap_listp st + total (pre ++ post))) 0 true ->
  Forall block_ok (pre ++ post) -> total (pre ++ post) < UINT_MOD ->
  rover st = heap_listp st + total pre ->
  (length (pre ++ post) < fuel)%nat ->
  find_fit fuel st asize = Some (find_fit_result st asize pre post).
Proof.
  intros S E Hok T R F. unfold find_fit, find_fit_result.
  apply seg_app in S. destruct S as [S1 S2].
  pose proof (Forall_app_l _ _ _ Hok) as Hok1.
  pose proof (Forall_app_r _ _ _ Hok) as Hok2.
  pose proof (total_nonneg _ Hok1). pose proof (total_nonneg _ Hok2).
  rewrite total_app in *. rewrite length_app in F.
  rewrite (scan_forward_spec (mem st) asize post (rover st) fuel);
    try assumption; try lia.
  - destruct (first_fit asize (rover st) post) as [r|]; [reflexivity|].
    rewrite (scan_wrap_spec (mem st) asize pre (heap_listp st) (rover st) fuel);
      try assumption; try lia.
    rewrite R. replace (heap_listp st + total pre + total post)
      with (heap_listp st + (total pre + total post)) by lia. reflexivity.
  - rewrite R. assumption.
  - rewrite R. replace (heap_listp st + total pre + total post)
      with (heap_listp st + (total pre + total post)) by lia. assumption.
Qed.

Lemma first_fit_skips_prologue asize bp pre :
  first_fit asize bp (prologue :: pre) = first_fit asize (bp + DSIZE) pre.
Proof. reflexivity. Qed.

(** C6: on a well-formed heap whose rover stands at the block that starts
    [post], [find_fit] scans [post] in address order and returns the first
    free block of size at least [asize], leaving the rover there; if there is
    none the rover is left at the epilogue and the blocks before the old
    rover position ([pre] without the prologue, that is from the first real
    block) are scanned with the same test; NULL is returned only if that
    scan finds nothing either.  With fuel above the number of blocks the
    search returns. *)
Theorem find_fit_next_fit fuel st asize bs pre post :
  prologue :: bs = pre ++ post ->
  seg (mem st) (heap_listp st) (prologue :: bs) ->
  tagged (mem st) (HDRP (heap_listp st + total (prologue :: bs))) 0 true ->
  Forall block_ok bs -> total (prologue :: bs) < UINT_MOD ->
  rover st = heap_listp st + total pre ->
  (length (prologue :: bs) < fuel)%nat ->
  find_fit fuel st asize =
    Some (match first_fit asize (rover st) post with
          | Some q => (set_rover st q, q)
          | None =>
              (set_rover st (heap_listp st + total (prologue :: bs)),
               match first_fit asize (heap_listp st + DSIZE) (tl pre) with
               | Some q => q
               | None => NULL
               end)
          end).
Proof.
  intros E S Ep Hok T R F.
  assert (Hok' : Forall block_ok (prologue :: bs))
    by (constructor; [split; [unfold prologue, DSIZE; simpl; lia | reflexivity] | assumption]).
  rewrite E in S, Ep, Hok', T, F.
  rewrite (find_fit_spec fuel st asize pre post S Ep Hok' T R F).
  unfold find_fit_result. rewrite E.
  destruct (first_fit asize (rover st) post); [reflexivity|].
  destruct pre as [|p pre]; [reflexivity|].
  injection E as <- _. reflexivity.
Qed.

Lemma find_fit_next_fit_witness :
  option_map snd
    (find_fit 64 (exec ILP32 64 (demo_init ILP32) [Malloc 100; Malloc 3976; Free 4112]) 64)
  = Some 4112.
Proof.
  rewrite (find_fit_next_fit 64
             (exec ILP32 64 (demo_init ILP32) [Malloc 100; Malloc 3976; Free 4112]) 64
             [(112, false); (3984, true)]
             [prologue; (112, false)] [(3984, true)]).
  - vm_compute. reflexivity.
  - reflexivity.
  - cbv [seg block_at tagged prologue]. repeat split; vm_compute; reflexivity.
  - unfold tagged. vm_compute. reflexivity.
  - repeat constructor; simpl; lia.
  - vm_compute. reflexivity.
  - vm_compute. reflexivity.
  - simpl. lia.
Defined.

(** ** Coalescing *)

Lemma tagged_at m p q sz al : p = q -> tagged m p sz al -> tagged m q sz al.
Proof. intros ->. exact (fun H => H). Qed.

(** Solve a goal [tagged m q sz al] from a hypothesis or from the [PUT]s
    that built [m]. *)
Ltac tg :=
  lazymatch goal with
  | |- tagged (PUT ?m ?p ?v) ?q ?s ?a =>
      first [ apply (tagged_at _ p q); [addr | first [apply put_free | apply put_alloc]; assumption]
            | apply tagged_PUT_other; [addr | tg] ]
  | |- tagged ?m ?q ?s ?a =>
      match goal with
      | H : tagged m ?p s a |- _ => apply (tagged_at _ p q); [addr | exact H]
      end
  end.

Lemma GET_SIZE_at m p sz al : tag_size sz -> tagged m p sz al -> GET_SIZE m p = sz.
Proof. apply tagged_size. Qed.

Lemma coalesce_eval A st bp psz pal sz nsz nal :
  tag_size psz -> tag_size sz -> tag_size nsz ->
  8 <= psz -> 8 <= sz -> psz + sz + nsz < UINT_MOD ->
  tagged (mem st) (HDRP (bp - psz)) psz pal ->
  tagged (mem st) (bp - DSIZE) psz pal ->
  tagged (mem st) (HDRP bp) sz false ->
  tagged (mem st) (HDRP (bp + sz)) nsz nal ->
  (nal = false -> tagged (mem st) (bp + sz + nsz - DSIZE) nsz false) ->
  let bp' := merged_start bp psz pal in
  let size := merged_size psz pal sz nsz nal in
  let st' := fst (coalesce A st bp) in
  snd (coalesce A st bp) = bp' /\
  (negb (pal && nal) = true ->
   tagged (mem st') (HDRP bp') size false /\
   tagged (mem st') (bp' + size - DSIZE) size false) /\
  (forall a, (a < bp' - 4 \/ bp' <= a) /\ (a < bp' + size - 8 \/ bp' + size - 4 <= a) ->
             mem st' a = mem st a) /\
  (pal && nal = true -> mem st' = mem st) /\
  rover st' = (if negb (pal && nal) && (rover st <? bp' + size) && (rover st >? bp')
               then bp' else rover st) /\
  st' = set_rover (set_mem st (mem st')) (rover st').
Proof.
  intros Tp Ts Tn P8 S8 B Hp Fp Hb Hn Fn.
  assert (E1 : PREV_BLKP (mem st) bp = bp - psz)
    by (unfold PREV_BLKP; rewrite (GET_SIZE_at _ _ _ _ Tp Fp); reflexivity).
  assert (E2 : FTRP (mem st) (bp - psz) = bp - DSIZE)
    by (unfold FTRP; rewrite (GET_SIZE_at _ _ _ _ Tp Hp); addr).
  assert (E3 : NEXT_BLKP (mem st) bp = bp + sz)
    by (unfold NEXT_BLKP; fold (HDRP bp); rewrite (GET_SIZE_at _ _ _ _ Ts Hb); reflexivity).
  assert (E4 : GET_ALLOC (mem st) (bp - DSIZE) = b2z pal)
    by (apply (tagged_alloc _ _ psz); assumption).
  assert (E5 : GET_ALLOC (mem st) (HDRP (bp + sz)) = b2z nal)
    by (apply (tagged_alloc _ _ nsz); assumption).
  assert (E6 : GET_SIZE (mem st) (HDRP bp) = sz) by (apply (GET_SIZE_at _ _ _ false); assumption).
  assert (E7 : GET_SIZE (mem st) (HDRP (bp + sz)) = nsz) by (apply (GET_SIZE_at _ _ _ nal); assumption).
  assert (E8 : GET_SIZE (mem st) (HDRP (bp - psz)) = psz) by (apply (GET_SIZE_at _ _ _ pal); assumption).
  assert (Rp : 0 <= psz) by apply Tp. assert (Rs : 0 <= sz) by apply Ts.
  assert (Rn : 0 <= nsz) by apply Tn.
  unfold coalesce. cbv zeta.
  rewrite E1, E2, E3, E4, E5, E6, E7, E8.
  destruct pal, nal; unfold merged_start, merged_size;
    change (b2z true) with 1; change (b2z false) with 0;
    change (1 =? 0) with false; change (0 =? 0) with true;
    cbn [negb andb fst snd].
  - (* both allocated *)
    split; [reflexivity|]. split; [discriminate|].
    split; [reflexivity|]. split; [reflexivity|]. split; [reflexivity|].
    destruct st; reflexivity.
  - (* next free *)
    specialize (Fn eq_refl).
    rewrite (to_size_small A (sz + nsz)) by lia.
    assert (T : tag_size (sz + nsz)) by (apply tag_size_add; try assumption; lia).
    replace (0 + sz + nsz) with (sz + nsz) by lia.
    remember (sz + nsz) as size eqn:Es.
    unfold put, set_mem; cbn [mem rover].
    set (m1 := PUT (mem st) (HDRP bp) (PACK size 0)).
    assert (F1 : FTRP m1 bp = bp + size - DSIZE)
      by (unfold FTRP; rewrite (GET_SIZE_at m1 _ size false T) by (unfold m1; tg); reflexivity).
    rewrite F1.
    set (m2 := PUT m1 (bp + size - DSIZE) (PACK size 0)).
    assert (N2 : NEXT_BLKP m2 bp = bp + size)
      by (unfold NEXT_BLKP; fold (HDRP bp);
          rewrite (GET_SIZE_at m2 _ size false T) by (unfold m2, m1; tg); reflexivity).
    rewrite N2.
    destruct ((rover st <? bp + size) && (rover st >? bp)); unfold set_rover; cbn [fst snd mem rover];
      (split; [reflexivity|]); (split; [intros _; split; unfold m2, m1; tg|]);
      (split; [intros a Ha; unfold m2, m1; rewrite !PUT_outside by addr; reflexivity|]);
      (split; [discriminate|]); split; reflexivity.
  - (* previous free *)
    rewrite (to_size_small A (sz + psz)) by lia.
    assert (T : tag_size (psz + sz)) by (apply tag_size_add; try assumption; lia).
    replace (sz + psz) with (psz + sz) by lia.
    replace (psz + sz + 0) with (psz + sz) by lia.
    remember (psz + sz) as size eqn:Es.
    unfold put, set_mem; cbn [mem rover].
    assert (F0 : FTRP (mem st) bp = bp + sz - DSIZE) by (unfold FTRP; rewrite E6; reflexivity).
    rewrite F0.
    set (m1 := PUT (mem st) (bp + sz - DSIZE) (PACK size 0)).
    assert (P1 : PREV_BLKP m1 bp = bp - psz)
      by (unfold PREV_BLKP;
          rewrite (GET_SIZE_at m1 _ psz false Tp) by (unfold m1; tg); reflexivity).
    rewrite P1.
    set (m2 := PUT m1 (HDRP (bp - psz)) (PACK size 0)).
    assert (P2 : PREV_BLKP m2 bp = bp - psz)
      by (unfold PREV_BLKP;
          rewrite (GET_SIZE_at m2 _ psz false Tp) by (unfold m2, m1; tg); reflexivity).
    rewrite P2.
    assert (N2 : NEXT_BLKP m2 (bp - psz) = bp - psz + size)
      by (unfold NEXT_BLKP; fold (HDRP (bp - psz));
          rewrite (GET_SIZE_at m2 _ size false T) by (unfold m2, m1; tg); reflexivity).
    rewrite N2.
    destruct ((rover st <? bp - psz + size) && (rover st >? bp - psz)); unfold set_rover; cbn [fst snd mem rover];
      (split; [reflexivity|]); (split; [intros _; split; unfold m2, m1; tg|]);
      (split; [intros a Ha; unfold m2, m1; rewrite !PUT_outside by addr; reflexivity|]);
      (split; [discriminate|]); split; reflexivity.
  - (* both free *)
    specialize (Fn eq_refl).
    assert (F0 : FTRP (mem st) (bp + sz) = bp + sz + nsz - DSIZE)
      by (unfold FTRP; rewrite E7; reflexivity).
    rewrite F0, (GET_SIZE_at _ _ _ _ Tn Fn).
    rewrite (to_uint_small (psz + nsz)) by lia.
    rewrite (to_size_small A (sz + (psz + nsz))) by lia.
    assert (T : tag_size (psz + sz + nsz))
      by (apply tag_size_add; try assumption; try lia; apply tag_size_add; try assumption; lia).
    replace (sz + (psz + nsz)) with (psz + sz + nsz) by lia.
    remember (psz + sz + nsz) as size eqn:Es.
    unfold put, set_mem; cbn [mem rover].
    set (m1 := PUT (mem st) (HDRP (bp - psz)) (PACK size 0)).
    assert (N1 : NEXT_BLKP m1 bp = bp + sz)
      by (unfold NEXT_BLKP; fold (HDRP bp);
          rewrite (GET_SIZE_at m1 _ sz false Ts) by (unfold m1; tg); reflexivity).
    rewrite N1.
    assert (F1 : FTRP m1 (bp + sz) = bp + sz + nsz - DSIZE)
      by (unfold FTRP;
          rewrite (GET_SIZE_at m1 _ nsz false Tn) by (unfold m1; tg); reflexivity).
    rewrite F1.
    set (m2 := PUT m1 (bp + sz + nsz - DSIZE) (PACK size 0)).
    assert (P2 : PREV_BLKP m2 bp = bp - psz)
      by (unfold PREV_BLKP;
          rewrite (GET_SIZE_at m2 _ psz false Tp) by (unfold m2, m1; tg); reflexivity).
    rewrite P2.
    assert (N2 : NEXT_BLKP m2 (bp - psz) = bp - psz + size)
      by (unfold NEXT_BLKP; fold (HDRP (bp - psz));
          rewrite (GET_SIZE_at m2 _ size false T) by (unfold m2, m1; tg); reflexivity).
    rewrite N2.
    destruct ((rover st <? bp - psz + size) && (rover st >? bp - psz)); unfold set_rover; cbn [fst snd mem rover];
      (split; [reflexivity|]); (split; [intros _; split; unfold m2, m1; tg|]);
      (split; [intros a Ha; unfold m2, m1; rewrite !PUT_outside by addr; reflexivity|]);
      (split; [discriminate|]); split; reflexivity.
Qed.

Lemma no_adjacent_free_last l : forall b b',
  balloc b = balloc b' -> no_adjacent_free (l ++ [b]) -> no_adjacent_free (l ++ [b']).
Proof.
  induction l as [|a l IH]; intros b b' E H; [exact I|].
  destruct l as [|c l].
  - simpl in *. rewrite <- E. exact H.
  - change (no_adjacent_free (a :: c :: (l ++ [b]))) in H.
    change (no_adjacent_free (a :: c :: (l ++ [b']))).
    simpl in H |- *. destruct H as [H1 H2]. split; [exact H1|].
    apply (IH b b' E H2).
Qed.

Lemma no_adjacent_free_tail b l : no_adjacent_free (b :: l) -> no_adjacent_free l.
Proof. destruct l; simpl; tauto. Qed.

Lemma no_adjacent_free_coalesce pre pb sz post :
  no_adjacent_free (pre ++ [pb]) -> no_adjacent_free post ->
  no_adjacent_free (coalesce_blocks pre pb sz post).
Proof.
  intros Hp Hq. unfold coalesce_blocks.
  apply no_adjacent_free_app. split.
  - destruct (balloc pb) eqn:E.
    + rewrite <- app_assoc. apply no_adjacent_free_app. split; [exact Hp|].
      simpl. split; [|exact I]. unfold balloc in *. rewrite E. discriminate.
    + apply (no_adjacent_free_last pre pb); [|exact Hp].
      unfold balloc in *. simpl. exact E.
  - destruct post as [|nb post]; simpl next_tag; [exact I|].
    destruct (balloc nb) eqn:E.
    + split; [intros _; exact E | exact Hq].
    + simpl tl. destruct post as [|c post]; [exact I|].
      simpl in Hq |- *. destruct Hq as [H1 H2].
      split; [intros _; apply H1; exact E | exact H2].
Qed.

Lemma starts_merge x q0 P M Q al :
  Forall block_ok M ->
  In x (starts q0 (P ++ M ++ Q)) ->
  x <= q0 + total P \/ q0 + total P + total M <= x ->
  In x (starts q0 (P ++ (total M, al) :: Q)).
Proof.
  intros Hok H C.
  apply starts_app in H. apply starts_app.
  destruct H as [H | H]; [left; exact H|]. right.
  apply starts_app in H. destruct H as [H | H].
  - apply starts_bounds in H; [|assumption].
    simpl. unfold bsize. simpl fst.
    assert (D : x = q0 + total P \/ x = q0 + total P + total M) by lia.
    destruct D as [-> | ->]; [left; reflexivity|right; apply starts_head].
  - simpl. right. exact H.
Qed.

Lemma merge_parts pre pb sz post :
  pre ++ pb :: (sz, false) :: post
  = merge_before pre pb ++ merge_middle pb sz post ++ merge_after post.
Proof.
  unfold merge_before, merge_middle, merge_after.
  destruct (balloc pb); destruct post as [|nb post]; simpl next_tag;
    try destruct (balloc nb); simpl; rewrite <- ?app_assoc; reflexivity.
Qed.

Lemma merge_middle_total pb sz post :
  total (merge_middle pb sz post)
  = merged_size (bsize pb) (balloc pb) sz (bsize (next_tag post)) (balloc (next_tag post)).
Proof.
  unfold merge_middle, merged_size.
  destruct (balloc pb); destruct (balloc (next_tag post));
    simpl; unfold bsize; simpl; lia.
Qed.

Lemma merge_parts_coalesce pre pb sz post :
  coalesce_blocks pre pb sz post
  = merge_before pre pb ++ (total (merge_middle pb sz post), false) :: merge_after post.
Proof. rewrite merge_middle_total. reflexivity. Qed.

Lemma merge_before_total pre pb :
  total (merge_before pre pb) = total pre + bsize pb - (if balloc pb then 0 else bsize pb).
Proof.
  unfold merge_before. destruct (balloc pb); rewrite ?total_app; simpl; lia.
Qed.

(** Frame reasoning for a merge: the blocks [M] are replaced by one block,
    only whose header and footer words were written. *)
Lemma merge_seg m m' q0 P M Q size bp' :
  seg m q0 (P ++ M ++ Q) ->
  tagged m (HDRP (q0 + total (P ++ M ++ Q))) 0 true ->
  Forall block_ok (P ++ M ++ Q) ->
  bp' = q0 + total P -> size = total M -> 8 <= size ->
  block_at m' bp' (size, false) ->
  (forall a, (a < bp' - 4 \/ bp' <= a) /\ (a < bp' + size - 8 \/ bp' + size - 4 <= a) ->
             m' a = m a) ->
  seg m' q0 (P ++ (size, false) :: Q) /\
  tagged m' (HDRP (q0 + total (P ++ (size, false) :: Q))) 0 true.
Proof.
  intros S E Hok -> -> S8 B F.
  apply seg_app in S. destruct S as [SP S].
  apply seg_app in S. destruct S as [_ SQ].
  pose proof (Forall_app_l _ _ _ Hok) as HP.
  pose proof (Forall_app_r _ _ _ Hok) as HMQ.
  pose proof (Forall_app_l _ _ _ HMQ) as HM.
  pose proof (Forall_app_r _ _ _ HMQ) as HQ.
  pose proof (total_nonneg _ HP). pose proof (total_nonneg _ HQ).
  rewrite !total_app in E.
  split.
  - apply seg_app. split; [|split].
    + apply (seg_ext m); try assumption. intros. apply F. lia.
    + exact B.
    + apply (seg_ext m); try assumption.
      intros. apply F. unfold bsize in *. simpl fst in *. lia.
  - rewrite total_app. cbn [total bsize fst].
    apply (tagged_ext m); [|exact E].
    intros. apply F. unfold HDRP, WSIZE in *. lia.
Qed.

Lemma total_mod8 l : Forall block_ok l -> total l mod 8 = 0.
Proof.
  induction 1 as [|b l [_ Hb] _ IH]; simpl; [reflexivity|].
  rewrite Zplus_mod, Hb, IH. reflexivity.
Qed.

Lemma next_tag_ok post :
  Forall block_ok post -> total post < UINT_MOD ->
  tag_size (bsize (next_tag post)) /\
  (balloc (next_tag post) = false -> 8 <= bsize (next_tag post)) /\
  bsize (next_tag post) <= total post.
Proof.
  intros Hok T. destruct post as [|nb post]; simpl.
  - split; [exact tag_size_0|]. split; [discriminate | unfold bsize; simpl; lia].
  - inversion Hok as [|? ? [H8 HM] Hl]; subst. pose proof (total_nonneg _ Hl).
    simpl in T. split; [split; [lia | assumption]|]. split; [intros _; assumption | lia].
Qed.

Lemma next_tag_header m q post :
  seg m q post -> tagged m (HDRP (q + total post)) 0 true ->
  tagged m (HDRP q) (bsize (next_tag post)) (balloc (next_tag post)).
Proof.
  destruct post as [|nb post]; simpl; intros S E.
  - rewrite Z.add_0_r in E. exact E.
  - apply S.
Qed.

Lemma next_tag_footer m q post :
  seg m q post -> balloc (next_tag post) = false ->
  tagged m (q + bsize (next_tag post) - DSIZE) (bsize (next_tag post)) false.
Proof.
  destruct post as [|nb post]; simpl; intros S E; [discriminate|].
  destruct S as [[_ F] _]. rewrite E in F. exact F.
Qed.

Lemma coalesce_seg A st q0 pre pb sz post :
  seg (mem st) q0 (pre ++ pb :: (sz, false) :: post) ->
  tagged (mem st) (HDRP (q0 + total (pre ++ pb :: (sz, false) :: post))) 0 true ->
  Forall block_ok (pre ++ pb :: (sz, false) :: post) ->
  total (pre ++ pb :: (sz, false) :: post) < UINT_MOD ->
  exists st',
    coalesce A st (q0 + total pre + bsize pb)
      = (st', merged_start (q0 + total pre + bsize pb) (bsize pb) (balloc pb)) /\
    seg (mem st') q0 (coalesce_blocks pre pb sz post) /\
    tagged (mem st') (HDRP (q0 + total (coalesce_blocks pre pb sz post))) 0 true /\
    total (coalesce_blocks pre pb sz post) = total (pre ++ pb :: (sz, false) :: post) /\
    Forall block_ok (coalesce_blocks pre pb sz post) /\
    (In (rover st) (starts q0 (pre ++ pb :: (sz, false) :: post)) ->
     In (rover st') (starts q0 (coalesce_blocks pre pb sz post))) /\
    (forall a,
       (a < q0 + total (merge_before pre pb) - 4 \/ q0 + total (merge_before pre pb) <= a) /\
       (a < q0 + total (merge_before pre pb) + total (merge_middle pb sz post) - 8 \/
        q0 + total (merge_before pre pb) + total (merge_middle pb sz post) - 4 <= a) ->
       mem st' a = mem st a) /\
    st' = set_rover (set_mem st (mem st')) (rover st') /\
    rover st' =
      (if negb (balloc pb && balloc (next_tag post))
          && (rover st <? merged_start (q0 + total pre + bsize pb) (bsize pb) (balloc pb)
                          + merged_size (bsize pb) (balloc pb) sz
                              (bsize (next_tag post)) (balloc (next_tag post)))
          && (rover st >? merged_start (q0 + total pre + bsize pb) (bsize pb) (balloc pb))
       then merged_start (q0 + total pre + bsize pb) (bsize pb) (balloc pb)
       else rover st).
Proof.
  intros S E Hok T.
  set (bp := q0 + total pre + bsize pb).
  set (nb := next_tag post).
  pose proof S as S0.
  apply seg_app in S. destruct S as [Spre [Bp [Bb Spost]]].
  pose proof (Forall_app_l _ _ _ Hok) as Hpre.
  pose proof (Forall_app_r _ _ _ Hok) as Hrest.
  inversion Hrest as [|? ? [P8 PM] Hrest']; subst.
  inversion Hrest' as [|? ? [S8 SM] Hpost]; subst.
  unfold bsize in S8, SM; simpl fst in S8, SM.
  pose proof (total_nonneg _ Hpre) as Npre. pose proof (total_nonneg _ Hpost) as Npost.
  rewrite total_app in T, E. cbn [total bsize fst] in T, E. fold (bsize pb) in T, E.
  assert (Tq : total post < UINT_MOD) by lia.
  destruct (next_tag_ok post Hpost Tq) as (Tn & N8 & Nle). fold nb in Tn, N8, Nle.
  assert (Tp : tag_size (bsize pb)) by (split; [lia | assumption]).
  assert (Ts : tag_size sz) by (split; [lia | assumption]).
  cbn [bsize fst balloc snd] in Bb. fold (bsize pb) in Bb, Bp, Spost.
  assert (Hn : tagged (mem st) (HDRP (bp + sz)) (bsize nb) (balloc nb)).
  { apply next_tag_header.
    - replace (bp + sz) with (q0 + total pre + bsize pb + sz) by (unfold HDRP, DSIZE, bp; lia). exact Spost.
    - eapply tagged_at; [|exact E]. unfold HDRP, bp; lia. }
  assert (Fn : balloc nb = false -> tagged (mem st) (bp + sz + bsize nb - DSIZE) (bsize nb) false).
  { intros F. replace (bp + sz) with (q0 + total pre + bsize pb + sz) by (unfold HDRP, DSIZE, bp; lia).
    apply next_tag_footer; assumption. }
  destruct Bp as [Hp Fp]. destruct Bb as [Hb Fb]. fold bp in Hb, Fb.
  assert (Hp' : tagged (mem st) (HDRP (bp - bsize pb)) (bsize pb) (balloc pb))
    by (eapply tagged_at; [|exact Hp]; unfold HDRP, DSIZE, bp; lia).
  assert (Fp' : tagged (mem st) (bp - DSIZE) (bsize pb) (balloc pb))
    by (eapply tagged_at; [|exact Fp]; unfold HDRP, DSIZE, bp; lia).
  assert (B3 : bsize pb + sz + bsize nb < UINT_MOD) by lia.
  destruct (coalesce_eval A st bp (bsize pb) (balloc pb) sz (bsize nb) (balloc nb)
              Tp Ts Tn P8 S8 B3 Hp' Fp' Hb Hn Fn) as (R & Tg & Fr & Same & Rv & St).
  destruct (coalesce A st bp) as [st' r] eqn:C. cbn [fst snd] in *.
  exists st'. subst r.
  pose proof (merge_before_total pre pb) as TP.
  pose proof (merge_middle_total pb sz post) as TM. fold nb in TM.
  set (bp' := merged_start bp (bsize pb) (balloc pb)) in *.
  set (size := merged_size (bsize pb) (balloc pb) sz (bsize nb) (balloc nb)) in *.
  assert (EP : bp' = q0 + total (merge_before pre pb))
    by (rewrite TP; unfold bp', merged_start, bp; destruct (balloc pb); lia).
  assert (Z8 : 8 <= size /\ sz <= size).
  { unfold size, merged_size. destruct Tn as [[? _] _].
    destruct (balloc pb), (balloc nb); lia. }
  assert (Bm : block_at (mem st') bp' (size, false)).
  { destruct (negb (balloc pb && balloc nb)) eqn:Neg.
    - destruct (Tg eq_refl) as [T1 T2]. split; assumption.
    - apply negb_false_iff in Neg. rewrite (Same Neg).
      apply andb_true_iff in Neg. destruct Neg as [N1 N2].
      unfold bp', size, merged_start, merged_size. rewrite N1, N2.
      replace (0 + sz + 0) with sz by lia. split; assumption. }
  rewrite merge_parts in S0, Hok.
  assert (E0 : tagged (mem st) (HDRP (q0 + total (merge_before pre pb ++
                 merge_middle pb sz post ++ merge_after post))) 0 true).
  { rewrite <- merge_parts, total_app. cbn [total bsize fst]. exact E. }
  rewrite merge_parts_coalesce, TM. fold size.
  destruct (merge_seg (mem st) (mem st') q0 _ _ _ size bp' S0 E0 Hok EP (eq_sym TM)
              (proj1 Z8) Bm Fr) as [S' E'].
  split; [reflexivity|]. split; [exact S'|]. split; [exact E'|].
  split.
  { rewrite merge_parts, !total_app. cbn [total bsize fst]. rewrite TM. reflexivity. }
  split.
  { apply Forall_app. split; [exact (Forall_app_l _ _ _ Hok)|].
    constructor; [|exact (Forall_app_r _ _ _ (Forall_app_r _ _ _ Hok))].
    split; [exact (proj1 Z8)|]. cbn [bsize fst]. rewrite <- TM.
    apply total_mod8. exact (Forall_app_l _ _ _ (Forall_app_r _ _ _ Hok)). }
  split.
  { intros I. rewrite merge_parts in I. rewrite Rv.
    destruct (negb (balloc pb && balloc nb) && (rover st <? bp' + size) && (rover st >? bp'))
      eqn:Cnd.
    - rewrite EP. apply starts_app. right. apply starts_head.
    - rewrite <- TM in *. apply starts_merge;
        [exact (Forall_app_l _ _ _ (Forall_app_r _ _ _ Hok)) | exact I |].
      rewrite <- EP.
      destruct (negb (balloc pb && balloc nb)) eqn:Neg.
      + simpl in Cnd. apply andb_false_iff in Cnd. destruct Cnd as [Cnd | Cnd].
        * right. apply Z.ltb_ge in Cnd. exact Cnd.
        * left. rewrite Z.gtb_ltb in Cnd. apply Z.ltb_ge in Cnd. exact Cnd.
      + apply negb_false_iff, andb_true_iff in Neg. destruct Neg as [N1 N2].
        (* no merge: the list is unchanged, the rover is one of its starts *)
        assert (MM : merge_middle pb sz post = [(sz, false)])
          by (unfold merge_middle; fold nb; rewrite N1, N2; reflexivity).
        pose proof (Forall_app_l _ _ _ Hok) as HokP.
        pose proof (Forall_app_r _ _ _ (Forall_app_r _ _ _ Hok)) as HokQ.
        pose proof (total_nonneg _ HokQ).
        rewrite MM in I |- *. cbn [total bsize fst].
        apply starts_app in I. destruct I as [I | I].
        * apply starts_bounds in I; [lia | exact HokP].
        * rewrite <- EP in I. simpl in I. destruct I as [I | I]; [lia|].
          apply starts_bounds in I; [cbn [bsize fst] in I; lia | exact HokQ]. }
  split; [|split; [exact St | exact Rv]].
  intros a Ha. apply Fr. rewrite <- EP in Ha. exact Ha.
Qed.

(** ** The heap invariant across [coalesce] *)

Lemma block_ok_prologue : block_ok prologue.
Proof. split; [unfold prologue, bsize, DSIZE; simpl; lia | reflexivity]. Qed.

Lemma coalesce_blocks_head pre pb sz post x :
  pre ++ [pb] = prologue :: x ->
  exists bs', coalesce_blocks pre pb sz post = prologue :: bs'.
Proof.
  intros E. rewrite merge_parts_coalesce. unfold merge_before.
  destruct pre as [|p pre]; simpl in E.
  - injection E as -> _. simpl. eexists. reflexivity.
  - injection E as -> _. destruct (balloc pb); simpl; eexists; reflexivity.
Qed.

Lemma no_adjacent_free_cons b l :
  balloc b = true -> no_adjacent_free l -> no_adjacent_free (b :: l).
Proof. intros E H. destruct l; simpl; [exact I|]. split; [congruence | exact H]. Qed.

Lemma coalesce_inv A st pre pb sz post x :
  pre ++ [pb] = prologue :: x ->
  pre_coalesce st pre pb sz post ->
  exists st' bs',
    coalesce A st (heap_listp st + total pre + bsize pb)
      = (st', merged_start (heap_listp st + total pre + bsize pb) (bsize pb) (balloc pb)) /\
    prologue :: bs' = coalesce_blocks pre pb sz post /\
    heap_inv st' bs' /\
    mem_brk st' = mem_brk st /\ mem_max_addr st' = mem_max_addr st /\
    mem_heap_lo st' = mem_heap_lo st /\ heap_listp st' = heap_listp st /\
    (forall a,
       (a < heap_listp st + total (merge_before pre pb) - 4 \/
        heap_listp st + total (merge_before pre pb) <= a) /\
       (a < heap_listp st + total (merge_before pre pb) + total (merge_middle pb sz post) - 8 \/
        heap_listp st + total (merge_before pre pb) + total (merge_middle pb sz post) - 4 <= a) ->
       mem st' a = mem st a) /\
    rover st' =
      (if negb (balloc pb && balloc (next_tag post))
          && (rover st <? merged_start (heap_listp st + total pre + bsize pb)
                            (bsize pb) (balloc pb)
                          + merged_size (bsize pb) (balloc pb) sz
                              (bsize (next_tag post)) (balloc (next_tag post)))
          && (rover st >? merged_start (heap_listp st + total pre + bsize pb)
                            (bsize pb) (balloc pb))
       then merged_start (heap_listp st + total pre + bsize pb) (bsize pb) (balloc pb)
       else rover st).
Proof.
  intros Ex [Hlo Hl Hal S E B [C1 C2] Hok Np Nq R].
  assert (T : total (pre ++ pb :: (sz, false) :: post) < UINT_MOD).
  { unfold WSIZE in Hl. lia. }
  rewrite B in E.
  destruct (coalesce_seg A st (heap_listp st) pre pb sz post S E Hok T)
    as (st' & C & S' & E' & T' & Hok' & R' & Fr & St & Rv).
  destruct (coalesce_blocks_head pre pb sz post x Ex) as [bs' Hbs].
  exists st', bs'. rewrite Hbs in *.
  assert (F : mem_brk st' = mem_brk st /\ mem_max_addr st' = mem_max_addr st /\
              mem_heap_lo st' = mem_heap_lo st /\ heap_listp st' = heap_listp st)
    by (rewrite St; repeat split).
  destruct F as (F1 & F2 & F3 & F4).
  split; [exact C|]. split; [reflexivity|].
  split; [|split; [exact F1|]; split; [exact F2|]; split; [exact F3|]; split; [exact F4|];
           split; [exact Fr | exact Rv]].
  constructor; rewrite ?F1, ?F2, ?F3, ?F4; try assumption.
  - rewrite B, <- T'. exact E'.
  - rewrite T'. exact B.
  - split; assumption.
  - inversion Hok'; assumption.
  - apply (no_adjacent_free_tail prologue). rewrite <- Hbs.
    apply no_adjacent_free_coalesce; assumption.
  - apply R'. exact R.
Qed.

(** ** Allocated blocks stay where they are *)

Lemma placed_app l1 : forall q l2,
  placed q (l1 ++ l2) = placed q l1 ++ placed (q + total l1) l2.
Proof.
  induction l1 as [|b l1 IH]; simpl; intros q l2.
  - rewrite Z.add_0_r. reflexivity.
  - rewrite IH. replace (q + bsize b + total l1) with (q + (bsize b + total l1)) by lia.
    reflexivity.
Qed.

Lemma placed_split l : forall q p b,
  In (p, b) (placed q l) -> exists l1 l2, l = l1 ++ b :: l2 /\ p = q + total l1.
Proof.
  induction l as [|c l IH]; simpl; intros q p b H; [contradiction|].
  destruct H as [H | H].
  - injection H as <- <-. exists [], l. simpl. split; [reflexivity | lia].
  - destruct (IH _ _ _ H) as (l1 & l2 & -> & ->).
    exists (c :: l1), l2. simpl. split; [reflexivity | lia].
Qed.

Lemma placed_join l1 b l2 q : In (q + total l1, b) (placed q (l1 ++ b :: l2)).
Proof. rewrite placed_app. apply in_or_app. right. left. reflexivity. Qed.

Lemma placed_block l : forall q p b, In (p, b) (placed q l) -> In b l.
Proof.
  induction l as [|c l IH]; simpl; intros q p b H; [contradiction|].
  destruct H as [H | H]; [injection H as _ <-; left; reflexivity | right; eauto].
Qed.

Lemma placed_replace_free P M M' Q q p b :
  (forall c, In c M -> balloc c = false) -> total M = total M' ->
  In (p, b) (placed q (P ++ M ++ Q)) -> balloc b = true ->
  In (p, b) (placed q (P ++ M' ++ Q)).
Proof.
  intros F T H Hb. rewrite !placed_app in *. rewrite <- T.
  apply in_app_or in H. apply in_or_app.
  destruct H as [H | H]; [left; exact H | right].
  apply in_app_or in H. apply in_or_app.
  destruct H as [H | H]; [|right; exact H].
  apply placed_block in H. rewrite (F _ H) in Hb. discriminate Hb.
Qed.

Lemma merge_middle_free pb sz post c :
  In c (merge_middle pb sz post) -> balloc c = false.
Proof.
  unfold merge_middle.
  destruct (balloc pb) eqn:Ep; destruct (balloc (next_tag post)) eqn:En; simpl;
    intuition (subst; auto).
Qed.

Lemma coalesce_keeps_allocated pre pb sz post q p b :
  In (p, b) (placed q (pre ++ pb :: (sz, false) :: post)) -> balloc b = true ->
  In (p, b) (placed q (coalesce_blocks pre pb sz post)).
Proof.
  rewrite merge_parts, merge_parts_coalesce. intros H Hb.
  apply (placed_replace_free _ (merge_middle pb sz post) [(total (merge_middle pb sz post), false)]);
    try assumption.
  - apply merge_middle_free.
  - cbn [total bsize fst]. lia.
Qed.

(** ** The heap invariant across [extend_heap] *)

Lemma merge_before_head pre pb x :
  pre ++ [pb] = prologue :: x -> exists pre', merge_before pre pb = prologue :: pre'.
Proof.
  intros E. unfold merge_before. destruct pre as [|p pre]; simpl in E.
  - injection E as -> _. simpl. eexists. reflexivity.
  - injection E as -> _. destruct (balloc pb); simpl; eexists; reflexivity.
Qed.

Lemma heap_inv_bounds st bs :
  heap_inv st bs ->
  0 < heap_listp st /\ heap_listp st + 8 <= mem_brk st /\
  total (prologue :: bs) < UINT_MOD /\ 0 <= total bs.
Proof.
  intros [Hlo Hl Hal S E B [C1 C2] Hok N R].
  pose proof (total_nonneg _ Hok). unfold WSIZE in Hl.
  cbn [total prologue bsize fst] in *. unfold DSIZE in *. lia.
Qed.

Lemma extend_heap_fail A st words :
  mem_brk st + words * WSIZE > mem_max_addr st ->
  words mod 2 = 0 -> 0 <= words * WSIZE < SIZE_MOD A ->
  extend_heap A st words = (st, NULL).
Proof.
  intros G Ev R. unfold extend_heap, mem_sbrk.
  rewrite Ev. change (negb (0 =? 0)) with false. cbv iota.
  unfold to_size. rewrite Z.mod_small by assumption.
  destruct (Z.ltb_spec (words * WSIZE) 0); [lia|].
  destruct (Z.gtb_spec (mem_brk st + words * WSIZE) (mem_max_addr st)); [|lia].
  reflexivity.
Qed.

Lemma extend_heap_inv A st bs words :
  heap_inv st bs ->
  words mod 2 = 0 -> 8 <= words * WSIZE < SIZE_MOD A ->
  mem_brk st + words * WSIZE <= mem_max_addr st ->
  exists st' bs' pre sz,
    extend_heap A st words = (st', heap_listp st + total (prologue :: pre)) /\
    heap_inv st' bs' /\ bs' = pre ++ [(sz, false)] /\ words * WSIZE <= sz /\
    heap_listp st' = heap_listp st /\ mem_max_addr st' = mem_max_addr st /\
    mem_brk st' = mem_brk st + words * WSIZE /\
    (forall p b, In (p, b) (placed (heap_listp st) (prologue :: bs)) -> balloc b = true ->
                 In (p, b) (placed (heap_listp st) (prologue :: bs'))) /\
    (forall a, a < heap_listp st + total (prologue :: pre) - 4 -> mem st' a = mem st a) /\
    (exists tl, bs = pre ++ tl /\ forall c, In c tl -> balloc c = false).
Proof.
  intros H Ev R G.
  destruct (heap_inv_bounds _ _ H) as (P1 & P2 & P3 & P4).
  destruct H as [Hlo Hl Hal S E B [C1 C2] Hok N Rv].
  set (size := words * WSIZE) in *.
  assert (Ts : tag_size size).
  { split; [unfold WSIZE in Hl; lia|].
    unfold size, WSIZE. clear - Ev. Z.div_mod_to_equations. lia. }
  unfold extend_heap, mem_sbrk.
  rewrite Ev. change (negb (0 =? 0)) with false. cbv iota.
  unfold to_size. rewrite Z.mod_small by (fold size; lia). fold size.
  destruct (Z.ltb_spec size 0); [lia|].
  destruct (Z.gtb_spec (mem_brk st + size) (mem_max_addr st)); [lia|].
  cbn [orb]. destruct (Z.eqb_spec (mem_brk st) (-1)); [lia|].
  unfold put, set_mem, set_brk; cbn [mem mem_heap_lo mem_brk mem_max_addr heap_listp rover
                                      freeHead firstHead num_freeblocks].
  set (brk := mem_brk st) in *.
  set (m1 := PUT (mem st) (HDRP brk) (PACK size 0)).
  assert (F1 : FTRP m1 brk = brk + size - DSIZE)
    by (unfold FTRP; rewrite (GET_SIZE_at m1 _ size false Ts) by (unfold m1; tg); reflexivity).
  rewrite F1.
  set (m2 := PUT m1 (brk + size - DSIZE) (PACK size 0)).
  assert (N2 : NEXT_BLKP m2 brk = brk + size)
    by (unfold NEXT_BLKP; fold (HDRP brk);
        rewrite (GET_SIZE_at m2 _ size false Ts) by (unfold m2, m1; tg); reflexivity).
  rewrite N2.
  set (m3 := PUT m2 (HDRP (brk + size)) (PACK 0 1)).
  set (s3 := mkState m3 _ _ _ _ _ _ _ _).
  destruct (exists_last (l := prologue :: bs)) as (pre0 & pb & Ex); [discriminate|].
  assert (Tl : total (pre0 ++ [pb]) = total (prologue :: bs)) by (rewrite Ex; reflexivity).
  rewrite total_app in Tl. change (total [pb]) with (bsize pb + 0) in Tl.
  assert (Hok0 : Forall block_ok (prologue :: bs))
    by (constructor; [exact block_ok_prologue | exact Hok]).
  assert (PC : pre_coalesce s3 pre0 pb size []).
  { assert (EQ : pre0 ++ pb :: (size, false) :: [] = (prologue :: bs) ++ [(size, false)])
      by (rewrite Ex, <- app_assoc; reflexivity).
    constructor; rewrite ?EQ; unfold s3;
      cbn [mem mem_heap_lo mem_brk mem_max_addr heap_listp rover]; try assumption.
    - apply seg_app. split.
      + apply (seg_ext (mem st) _ _ _ Hok0); [|exact S].
        intros q Q. unfold m3, m2, m1. rewrite !PUT_outside by addr. reflexivity.
      + split; [|exact I]. rewrite <- B. fold brk.
        split; cbn [bsize balloc fst snd]; unfold m3, m2, m1; tg.
    - unfold m3. apply put_alloc. exact tag_size_0.
    - rewrite total_app. change (total [(size, false)]) with (size + 0). lia.
    - split; [lia | assumption].
    - apply Forall_app. split; [assumption|]. constructor; [|constructor].
      split; [exact (proj1 R) | apply Ts].
    - rewrite <- Ex. apply no_adjacent_free_cons; [reflexivity | assumption].
    - exact I.
    - apply starts_app. left. exact Rv. }
  destruct (coalesce_inv A s3 pre0 pb size [] bs (eq_sym Ex) PC)
    as (st' & bs' & C & Hbs & Inv & F1' & F2' & F3' & F4' & Fr & _).
  destruct (merge_before_head pre0 pb bs (eq_sym Ex)) as [pre' Hpre'].
  pose proof (merge_before_total pre0 pb) as TB.
  pose proof (merge_middle_total pb size []) as TM.
  pose proof Hbs as Hbs0.
  rewrite merge_parts_coalesce, Hpre' in Hbs.
  change (merge_after []) with (@nil block) in Hbs. injection Hbs as Hbs.
  exists st', bs', pre', (total (merge_middle pb size [])).
  change (heap_listp s3) with (heap_listp st) in *.
  change (mem_brk s3) with (brk + size) in *.
  change (mem_max_addr s3) with (mem_max_addr st) in *.
  replace (heap_listp st + total pre0 + bsize pb) with brk in C by (fold brk in B; lia).
  rewrite C. split.
  - f_equal. unfold merged_start. rewrite <- Hpre', TB. fold brk in B.
    destruct (balloc pb); lia.
  - split; [exact Inv|]. split; [exact Hbs|]. split.
    + rewrite TM. unfold merged_size. cbn [next_tag bsize balloc fst snd].
      destruct (balloc pb); [lia|]. pose proof (total_nonneg _ Hok0).
      assert (0 <= bsize pb); [|lia].
      assert (Fb : Forall block_ok (pre0 ++ [pb])) by (rewrite <- Ex; exact Hok0).
      apply Forall_app_r in Fb. inversion Fb as [|? ? [X _] _]; subst. lia.
    + split; [assumption|]. split; [assumption|]. split; [assumption|].
      split; [|split].
      * intros p b I Hb. rewrite Hbs0.
        apply coalesce_keeps_allocated; [|exact Hb].
        replace (pre0 ++ pb :: (size, false) :: []) with ((prologue :: bs) ++ [(size, false)])
          by (rewrite Ex, <- app_assoc; reflexivity).
        rewrite placed_app. apply in_or_app. left. exact I.
      * intros a Ha. rewrite <- Hpre' in Ha.
        assert (Hpb : 0 <= bsize pb).
        { assert (Fb : Forall block_ok (pre0 ++ [pb])) by (rewrite <- Ex; exact Hok0).
          apply Forall_app_r in Fb. inversion Fb as [|? ? [X _] _]; subst. lia. }
        assert (Hm : size <= total (merge_middle pb size [])).
        { rewrite TM. unfold merged_size. cbn [next_tag bsize balloc fst snd].
          destruct (balloc pb); lia. }
        assert (Hb : heap_listp st + total (merge_before pre0 pb) <= brk).
        { rewrite TB. fold brk in B. destruct (balloc pb); lia. }
        rewrite Fr by (unfold WSIZE in R; lia).
        unfold s3; cbn [mem]. unfold m3, m2, m1.
        unfold HDRP, WSIZE, DSIZE in *. rewrite !PUT_outside by lia. reflexivity.
      * unfold merge_before in Hpre'. destruct (balloc pb) eqn:Apb.
        -- exists []. rewrite app_nil_r. split; [congruence | intros c []].
        -- exists [pb]. split.
           ++ rewrite Hpre' in Ex. injection Ex as Ex. exact Ex.
           ++ intros c [<- | []]. exact Apb.
Qed.

(** ** The heap invariant across [find_fit] *)

Lemma first_fit_some asize l : forall q0 q,
  first_fit asize q0 l = Some q ->
  exists l1 c l2, l = l1 ++ (c, false) :: l2 /\ q = q0 + total l1 /\ asize <= c.
Proof.
  induction l as [|[sz al] l IH]; simpl; intros q0 q H; [discriminate|].
  cbn [balloc bsize fst snd] in H.
  destruct al; cbn [negb andb] in H.
  - destruct (IH _ _ H) as (l1 & c & l2 & -> & -> & L).
    exists ((sz, true) :: l1), c, l2. cbn [total bsize fst app]. repeat split; try lia.
  - destruct (Z.leb_spec asize sz).
    + injection H as <-. exists [], sz, l. simpl. repeat split; lia.
    + destruct (IH _ _ H) as (l1 & c & l2 & -> & -> & L).
      exists ((sz, false) :: l1), c, l2. cbn [total bsize fst app]. repeat split; try lia.
Qed.

Lemma first_fit_none asize l : forall q0,
  first_fit asize q0 l = None -> forall c, In (c, false) l -> c < asize.
Proof.
  induction l as [|[sz al] l IH]; simpl; intros q0 H c Hc; [contradiction|].
  cbn [balloc bsize fst snd] in H.
  destruct al; cbn [negb andb] in H.
  - destruct Hc as [Hc | Hc]; [discriminate Hc|]. exact (IH _ H _ Hc).
  - destruct (Z.leb_spec asize sz); [discriminate H|].
    destruct Hc as [Hc | Hc]; [injection Hc as <-; assumption|]. exact (IH _ H _ Hc).
Qed.

Lemma free_block_not_first X c Y bs :
  prologue :: bs = X ++ (c, false) :: Y ->
  exists pre, X = prologue :: pre /\ bs = pre ++ (c, false) :: Y.
Proof.
  destruct X as [|x X]; simpl; intros E.
  - discriminate E.
  - injection E as <- ->. exists X. split; reflexivity.
Qed.

Lemma heap_inv_set_rover st bs rv :
  heap_inv st bs -> In rv (starts (heap_listp st) (prologue :: bs)) ->
  heap_inv (set_rover st rv) bs.
Proof. intros [] R. constructor; assumption. Qed.

Lemma find_fit_inv fuel st bs asize :
  heap_inv st bs -> (length (prologue :: bs) < fuel)%nat ->
  exists rv r,
    find_fit fuel st asize = Some (set_rover st rv, r) /\
    heap_inv (set_rover st rv) bs /\
    ((r = NULL /\ forall c, In (c, false) bs -> c < asize) \/
     exists pre c post,
       bs = pre ++ (c, false) :: post /\
       r = heap_listp st + total (prologue :: pre) /\ asize <= c).
Proof.
  intros H F.
  destruct (heap_inv_bounds _ _ H) as (P1 & P2 & P3 & P4).
  pose proof H as H0.
  destruct H as [Hlo Hl Hal S E B [C1 C2] Hok N Rv].
  destruct (starts_split _ _ _ Rv) as (rpre & rpost & Ex & Er).
  assert (Hok0 : Forall block_ok (prologue :: bs))
    by (constructor; [exact block_ok_prologue | exact Hok]).
  rewrite B in E. rewrite Ex in S, E, Hok0, P3, F.
  rewrite (find_fit_spec fuel st asize rpre rpost S E Hok0 P3 Er F).
  unfold find_fit_result.
  destruct (first_fit asize (rover st) rpost) as [q|] eqn:F1.
  - destruct (first_fit_some _ _ _ _ F1) as (l1 & c & l2 & -> & -> & L).
    rewrite app_assoc in Ex.
    destruct (free_block_not_first _ _ _ _ Ex) as (pre & Epre & ->).
    exists (rover st + total l1), (rover st + total l1).
    split; [reflexivity|]. split.
    + apply heap_inv_set_rover; [exact H0|].
      rewrite Ex. apply starts_app. right.
      rewrite total_app, Er.
      replace (heap_listp st + total rpre + total l1)
        with (heap_listp st + (total rpre + total l1)) by lia.
      apply starts_head.
    + right. exists pre, c, l2. rewrite <- Epre, total_app.
      repeat split; try assumption; lia.
  - exists (heap_listp st + total (rpre ++ rpost)).
    eexists. split; [reflexivity|]. split.
    + apply heap_inv_set_rover; [exact H0|]. rewrite Ex. apply starts_end.
    + destruct (first_fit asize (heap_listp st) rpre) as [q|] eqn:F2.
      2:{ left. split; [reflexivity|]. intros c Hc.
          assert (Hc' : In (c, false) (rpre ++ rpost)) by (rewrite <- Ex; right; exact Hc).
          apply in_app_or in Hc'. destruct Hc' as [Hc' | Hc'].
          - exact (first_fit_none _ _ _ F2 _ Hc').
          - exact (first_fit_none _ _ _ F1 _ Hc'). }
      destruct (first_fit_some _ _ _ _ F2) as (l1 & c & l2 & -> & -> & L).
      rewrite <- app_assoc in Ex. simpl in Ex.
      destruct (free_block_not_first _ _ _ _ Ex) as (pre & -> & ->).
      right. exists pre, c, (l2 ++ rpost). repeat split; try assumption.
Qed.

(** ** Allocation failure *)

Lemma SIZE_MOD_mult8 A : 2 ^ 32 <= SIZE_MOD A /\ SIZE_MOD A mod 8 = 0.
Proof. destruct A; split; reflexivity || (vm_compute; discriminate). Qed.

Lemma adjust_size_aligned A size :
  0 <= adjust_size A size < SIZE_MOD A /\ adjust_size A size mod 8 = 0.
Proof.
  destruct (SIZE_MOD_mult8 A) as [P1 P2].
  unfold adjust_size, to_size, DSIZE.
  destruct (size <=? 8).
  - split; [lia | reflexivity].
  - pose proof (Z.mod_pos_bound (8 * ((size + 8 + (8 - 1)) mod SIZE_MOD A / 8)) (SIZE_MOD A)).
    split; [lia|].
    generalize dependent ((size + 8 + (8 - 1)) mod SIZE_MOD A / 8). intros k _.
    clear - P1 P2. Z.div_mod_to_equations. lia.
Qed.

Lemma extend_words A size :
  (MAX (adjust_size A size) CHUNKSIZE / WSIZE) mod 2 = 0 /\
  MAX (adjust_size A size) CHUNKSIZE / WSIZE * WSIZE = MAX (adjust_size A size) CHUNKSIZE /\
  4096 <= MAX (adjust_size A size) CHUNKSIZE < SIZE_MOD A /\
  adjust_size A size <= MAX (adjust_size A size) CHUNKSIZE.
Proof.
  destruct (adjust_size_aligned A size) as [R M].
  destruct (SIZE_MOD_mult8 A) as [P1 _].
  unfold MAX, WSIZE. change CHUNKSIZE with 4096.
  destruct (Z.gtb_spec (adjust_size A size) 4096).
  - generalize dependent (adjust_size A size). intros a R M G.
    repeat split; try lia; clear - M; Z.div_mod_to_equations; lia.
  - repeat split; try reflexivity; lia.
Qed.

Lemma set_rover_same st : set_rover st (rover st) = st.
Proof. destruct st; reflexivity. Qed.

Lemma mm_malloc_null A fuel st bs size st' :
  heap_inv st bs -> (length (prologue :: bs) < fuel)%nat ->
  mm_malloc A fuel st size = Some (st', NULL) ->
  exists rv, st' = set_rover st rv /\ heap_inv st' bs.
Proof.
  intros H F M. unfold mm_malloc in M.
  destruct (size =? 0).
  - injection M as <-. exists (rover st). rewrite set_rover_same. split; [reflexivity | exact H].
  - destruct (find_fit_inv fuel st bs (adjust_size A size) H F) as (rv & r & FF & H1 & Hr).
    rewrite FF in M.
    destruct (heap_inv_bounds _ _ H) as (P1 & P2 & P3 & P4).
    destruct Hr as [[-> _] | (pre & c & post & -> & -> & L)].
    + change (negb (NULL =? NULL)) with false in M. cbv iota in M.
      destruct (extend_words A size) as (W1 & W2 & W3 & W4).
      destruct (Z_gt_le_dec (mem_brk (set_rover st rv)
                             + MAX (adjust_size A size) CHUNKSIZE / WSIZE * WSIZE)
                            (mem_max_addr (set_rover st rv))) as [G | G].
      * rewrite (extend_heap_fail A _ _ G W1) in M by (rewrite W2; lia).
        change (NULL =? NULL) with true in M. injection M as <-.
        exists rv. split; [reflexivity | exact H1].
      * destruct (extend_heap_inv A _ _ _ H1 W1) as (s2 & bs2 & pre & sz & EH & I2 & -> & _);
          [rewrite W2; lia | exact G |].
        rewrite EH in M.
        destruct I2 as [_ _ _ _ _ _ _ Hok2 _ _].
        apply Forall_app_l in Hok2. pose proof (total_nonneg _ Hok2).
        cbn [heap_listp set_rover total prologue bsize fst] in M. unfold DSIZE, NULL in M.
        destruct (Z.eqb_spec (heap_listp st + (8 + total pre)) 0) as [Z0|NZ]; [lia|].
        exfalso. apply NZ. congruence.
    + destruct H as [_ _ _ _ _ _ _ Hok _ _]. apply Forall_app_l in Hok.
      pose proof (total_nonneg _ Hok).
      cbn [total prologue bsize fst] in M. unfold DSIZE, NULL in M.
      destruct (Z.eqb_spec (heap_listp st + (8 + total pre)) 0) as [Z0|NZ]; [lia|].
      cbn [negb] in M. exfalso. apply NZ. congruence.
Qed.

(** C7: on a well-formed heap, when the allocation of the replacement block
    fails ([mm_malloc] yields NULL), [mm_realloc] returns NULL, memory is
    left exactly as it was (so the original block keeps its tags and its
    payload), the region is not grown, and the heap still represents the same
    block list.  Only the rover may have moved. *)
Theorem realloc_failure_leaves_heap A fuel st bs p size s1 :
  heap_inv st bs -> (length (prologue :: bs) < fuel)%nat ->
  mm_malloc A fuel st size = Some (s1, NULL) ->
  mm_realloc A fuel st p size = Some (s1, NULL) /\
  mem s1 = mem st /\ mem_brk s1 = mem_brk st /\ heap_inv s1 bs.
Proof.
  intros H F M.
  destruct (mm_malloc_null A fuel st bs size s1 H F M) as (rv & -> & H1).
  unfold mm_realloc. rewrite M. change (NULL =? NULL) with true. cbv iota.
  split; [reflexivity|]. split; [reflexivity|]. split; [reflexivity | exact H1].
Qed.

(** Establish [heap_inv] on a closed state by evaluation. *)
Ltac heap_inv_by_eval :=
  constructor;
  [ vm_compute; reflexivity
  | vm_compute; reflexivity
  | vm_compute; reflexivity
  | cbv [seg block_at tagged prologue]; repeat split; vm_compute; reflexivity
  | unfold tagged; vm_compute; reflexivity
  | vm_compute; reflexivity
  | split; vm_compute; (reflexivity || discriminate)
  | repeat constructor; simpl; lia
  | simpl; intuition congruence
  | vm_compute; intuition reflexivity ].

Lemma realloc_failure_leaves_heap_witness :
  exists s1,
    mm_realloc ILP32 64 (exec ILP32 64 (demo_init ILP32) [Malloc 100]) 4112 20000
      = Some (s1, NULL) /\
    mem s1 = mem (exec ILP32 64 (demo_init ILP32) [Malloc 100]) /\
    mem_brk s1 = mem_brk (exec ILP32 64 (demo_init ILP32) [Malloc 100]) /\
    heap_inv s1 [(112, true); (3984, false)].
Proof.
  assert (R : option_map snd
                (mm_malloc ILP32 64 (exec ILP32 64 (demo_init ILP32) [Malloc 100]) 20000)
              = Some NULL) by (vm_compute; reflexivity).
  destruct (mm_malloc ILP32 64 (exec ILP32 64 (demo_init ILP32) [Malloc 100]) 20000)
    as [[s1 r]|] eqn:M; [|discriminate R].
  injection R as ->.
  exists s1.
  refine (realloc_failure_leaves_heap ILP32 64
            (exec ILP32 64 (demo_init ILP32) [Malloc 100])
            [(112, true); (3984, false)] 4112 20000 s1 _ _ M).
  - heap_inv_by_eval.
  - simpl. lia.
Defined.

(** ** The heap invariant across [place] *)

Lemma no_adjacent_free_last_weaken l : forall b b',
  (balloc b' = false -> balloc b = false) ->
  no_adjacent_free (l ++ [b]) -> no_adjacent_free (l ++ [b']).
Proof.
  induction l as [|a l IH]; intros b b' E H; [exact I|].
  destruct l as [|c l].
  - simpl in *. split; [|exact I]. intros Fa. destruct H as [H _].
    specialize (H Fa). destruct (balloc b'); [reflexivity|].
    rewrite (E eq_refl) in H. discriminate H.
  - change (no_adjacent_free (a :: c :: (l ++ [b]))) in H.
    change (no_adjacent_free (a :: c :: (l ++ [b']))).
    simpl in H |- *. destruct H as [H1 H2]. split; [exact H1|].
    apply (IH b b' E H2).
Qed.

Lemma no_adjacent_free_head b b' l :
  (balloc b' = false -> balloc b = false) ->
  no_adjacent_free (b :: l) -> no_adjacent_free (b' :: l).
Proof.
  intros E H. destruct l as [|c l]; [exact I|].
  simpl in *. destruct H as [H1 H2]. split; [|exact H2].
  intros F. apply H1, E, F.
Qed.

Lemma no_adjacent_free_place pre c post a :
  no_adjacent_free (pre ++ (c, false) :: post) ->
  no_adjacent_free (pre ++ placed_blocks a c ++ post).
Proof.
  intros H. apply no_adjacent_free_app in H. destruct H as [H1 H2].
  unfold placed_blocks. destruct (2 * DSIZE <=? c - a); simpl app.
  - apply no_adjacent_free_app. split.
    + apply (no_adjacent_free_last_weaken pre (c, false)); [discriminate | exact H1].
    + apply no_adjacent_free_cons; [reflexivity|].
      apply (no_adjacent_free_head (c, false)); [reflexivity | exact H2].
  - apply no_adjacent_free_app. split.
    + apply (no_adjacent_free_last_weaken pre (c, false)); [discriminate | exact H1].
    + apply (no_adjacent_free_head (c, false)); [discriminate | exact H2].
Qed.

Lemma starts_refine x q0 P M M' Q :
  total M' = total M ->
  (forall q, In x (starts q M) -> In x (starts q M')) ->
  In x (starts q0 (P ++ M ++ Q)) -> In x (starts q0 (P ++ M' ++ Q)).
Proof.
  intros T R H. apply starts_app in H. apply starts_app.
  destruct H as [H | H]; [left; exact H | right].
  apply starts_app in H. apply starts_app. rewrite T.
  destruct H as [H | H]; [left; apply R; exact H | right; exact H].
Qed.

Lemma placed_blocks_total a c : total (placed_blocks a c) = c.
Proof.
  unfold placed_blocks. destruct (2 * DSIZE <=? c - a); cbn [total bsize fst]; lia.
Qed.

Lemma place_inv A st bs pre csize post asize :
  heap_inv st bs -> bs = pre ++ (csize, false) :: post ->
  tag_size asize -> 8 <= asize <= csize ->
  heap_inv (place A st (heap_listp st + total (prologue :: pre)) asize)
           (pre ++ placed_blocks asize csize ++ post) /\
  (forall q, q < heap_listp st + total (prologue :: pre) - 4 \/
             heap_listp st + total (prologue :: pre) + csize - 4 <= q ->
             mem (place A st (heap_listp st + total (prologue :: pre)) asize) q = mem st q) /\
  place A st (heap_listp st + total (prologue :: pre)) asize
    = set_mem st (mem (place A st (heap_listp st + total (prologue :: pre)) asize)).
Proof.
  intros H -> Ta L.
  destruct (heap_inv_bounds _ _ H) as (P1 & P2 & P3 & P4).
  destruct H as [Hlo Hl Hal S E B [C1 C2] Hok N Rv].
  set (bp := heap_listp st + total (prologue :: pre)).
  assert (Hok0 : Forall block_ok (prologue :: pre ++ (csize, false) :: post))
    by (constructor; [exact block_ok_prologue | exact Hok]).
  change (prologue :: pre ++ (csize, false) :: post)
    with ((prologue :: pre) ++ (csize, false) :: post) in S, B, Hok0, Rv, P3.
  pose proof (Forall_app_l _ _ _ Hok0) as HokP.
  pose proof (Forall_app_r _ _ _ Hok0) as HokR.
  inversion HokR as [|? ? [C8 CM] HokQ]; subst. cbn [bsize fst] in C8, CM.
  pose proof (total_nonneg _ HokP) as NP. pose proof (total_nonneg _ HokQ) as NQ.
  rewrite total_app in B, P3.
  change (total ((csize, false) :: post)) with (csize + total post) in B, P3.
  assert (Tc : tag_size csize) by (split; [lia | assumption]).
  pose proof S as S0. apply seg_app in S. destruct S as [SP [Bc SQ]]. fold bp in Bc, SQ.
  cbn [bsize fst] in SQ.
  destruct (place_spec A st bp asize csize false Tc Ta L Bc) as (PB & Fr & St).
  set (st' := place A st bp asize) in *.
  split; [|split; [exact Fr | exact St]].
  assert (F : mem_heap_lo st' = mem_heap_lo st /\ mem_brk st' = mem_brk st /\
              mem_max_addr st' = mem_max_addr st /\ heap_listp st' = heap_listp st /\
              rover st' = rover st) by (rewrite St; repeat split).
  destruct F as (F1 & F2 & F3 & F4 & F5).
  pose proof (placed_blocks_total asize csize) as TP.
  constructor; rewrite ?F1, ?F2, ?F3, ?F4, ?F5; try assumption.
  - change (prologue :: pre ++ placed_blocks asize csize ++ post)
      with ((prologue :: pre) ++ placed_blocks asize csize ++ post).
    apply seg_app. split; [|apply seg_app; split].
    + apply (seg_ext (mem st) _ _ _ HokP); [|exact SP]. intros. apply Fr. fold bp. lia.
    + fold bp. unfold placed_blocks. destruct (2 * DSIZE <=? csize - asize).
      * destruct PB as [PB1 PB2]. simpl. auto.
      * simpl. auto.
    + fold bp. rewrite TP. apply (seg_ext (mem st) _ _ _ HokQ); [|exact SQ].
      intros. apply Fr. lia.
  - apply (tagged_ext (mem st)); [|exact E].
    intros. apply Fr. unfold HDRP, WSIZE in *. lia.
  - rewrite B. change (prologue :: pre ++ placed_blocks asize csize ++ post)
      with ((prologue :: pre) ++ placed_blocks asize csize ++ post).
    rewrite !total_app, TP. reflexivity.
  - split; assumption.
  - apply Forall_app. split; [exact (Forall_app_l _ _ _ Hok)|].
    apply Forall_app. split; [|exact HokQ].
    unfold placed_blocks. destruct Ta as [_ Ma].
    destruct (Z.leb_spec (2 * DSIZE) (csize - asize)) as [G|G].
    + repeat constructor; cbn [bsize fst]; try lia; try assumption.
      * unfold DSIZE in G. lia.
      * rewrite Zminus_mod, CM, Ma. reflexivity.
    + repeat constructor; cbn [bsize fst]; assumption.
  - apply no_adjacent_free_place. exact N.
  - change (prologue :: pre ++ placed_blocks asize csize ++ post)
      with ((prologue :: pre) ++ placed_blocks asize csize ++ post).
    apply (starts_refine _ _ _ [(csize, false)]);
      [rewrite TP; cbn [total bsize fst]; lia | | exact Rv].
    intros q I. simpl in I. cbn [bsize fst] in I.
    destruct I as [<- | [<- | []]].
    + apply starts_head.
    + rewrite <- TP at 1. apply starts_end.
Qed.

Lemma place_keeps_allocated pre c post a q p b :
  In (p, b) (placed q (pre ++ (c, false) :: post)) -> balloc b = true ->
  In (p, b) (placed q (pre ++ placed_blocks a c ++ post)).
Proof.
  intros H Hb.
  apply (placed_replace_free _ [(c, false)]); try assumption.
  - intros x [<- | []]. reflexivity.
  - rewrite placed_blocks_total. cbn [total bsize fst]. lia.
Qed.

(** ** The heap invariant across [mm_malloc] *)

Lemma placed_blocks_head a c :
  exists c' rest, placed_blocks a c = (c', true) :: rest /\ (a <= c -> a <= c' < a + 16).
Proof.
  unfold placed_blocks. destruct (Z.leb_spec (2 * DSIZE) (c - a)).
  - exists a, [(c - a, false)]. split; [reflexivity | lia].
  - exists c, []. split; [reflexivity | unfold DSIZE in *; lia].
Qed.

Lemma placed_bounds l : forall q p b,
  Forall block_ok l -> In (p, b) (placed q l) -> q <= p /\ p + bsize b <= q + total l.
Proof.
  induction l as [|x l IH]; intros q p b Hok H; [contradiction|].
  inversion Hok as [|? ? [X _] Hl]; subst.
  pose proof (total_nonneg _ Hl).
  cbn [placed total] in *. destruct H as [H | H].
  - injection H as <- <-. lia.
  - destruct (IH _ _ _ Hl H). lia.
Qed.

Lemma placed_beside P x Q q p b :
  Forall block_ok (P ++ x :: Q) -> In (p, b) (placed q (P ++ x :: Q)) ->
  (p, b) = (q + total P, x) \/ p + bsize b <= q + total P \/ q + total P + bsize x <= p.
Proof.
  intros Hok H. rewrite placed_app in H. apply in_app_or in H.
  pose proof (Forall_app_l _ _ _ Hok) as HP.
  pose proof (Forall_app_r _ _ _ Hok) as HQ.
  inversion HQ as [|? ? _ HQ']; subst.
  destruct H as [H | H].
  - destruct (placed_bounds _ _ _ _ HP H). right. left. lia.
  - cbn [placed] in H. destruct H as [H | H].
    + left. symmetry. exact H.
    + destruct (placed_bounds _ _ _ _ HQ' H). right. right. lia.
Qed.

Lemma placed_before_free P T q p b :
  Forall block_ok P -> (forall c, In c T -> balloc c = false) ->
  In (p, b) (placed q (P ++ T)) -> balloc b = true ->
  In (p, b) (placed q P) /\ p + bsize b <= q + total P.
Proof.
  intros HP HT H Hb. rewrite placed_app in H. apply in_app_or in H.
  destruct H as [H | H].
  - split; [exact H|]. apply (placed_bounds _ _ _ _ HP H).
  - apply placed_block in H. rewrite (HT _ H) in Hb. discriminate Hb.
Qed.

(** The outcome of [mm_malloc] on a well-formed heap, for a request that
    does not wrap: the heap stays well-formed, allocated blocks keep their
    place and their bytes, and the call either fails (no free block fits and
    the region cannot grow by the extension size), or takes the start of a
    free block that fits, or grows the region and takes the start of its
    last, free, block. *)
Lemma mm_malloc_full A fuel st bs size :
  heap_inv st bs -> (length (prologue :: bs) < fuel)%nat ->
  0 < size <= SIZE_MAX A - 15 ->
  exists st' r bs',
    mm_malloc A fuel st size = Some (st', r) /\
    heap_inv st' bs' /\
    heap_listp st' = heap_listp st /\ mem_max_addr st' = mem_max_addr st /\
    (forall p b, In (p, b) (placed (heap_listp st) (prologue :: bs)) -> balloc b = true ->
                 In (p, b) (placed (heap_listp st) (prologue :: bs'))) /\
    (forall p b a, In (p, b) (placed (heap_listp st) (prologue :: bs)) -> balloc b = true ->
                   p - 4 <= a < p + bsize b - 4 -> mem st' a = mem st a) /\
    ((r = NULL /\ bs' = bs /\ mem st' = mem st /\ mem_brk st' = mem_brk st /\
      (forall c, In (c, false) bs -> c < adjust_size A size) /\
      mem_brk st + MAX (adjust_size A size) CHUNKSIZE > mem_max_addr st) \/
     exists pre c post,
       bs' = pre ++ (c, true) :: post /\
       r = heap_listp st + total (prologue :: pre) /\
       size + 8 <= c < adjust_size A size + 16 /\
       ((exists c0 post0, bs = pre ++ (c0, false) :: post0 /\ adjust_size A size <= c0 /\
                          mem_brk st' = mem_brk st) \/
        (exists tl, bs = pre ++ tl /\ (forall x, In x tl -> balloc x = false) /\
                    (forall x, In (x, false) bs -> x < adjust_size A size) /\
                    mem_brk st' = mem_brk st + MAX (adjust_size A size) CHUNKSIZE))).
Proof.
  intros H F Sz. unfold mm_malloc.
  destruct (Z.eqb_spec size 0); [lia|].
  destruct (adjust_size_no_wrap A size Sz) as (_ & A16 & AM & AL).
  set (asize := adjust_size A size) in *.
  destruct (find_fit_inv fuel st bs asize H F) as (rv & r & FF & H1 & Hr).
  rewrite FF.
  destruct (heap_inv_bounds _ _ H) as (P1 & P2 & P3 & P4).
  destruct Hr as [[-> NF] | (pre & c & post & -> & -> & L)].
  - change (negb (NULL =? NULL)) with false. cbv iota.
    destruct (extend_words A size) as (W1 & W2 & W3 & W4). fold asize in W1, W2, W3, W4.
    destruct (Z_gt_le_dec (mem_brk (set_rover st rv) + MAX asize CHUNKSIZE / WSIZE * WSIZE)
                          (mem_max_addr (set_rover st rv))) as [G | G].
    + rewrite (extend_heap_fail A _ _ G W1) by (rewrite W2; lia).
      change (NULL =? NULL) with true. cbv iota.
      exists (set_rover st rv), NULL, bs.
      split; [reflexivity|]. split; [exact H1|]. split; [reflexivity|].
      split; [reflexivity|]. split; [auto|]. split; [reflexivity|].
      left. rewrite W2 in G. repeat (split; [reflexivity || assumption|]). exact G.
    + destruct (extend_heap_inv A _ _ _ H1 W1)
        as (s2 & bs2 & pre & sz & EH & I2 & -> & Lsz & F1 & F2 & F3 & K & Fe & tl & Etl & Htl);
        [rewrite W2; lia | exact G |].
      rewrite EH. rewrite W2 in Lsz, F3.
      cbn [heap_listp set_rover mem mem_brk] in *.
      pose proof I2 as I2'.
      destruct I2' as [_ _ _ _ _ _ _ Hok2 _ _].
      pose proof (Forall_app_l _ _ _ Hok2) as HokP. pose proof (total_nonneg _ HokP).
      destruct (heap_inv_bounds _ _ I2) as (Q1 & Q2 & Q3 & Q4).
      change (prologue :: pre ++ [(sz, false)]) with ((prologue :: pre) ++ [(sz, false)]) in Q3.
      rewrite total_app in Q3. change (total [(sz, false)]) with (sz + 0) in Q3.
      assert (NP : 0 <= total (prologue :: pre)).
      { change (total (prologue :: pre)) with (DSIZE + total pre). unfold DSIZE. lia. }
      destruct (Z.eqb_spec (heap_listp st + total (prologue :: pre)) NULL) as [Z0 | NZ];
        [unfold NULL in Z0; lia|].
      assert (Ta : tag_size asize) by (split; [lia | assumption]).
      destruct (place_inv A s2 _ pre sz [] asize I2 eq_refl Ta) as (I3 & Fr & St);
        [lia|].
      rewrite F1 in I3, St, Fr.
      destruct (placed_blocks_head asize sz) as (c' & rest & PB & Lc).
      eexists _, _, _. split; [reflexivity|]. split; [exact I3|].
      split; [rewrite St; exact F1|].
      split; [rewrite St; exact F2|].
      split; [|split].
      * intros p b I Hb.
        apply (place_keeps_allocated (prologue :: pre) sz [] asize); [|exact Hb].
        apply K; assumption.
      * intros p b a I Hb Ha. rewrite Etl in I.
        change (prologue :: pre ++ tl) with ((prologue :: pre) ++ tl) in I.
        destruct (placed_before_free (prologue :: pre) tl _ _ _
                    (Forall_cons _ block_ok_prologue HokP) Htl I Hb) as [_ Le].
        rewrite Fr by lia. apply Fe. lia.
      * right. exists pre, c', (rest ++ []). rewrite PB. split; [reflexivity|].
        split; [reflexivity|]. split; [lia|]. right. exists tl.
        split; [exact Etl|]. split; [exact Htl|]. split; [exact NF|].
        rewrite St. exact F3.
  - pose proof H1 as H1'. destruct H1' as [_ _ _ _ _ _ _ Hok _ _].
    pose proof (Forall_app_l _ _ _ Hok) as HokP. pose proof (total_nonneg _ HokP).
    assert (NP : 0 <= total (prologue :: pre)).
    { change (total (prologue :: pre)) with (DSIZE + total pre). unfold DSIZE. lia. }
    destruct (Z.eqb_spec (heap_listp st + total (prologue :: pre)) NULL) as [Z0 | NZ];
      [unfold NULL in Z0; lia|].
    cbn [negb].
    change (prologue :: pre ++ (c, false) :: post)
      with ((prologue :: pre) ++ (c, false) :: post) in P3.
    rewrite total_app in P3. change (total ((c, false) :: post)) with (c + total post) in P3.
    pose proof (total_nonneg _ (Forall_app_r _ _ _ Hok)) as NR.
    change (total ((c, false) :: post)) with (c + total post) in NR.
    assert (Hc : Forall block_ok ((c, false) :: post)) by exact (Forall_app_r _ _ _ Hok).
    inversion Hc as [|? ? _ Hq]; subst. pose proof (total_nonneg _ Hq).
    assert (Ta : tag_size asize) by (split; [lia | assumption]).
    destruct (place_inv A (set_rover st rv) _ pre c post asize H1 eq_refl Ta) as (I3 & Fr & St);
      [lia|].
    cbn [heap_listp set_rover mem] in I3, St, Fr.
    destruct (placed_blocks_head asize c) as (c' & rest & PB & Lc).
    eexists _, _, _. split; [reflexivity|]. split; [exact I3|].
    split; [rewrite St; reflexivity|]. split; [rewrite St; reflexivity|].
    split; [|split].
    + intros p b I Hb.
      apply (place_keeps_allocated (prologue :: pre) c post asize); assumption.
    + intros p b a I Hb Ha.
      change (prologue :: pre ++ (c, false) :: post)
        with ((prologue :: pre) ++ (c, false) :: post) in I.
      destruct (placed_beside (prologue :: pre) (c, false) post _ _ _
                  (Forall_cons _ block_ok_prologue Hok) I) as [E | D].
      * injection E as _ ->. discriminate Hb.
      * cbn [bsize fst] in D. apply Fr. lia.
    + right. exists pre, c', (rest ++ post). rewrite PB. split; [reflexivity|].
      split; [reflexivity|]. split; [lia|]. left. exists c, post.
      split; [reflexivity|]. split; [exact L|]. rewrite St. reflexivity.
Qed.


(** ** The heap invariant across [mm_free] and payload writes *)

Lemma no_adjacent_free_app_r l1 : forall l2,
  no_adjacent_free (l1 ++ l2) -> no_adjacent_free l2.
Proof.
  induction l1 as [|a l1 IH]; intros l2 H; [exact H|].
  apply IH. apply (no_adjacent_free_tail a). exact H.
Qed.

Lemma no_adjacent_free_app_l l1 : forall l2,
  no_adjacent_free (l1 ++ l2) -> no_adjacent_free l1.
Proof.
  induction l1 as [|a l1 IH]; intros l2 H; [exact I|].
  destruct l1 as [|c l1]; [exact I|].
  change (no_adjacent_free (a :: c :: (l1 ++ l2))) in H.
  simpl in H. destruct H as [H1 H2].
  change (no_adjacent_free (a :: c :: l1)). simpl. split; [exact H1|].
  apply (IH l2). exact H2.
Qed.



Lemma placed_swap P x y Q q p b :
  bsize x = bsize y -> In (p, b) (placed q (P ++ x :: Q)) -> p <> q + total P ->
  In (p, b) (placed q (P ++ y :: Q)).
Proof.
  intros E H N. rewrite placed_app in *. apply in_app_or in H. apply in_or_app.
  destruct H as [H | H]; [left; exact H|]. right.
  cbn [placed] in *. destruct H as [H | H].
  - injection H as H _. congruence.
  - right. rewrite <- E. exact H.
Qed.

Lemma placed_outside_free P M Q q p b :
  Forall block_ok P -> Forall block_ok Q -> (forall c, In c M -> balloc c = false) ->
  In (p, b) (placed q (P ++ M ++ Q)) -> balloc b = true ->
  p + bsize b <= q + total P \/ q + total P + total M <= p.
Proof.
  intros HP HQ HM H Hb. rewrite !placed_app in H.
  apply in_app_or in H. destruct H as [H | H].
  - left. apply (placed_bounds _ _ _ _ HP H).
  - apply in_app_or in H. destruct H as [H | H].
    + apply placed_block in H. rewrite (HM _ H) in Hb. discriminate Hb.
    + right. apply (placed_bounds _ _ _ _ HQ H).
Qed.

Lemma next_tag_nonneg post : Forall block_ok post -> 0 <= bsize (next_tag post).
Proof.
  intros H. destruct post as [|x post]; cbn [next_tag]; [cbn; lia|].
  inversion H as [|? ? [X _] _]; subst. lia.
Qed.

(** The outcome of [mm_free] on an allocated block of a well-formed heap:
    the heap stays well-formed and keeps its size, the other allocated blocks
    keep their place and their bytes, and a free block covers the block
    released. *)
Lemma mm_free_full A st bs pre sz post :
  heap_inv st bs -> bs = pre ++ (sz, true) :: post ->
  exists bs',
    heap_inv (mm_free A st (heap_listp st + total (prologue :: pre))) bs' /\
    heap_listp (mm_free A st (heap_listp st + total (prologue :: pre))) = heap_listp st /\
    mem_max_addr (mm_free A st (heap_listp st + total (prologue :: pre))) = mem_max_addr st /\
    mem_brk (mm_free A st (heap_listp st + total (prologue :: pre))) = mem_brk st /\
    (forall p b, In (p, b) (placed (heap_listp st) (prologue :: bs)) -> balloc b = true ->
                 p <> heap_listp st + total (prologue :: pre) ->
                 In (p, b) (placed (heap_listp st) (prologue :: bs'))) /\
    (forall p b a, In (p, b) (placed (heap_listp st) (prologue :: bs)) -> balloc b = true ->
                   p <> heap_listp st + total (prologue :: pre) ->
                   p - 4 <= a < p + bsize b - 4 ->
                   mem (mm_free A st (heap_listp st + total (prologue :: pre))) a = mem st a) /\
    (exists q c, In (q, (c, false)) (placed (heap_listp st) (prologue :: bs')) /\
                 q <= heap_listp st + total (prologue :: pre) /\
                 heap_listp st + total (prologue :: pre) + sz <= q + c).
Proof.
  intros H Ebs. pose proof H as Hinv. rewrite Ebs in H.
  destruct (heap_inv_bounds _ _ H) as (P1 & P2 & P3 & P4).
  destruct H as [Hlo Hl Hal S E B [C1 C2] Hok N Rv].
  set (bp := heap_listp st + total (prologue :: pre)).
  assert (Hok0 : Forall block_ok ((prologue :: pre) ++ (sz, true) :: post))
    by (constructor; [exact block_ok_prologue | exact Hok]).
  pose proof (Forall_app_l _ _ _ Hok0) as HokP.
  pose proof (Forall_app_r _ _ _ Hok0) as HokR.
  inversion HokR as [|? ? [S8 SM] HokQ]; subst. cbn [bsize fst] in S8, SM.
  pose proof (total_nonneg _ HokP) as NP. pose proof (total_nonneg _ HokQ) as NQ.
  change (prologue :: pre ++ (sz, true) :: post)
    with ((prologue :: pre) ++ [(sz, true)] ++ post) in *.
  pose proof E as E0. rewrite B in E0.
  rewrite !total_app in B, P3. change (total [(sz, true)]) with (sz + 0) in B, P3.
  assert (Ts : tag_size sz) by (split; [lia | assumption]).
  pose proof S as S0. apply seg_app in S. destruct S as [SP [Bb SQ]]. fold bp in Bb, SQ.
  assert (NP8 : 8 <= total (prologue :: pre)).
  { change (total (prologue :: pre)) with (DSIZE + total pre).
    pose proof (total_nonneg _ (Forall_app_l _ _ _ Hok)). unfold DSIZE. lia. }
  unfold mm_free. fold bp.
  destruct (Z.eqb_spec bp 0) as [Z0 | NZ]; [unfold bp in Z0; lia|].
  rewrite (header_size _ _ (sz, true) Ts Bb). cbn [bsize fst].
  unfold put, set_mem; cbn [mem].
  set (m1 := PUT (mem st) (HDRP bp) (PACK sz 0)).
  assert (F1 : FTRP m1 bp = bp + sz - DSIZE)
    by (unfold FTRP; rewrite (GET_SIZE_at m1 _ sz false Ts) by (unfold m1; tg); reflexivity).
  rewrite F1.
  set (m2 := PUT m1 (bp + sz - DSIZE) (PACK sz 0)).
  set (s2 := mkState m2 _ _ _ _ _ _ _ _).
  destruct (exists_last (l := prologue :: pre)) as (pre0 & pb & Ex); [discriminate|].
  assert (Bm : block_at m2 bp (sz, false))
    by (split; cbn [bsize balloc fst snd]; unfold m2, m1; tg).
  assert (Fr : forall a, (a < bp - 4 \/ bp <= a) /\ (a < bp + sz - 8 \/ bp + sz - 4 <= a) ->
                         m2 a = mem st a)
    by (intros a Ha; unfold m2, m1; rewrite !PUT_outside by addr; reflexivity).
  destruct (merge_seg (mem st) m2 (heap_listp st) (prologue :: pre) [(sz, true)] post sz bp
              S0 E0 Hok0 eq_refl) as [S2 E2]; try assumption.
  { cbn [total bsize fst]. lia. }
  assert (EQ : pre0 ++ pb :: (sz, false) :: post = (prologue :: pre) ++ (sz, false) :: post)
    by (rewrite Ex, <- app_assoc; reflexivity).
  assert (TQ : total ((prologue :: pre) ++ (sz, false) :: post)
               = total (prologue :: pre) + (sz + 0 + total post))
    by (rewrite total_app; cbn [total bsize fst]; lia).
  assert (PC : pre_coalesce s2 pre0 pb sz post).
  { constructor; rewrite ?EQ; unfold s2;
      cbn [mem mem_heap_lo mem_brk mem_max_addr heap_listp rover]; try assumption.
    - rewrite B, <- TQ. exact E2.
    - rewrite B, TQ. reflexivity.
    - split; assumption.
    - apply Forall_app. split; [exact HokP|].
      constructor; [split; assumption | exact HokQ].
    - rewrite <- Ex. apply no_adjacent_free_cons; [reflexivity|].
      exact (no_adjacent_free_app_l _ _ N).
    - apply (no_adjacent_free_tail (sz, true)). exact (no_adjacent_free_app_r _ _ N).
    - apply (starts_refine _ _ _ [(sz, true)] [(sz, false)] post); [reflexivity | | exact Rv].
      intros q I. exact I. }
  destruct (coalesce_inv A s2 pre0 pb sz post pre (eq_sym Ex) PC)
    as (st' & bs' & C & Hbs & Inv & F0 & F2 & _ & F4 & Fc & _).
  assert (Ebp : heap_listp s2 + total pre0 + bsize pb = bp).
  { unfold s2; cbn [heap_listp]. unfold bp. rewrite Ex, total_app.
    cbn [total]. lia. }
  rewrite Ebp in C. rewrite C. cbn [fst].
  change (heap_listp s2) with (heap_listp st) in Fc.
  assert (HokB : Forall block_ok (merge_before pre0 pb)).
  { unfold merge_before. destruct (balloc pb); [rewrite <- Ex; exact HokP|].
    rewrite Ex in HokP. exact (Forall_app_l _ _ _ HokP). }
  assert (HokA : Forall block_ok (merge_after post)).
  { unfold merge_after. destruct (balloc (next_tag post)); [exact HokQ|].
    destruct post; [constructor|]. inversion HokQ; assumption. }
  assert (Hpb : 0 <= bsize pb).
  { pose proof HokP as HokP'. rewrite Ex in HokP'. apply Forall_app_r in HokP'.
    inversion HokP' as [|? ? [X _] _]; subst. lia. }
  pose proof (next_tag_nonneg _ HokQ) as Hnt.
  pose proof (merge_before_total pre0 pb) as TB.
  pose proof (merge_middle_total pb sz post) as TM. unfold merged_size in TM.
  assert (Tpre : total (prologue :: pre) = total pre0 + bsize pb)
    by (rewrite Ex, total_app; cbn [total]; lia).
  assert (Old : forall p b, In (p, b) (placed (heap_listp st)
                                        ((prologue :: pre) ++ [(sz, true)] ++ post)) ->
                            balloc b = true -> p <> bp ->
                In (p, b) (placed (heap_listp st) (pre0 ++ pb :: (sz, false) :: post))).
  { intros p b I Hb Np. rewrite EQ.
    apply (placed_swap _ (sz, true) (sz, false)); [reflexivity | exact I | exact Np]. }
  exists bs'. split; [exact Inv|]. split; [exact F4|]. split; [exact F2|].
  split; [exact F0|].
  change (prologue :: pre ++ (sz, true) :: post)
    with ((prologue :: pre) ++ [(sz, true)] ++ post).
  split; [|split].
  - intros p b I Hb Np. rewrite Hbs.
    apply coalesce_keeps_allocated; [|exact Hb]. apply Old; assumption.
  - intros p b a I Hb Np Ha.
    pose proof (Old _ _ I Hb Np) as I'. rewrite merge_parts in I'.
    destruct (placed_outside_free _ _ _ _ _ _ HokB HokA
                (merge_middle_free pb sz post) I' Hb) as [D | D].
    + rewrite Fc by (destruct (balloc pb), (balloc (next_tag post)); lia).
      unfold s2; cbn [mem]. apply Fr.
      destruct (balloc pb), (balloc (next_tag post)); lia.
    + rewrite Fc by (destruct (balloc pb), (balloc (next_tag post)); lia).
      unfold s2; cbn [mem]. apply Fr.
      destruct (balloc pb), (balloc (next_tag post)); lia.
  - exists (heap_listp st + total (merge_before pre0 pb)), (total (merge_middle pb sz post)).
    split.
    + rewrite Hbs, merge_parts_coalesce. apply placed_join.
    + fold bp. destruct (balloc pb), (balloc (next_tag post)); lia.
Qed.



(** ** The heap invariant is established by [mm_init] *)

Lemma mm_init_step A st :
  mem_brk st + 16 <= mem_max_addr st -> mem_brk st <> -1 ->
  mm_init A st =
    (let lo := mem_brk st in
     let m4 := PUT (PUT (PUT (PUT (mem st) lo 0) (lo + 1 * WSIZE) (PACK DSIZE 1))
                        (lo + 2 * WSIZE) (PACK DSIZE 1)) (lo + 3 * WSIZE) (PACK 0 1) in
     let s6 := mkState m4 (mem_heap_lo st) (lo + 16) (mem_max_addr st)
                       (lo + 2 * WSIZE) (lo + 2 * WSIZE)
                       (freeHead st) (firstHead st) (num_freeblocks st) in
     let '(s7, r) := extend_heap A s6 (CHUNKSIZE / WSIZE) in
     if r =? NULL then (s7, -1) else (s7, 0)).
Proof.
  intros G N. destruct st as [m lo brk max hl rv fh fH n].
  cbn [mem_brk mem_max_addr] in G, N.
  unfold mm_init, mem_sbrk.
  cbn [mem mem_heap_lo mem_brk mem_max_addr heap_listp rover freeHead firstHead num_freeblocks].
  change (4 * WSIZE) with 16. change (16 <? 0) with false. cbn [orb].
  destruct (Z.gtb_spec (brk + 16) max); [lia|].
  cbn [heap_listp set_heap_listp set_brk mem mem_heap_lo mem_brk mem_max_addr rover
       freeHead firstHead num_freeblocks].
  destruct (Z.eqb_spec brk (-1)); [contradiction|].
  reflexivity.
Qed.

Lemma mm_init_fail A st :
  mem_brk st + 16 > mem_max_addr st -> snd (mm_init A st) = -1.
Proof.
  intros G. unfold mm_init, mem_sbrk.
  change (4 * WSIZE) with 16. change (16 <? 0) with false. cbn [orb].
  destruct (Z.gtb_spec (mem_brk st + 16) (mem_max_addr st)); [|lia].
  reflexivity.
Qed.


(** ** The heap invariant across [mm_realloc] *)



(** ** From the allocator's walk to the block list and back *)

Lemma block_start_starts m q p :
  block_start m q p ->
  forall l, seg m q l -> tagged m (HDRP (q + total l)) 0 true ->
            Forall block_ok l -> total l < UINT_MOD ->
            In p (starts q l).
Proof.
  induction 1 as [q | q p NZ W IH]; intros l S E Hok T.
  - apply starts_head.
  - destruct l as [|b l].
    + simpl in E. rewrite Z.add_0_r in E.
      rewrite (tagged_size _ _ _ _ tag_size_0 E) in NZ. contradiction.
    + destruct S as [B S]. inversion Hok as [|? ? Hb Hl]; subst.
      assert (Tb : tag_size (bsize b))
        by (eapply block_tag_size; [exact Hok | exact T | left; reflexivity]).
      rewrite (next_block _ _ _ Tb B) in IH.
      pose proof (total_nonneg _ Hl). destruct Hb as [H8 _]. simpl in T, E.
      simpl. right. apply IH; try assumption; try lia.
      replace (q + bsize b + total l) with (q + (bsize b + total l)) by lia. exact E.
Qed.

Lemma starts_block_start m l : forall q p,
  seg m q l -> Forall block_ok l -> total l < UINT_MOD ->
  In p (starts q l) -> block_start m q p.
Proof.
  induction l as [|b l IH]; intros q p S Hok T I.
  - destruct I as [<- | []]. constructor.
  - destruct S as [B S]. inversion Hok as [|? ? Hb Hl]; subst.
    assert (Tb : tag_size (bsize b))
      by (eapply block_tag_size; [exact Hok | exact T | left; reflexivity]).
    pose proof (total_nonneg _ Hl). destruct Hb as [H8 _]. simpl in T.
    destruct I as [<- | I]; [constructor|].
    apply block_start_next.
    + rewrite (header_size _ _ _ Tb B). lia.
    + rewrite (next_block _ _ _ Tb B). apply IH; try assumption. lia.
Qed.

Lemma heap_inv_full st bs :
  heap_inv st bs ->
  seg (mem st) (heap_listp st) (prologue :: bs) /\
  tagged (mem st) (HDRP (heap_listp st + total (prologue :: bs))) 0 true /\
  Forall block_ok (prologue :: bs) /\ total (prologue :: bs) < UINT_MOD /\
  no_adjacent_free (prologue :: bs).
Proof.
  intros H. destruct (heap_inv_bounds _ _ H) as (_ & _ & P3 & _).
  destruct H as [Hlo Hl Hal S E B [C1 C2] Hok N Rv].
  rewrite B in E.
  split; [exact S|]. split; [exact E|]. split; [|split; [exact P3|]].
  - constructor; [exact block_ok_prologue | exact Hok].
  - apply no_adjacent_free_cons; [reflexivity | exact N].
Qed.

(** A block the caller holds is an allocated block of the list. *)
Lemma live_allocated st bs p :
  heap_inv st bs -> live st p ->
  exists sz pre post,
    bs = pre ++ (sz, true) :: post /\ p = heap_listp st + total (prologue :: pre) /\
    GET_SIZE (mem st) (HDRP p) = sz.
Proof.
  intros H (W & Np & NZ & Al).
  destruct (heap_inv_full _ _ H) as (S & E & Hok & T & _).
  pose proof (block_start_starts _ _ _ W _ S E Hok T) as I.
  destruct (starts_split _ _ _ I) as (l1 & l2 & El & Ep).
  rewrite El in S, E, Hok, T.
  destruct l2 as [|[sz al] l2].
  - rewrite app_nil_r in E. rewrite <- Ep in E.
    rewrite (tagged_size _ _ _ _ tag_size_0 E) in NZ. contradiction.
  - apply seg_app in S. destruct S as [_ [B _]]. rewrite <- Ep in B.
    assert (Tb : tag_size sz).
    { apply (block_tag_size _ (sz, al) Hok T). apply in_or_app. right. left. reflexivity. }
    rewrite (header_alloc _ _ (sz, al) Tb B) in Al.
    destruct al; [|discriminate Al].
    destruct l1 as [|x l1]; [simpl in Ep; lia|].
    injection El as <- ->.
    exists sz, l1, l2. split; [reflexivity|]. split; [exact Ep|].
    exact (header_size _ _ (sz, true) Tb B).
Qed.

Lemma length_total l : Forall block_ok l -> 8 * Z.of_nat (length l) <= total l.
Proof.
  induction 1 as [|b l [H8 _] _ IH]; [simpl; lia|].
  change (length (b :: l)) with (S (length l)). rewrite Nat2Z.inj_succ.
  simpl total. lia.
Qed.

Lemma heap_inv_fuel st bs fuel :
  heap_inv st bs ->
  (mem_max_addr st - mem_heap_lo st) / 8 < Z.of_nat fuel ->
  (length (prologue :: bs) < fuel)%nat.
Proof.
  intros H F. destruct (heap_inv_full _ _ H) as (_ & _ & Hok & _).
  pose proof (length_total _ Hok) as L.
  destruct H as [Hlo Hl Hal S E B [C1 C2] _ _ _]. unfold WSIZE in Hl.
  apply Nat2Z.inj_lt.
  assert (Z.of_nat (length (prologue :: bs)) <= (mem_max_addr st - mem_heap_lo st) / 8);
    [|lia].
  apply Z.div_le_lower_bound; lia.
Qed.

(** ** Every call of a well-behaved caller returns and keeps the invariant *)

Lemma heap_inv_lo st st' bs bs' :
  heap_inv st bs -> heap_inv st' bs' -> heap_listp st' = heap_listp st ->
  mem_heap_lo st' = mem_heap_lo st.
Proof.
  intros [_ L _ _ _ _ _ _ _ _] [_ L' _ _ _ _ _ _ _ _] E. lia.
Qed.









(** Establish [live] on a closed state by walking its blocks. *)
Ltac walk_blocks :=
  first
    [ apply block_start_here
    | apply block_start_next;
      [ vm_compute; discriminate
      | match goal with
        | |- block_start ?m (NEXT_BLKP ?m ?q) ?p =>
            let n := eval vm_compute in (NEXT_BLKP m q) in
            replace (NEXT_BLKP m q) with n by (vm_compute; reflexivity);
            walk_blocks
        end ] ].

Ltac live_by_eval :=
  unfold live;
  split;
  [ match goal with
    | |- block_start ?m ?h ?p =>
        let n := eval vm_compute in h in
        replace h with n by (vm_compute; reflexivity);
        walk_blocks
    end
  | split; [vm_compute; discriminate
           | split; [vm_compute; discriminate | vm_compute; reflexivity]] ].


(** ** Wrapped requests break the invariants *)

(** C4 (the code departs from it): a request of [SIZE_MAX - 14] bytes wraps
    to an adjusted size of 0.  [find_fit] accepts any free block for it and
    [place] writes a size-0 tag over the footer of the block before it, then
    tags the chosen block free again and hands it out.  When that block is
    released, [coalesce] reads the damaged footer, takes the block for its
    own predecessor and doubles its size.  After the calls below, all on
    pointers the allocator returned, the blocks at 4224 (224 bytes) and 4448
    (3760 bytes) are address-adjacent and both FREE, and the block at 4336,
    still held by the caller, lies inside the first of them. *)
Theorem adjacent_free_after_wrapped_request A :
  observe (fun st => heap_walk 16 (mem st) (heap_listp st))
          (demo_run A [Malloc 100; Malloc 100; Malloc 100; Malloc 3752])
    = Some [(4104, 8, 1); (4112, 112, 1); (4224, 112, 1); (4336, 112, 1);
            (4448, 3760, 1); (8208, 0, 1)] /\
  and_then (demo_run A [Malloc 100; Malloc 100; Malloc 100; Malloc 3752; Free 4224])
           (fun st => option_map snd (mm_malloc A 64 st (SIZE_MAX A - 14)))
    = Some 4224 /\
  observe (fun st => heap_walk 16 (mem st) (heap_listp st))
          (demo_run A [Malloc 100; Malloc 100; Malloc 100; Malloc 3752; Free 4224;
                       Malloc (SIZE_MAX A - 14); Free 4448; Free 4224])
    = Some [(4104, 8, 1); (4112, 112, 1); (4224, 224, 0); (4448, 3760, 0);
            (8208, 0, 1)].
Proof. destruct A; repeat split; vm_compute; reflexivity. Qed.

(** C8 (the code departs from it): a request of [SIZE_MAX - 14] bytes wraps
    to an adjusted size of 0; [place] then writes a size-0 tag over the
    footer of the preceding block and hands out a block that stays free.
    After freeing it the block's size is doubled, a later allocation runs
    past the end of the region, and a failing search leaves the rover at
    12304, where no block header lies within the region [4096, 8208). *)
Theorem rover_leaves_region A :
  option_map snd (mm_malloc A 64 (demo_init A) (SIZE_MAX A - 14)) = Some 4112 /\
  observe (fun st => (rover st, mem_heap_lo st, mem_brk st))
          (demo_run A [Malloc (SIZE_MAX A - 14); Free 4112; Malloc 5000; Malloc 20000])
    = Some (12304, 4096, 8208).
Proof. destruct A; split; vm_compute; reflexivity. Qed.
(** * Further properties of the code *)

(** ** Tag words: [PACK], [PUT], [GET_SIZE], [GET_ALLOC] *)

Lemma PACK_plus sz (al : bool) : sz mod 8 = 0 -> PACK sz (b2z al) = sz + b2z al.
Proof.
  intros M. unfold PACK. destruct al; simpl b2z.
  - rewrite <- Z.lxor_lor, <- Z.add_nocarry_lxor; try reflexivity;
      rewrite land_one; Z.div_mod_to_equations; lia.
  - rewrite Z.lor_0_r. lia.
Qed.

(** X2. Writing [PACK(size, alloc)] with [PUT] and reading the word back:
    for a size that is a multiple of 8, [GET_SIZE] returns the size reduced
    modulo 2^32 (the size itself when it is below 2^32), [GET_ALLOC] returns
    the flag whatever the size, and no word that does not overlap the written
    one changes. *)
Theorem tag_word_roundtrip m p size (alloc : bool) :
  size mod 8 = 0 ->
  GET_SIZE (PUT m p (PACK size (b2z alloc))) p = size mod UINT_MOD /\
  GET_ALLOC (PUT m p (PACK size (b2z alloc))) p = b2z alloc /\
  (0 <= size < UINT_MOD -> GET_SIZE (PUT m p (PACK size (b2z alloc))) p = size) /\
  (forall q, q + 4 <= p \/ p + 4 <= q ->
     GET (PUT m p (PACK size (b2z alloc))) q = GET m q).
Proof.
  intros M.
  assert (T : tag_size (size mod UINT_MOD)).
  { split; [apply Z.mod_pos_bound; reflexivity|].
    unfold UINT_MOD. change (2 ^ 32) with 4294967296.
    Z.div_mod_to_equations. lia. }
  assert (E : to_uint (PACK size (b2z alloc)) = size mod UINT_MOD + b2z alloc).
  { rewrite PACK_plus by assumption. unfold to_uint.
    pose proof (Z.mod_pos_bound size UINT_MOD eq_refl) as R.
    revert R. unfold UINT_MOD. change (2 ^ 32) with 4294967296.
    destruct alloc; simpl b2z; intros R; Z.div_mod_to_equations; lia. }
  assert (S : GET_SIZE (PUT m p (PACK size (b2z alloc))) p = size mod UINT_MOD).
  { unfold GET_SIZE. rewrite GET_PUT_same, E. apply word_size. exact T. }
  split; [exact S|]. split.
  - unfold GET_ALLOC. rewrite GET_PUT_same, E. apply word_alloc. exact T.
  - split.
    + intros R. rewrite S. apply Z.mod_small. exact R.
    + intros q Hq. apply GET_PUT_other. exact Hq.
Qed.

Lemma tag_word_roundtrip_witness :
  GET_SIZE (PUT (fun _ => 0) 4108 (PACK 4294967400 (b2z true))) 4108
    = 4294967400 mod UINT_MOD.
Proof. apply (tag_word_roundtrip (fun _ => 0) 4108 4294967400 true). reflexivity. Defined.

(** ** [ALIGN] *)

Lemma land_minus8 x : Z.land x (-8) = 8 * (x / 8).
Proof.
  change (-8) with (Z.lnot (Z.ones 3)).
  rewrite <- Z.ldiff_land, Z.ldiff_ones_r by lia.
  rewrite Z.shiftl_mul_pow2, Z.shiftr_div_pow2 by lia.
  change (2 ^ 3) with 8. lia.
Qed.

(** X3. [ALIGN(size)] is the least multiple of 8 that is at least [size], as
    long as [size + 7] does not wrap at type [size_t]; [SIZE_T_SIZE] is 8 in
    both data models. *)
Theorem ALIGN_rounds_up A size :
  0 <= size <= SIZE_MAX A - 7 ->
  ALIGN A size mod 8 = 0 /\ size <= ALIGN A size < size + 8 /\
  SIZE_T_SIZE A = 8.
Proof.
  intros R. unfold ALIGN, ALIGNMENT. rewrite land_minus8.
  assert (E : to_size A (8 * ((size + (8 - 1)) / 8)) = 8 * ((size + 7) / 8)).
  { unfold to_size. replace (8 - 1) with 7 by lia. apply Z.mod_small.
    unfold SIZE_MAX in R. Z.div_mod_to_equations. lia. }
  rewrite E. split; [|split].
  - rewrite Z.mul_comm. apply Z.mod_mul. lia.
  - Z.div_mod_to_equations. lia.
  - destruct A; reflexivity.
Qed.

Lemma ALIGN_rounds_up_witness : ALIGN LP64 13 mod 8 = 0 /\ 13 <= ALIGN LP64 13 < 13 + 8 /\ SIZE_T_SIZE LP64 = 8.
Proof. apply (ALIGN_rounds_up LP64 13). vm_compute. split; discriminate. Defined.
(** ** The struct accessors *)

Lemma load_store_size_t A m p v : load_size_t A (store_size_t A m p v) p = to_size A v.
Proof.
  destruct A; unfold load_size_t, store_size_t.
  - apply GET_PUT_same.
  - rewrite GET_PUT_other, !GET_PUT_same by lia.
    unfold to_uint, to_size, SIZE_MOD, UINT_MOD. cbn [sizeof_size_t].
    change (2 ^ (8 * 8)) with 18446744073709551616.
    change (2 ^ 32) with 4294967296.
    Z.div_mod_to_equations. lia.
Qed.

Lemma store_size_t_outside A m p v q :
  q < p \/ p + sizeof_size_t A <= q -> store_size_t A m p v q = m q.
Proof.
  destruct A; unfold store_size_t; cbn [sizeof_size_t]; intros H.
  - apply PUT_outside. lia.
  - rewrite !PUT_outside by lia. reflexivity.
Qed.

Lemma size_mask A x :
  0 <= x < SIZE_MOD A -> Z.land (to_size A (-8)) x = 8 * (x / 8).
Proof.
  intros R. rewrite <- land_minus8, Z.land_comm.
  apply Z.bits_inj'. intros n Hn. rewrite !Z.land_spec.
  destruct (Z.ltb_spec n (8 * sizeof_size_t A)) as [L|L].
  - f_equal. unfold to_size, SIZE_MOD.
    apply Z.mod_pow2_bits_low. lia.
  - assert (X : Z.testbit x n = false).
    { destruct (Z.eq_dec x 0) as [->|]; [apply Z.bits_0|].
      apply Z.bits_above_log2; [lia|].
      apply Z.lt_le_trans with (8 * sizeof_size_t A); [|lia].
      apply Z.log2_lt_pow2; [lia|]. apply R. }
    rewrite X. reflexivity.
Qed.

Lemma size_word A size (alloc : bool) :
  0 <= size < SIZE_MOD A -> size mod 8 = 0 ->
  to_size A (Z.lor (b2z alloc) size) = size + b2z alloc /\
  0 <= size + b2z alloc < SIZE_MOD A.
Proof.
  intros R M.
  assert (B : 0 <= size + b2z alloc < SIZE_MOD A).
  { assert (SIZE_MOD A mod 8 = 0) by (destruct A; reflexivity).
    destruct alloc; simpl b2z; Z.div_mod_to_equations; lia. }
  split; [|exact B].
  rewrite Z.lor_comm. change (Z.lor size (b2z alloc)) with (PACK size (b2z alloc)).
  rewrite PACK_plus by assumption. apply Z.mod_small. exact B.
Qed.

(** X4. [put_header] followed by [get_size] and [get_alloc] gives back the
    size and the flag, for a non-null header, a size that is a multiple of 8
    and fits [size_t]; the same holds for [put_footer] and [get_size_footer].
    Only the [sizeof(size_t)] bytes of the field change. *)
Theorem accessor_roundtrip A m h size (alloc : bool) :
  h <> 0 -> 0 <= size < SIZE_MOD A -> size mod 8 = 0 ->
  (exists m',
     put_header A m h size alloc = Ret m' /\
     get_size A m' h = Ret size /\
     get_alloc A m' h = Ret (b2z alloc) /\
     forall q, q < h \/ h + sizeof_size_t A <= q -> m' q = m q) /\
  (exists m',
     put_footer A m h size alloc = Ret m' /\
     get_size_footer A m' h = Ret size /\
     forall q, q < h \/ h + sizeof_size_t A <= q -> m' q = m q).
Proof.
  intros N R M.
  destruct (size_word A size alloc R M) as [W B].
  assert (Hn : negb (h =? 0) = true) by (destruct (Z.eqb_spec h 0); [contradiction|reflexivity]).
  assert (Hm : (size mod ALIGNMENT =? 0) = true) by (apply Z.eqb_eq; exact M).
  assert (S8 : Z.land (to_size A (-8)) (size + b2z alloc) = size).
  { rewrite size_mask by exact B.
    destruct alloc; simpl b2z; Z.div_mod_to_equations; lia. }
  split.
  - exists (store_size_t A m h (Z.lor (b2z alloc) size)).
    unfold put_header, get_size, get_alloc. rewrite Hn, Hm. cbn [assert bind].
    rewrite load_store_size_t, W, S8.
    split; [reflexivity|]. split; [reflexivity|]. split.
    + f_equal. rewrite land_one.
      destruct alloc; simpl b2z; Z.div_mod_to_equations; lia.
    + intros q Hq. apply store_size_t_outside. exact Hq.
  - exists (store_size_t A m h (Z.lor (Z.land (b2z alloc) 1) size)).
    unfold put_footer, get_size_footer. rewrite Hn, Hm. cbn [assert bind].
    replace (Z.land (b2z alloc) 1) with (b2z alloc) by (destruct alloc; reflexivity).
    rewrite load_store_size_t, W, S8.
    split; [reflexivity|]. split; [reflexivity|].
    intros q Hq. apply store_size_t_outside. exact Hq.
Qed.
Lemma accessor_roundtrip_witness :
  exists m', put_header LP64 (fun _ => 0) 4104 4096 false = Ret m' /\
             get_size LP64 m' 4104 = Ret 4096 /\
             get_alloc LP64 m' 4104 = Ret 0.
Proof.
  destruct (accessor_roundtrip LP64 (fun _ => 0) 4104 4096 false)
    as [[m' (E & S & L & _)] _].
  - discriminate.
  - vm_compute. split; [discriminate|reflexivity].
  - reflexivity.
  - exists m'. split; [exact E|]. split; [exact S|exact L].
Defined.

Lemma assert_nonnull x : x <> 0 -> assert (negb (x =? 0)) = Ret tt.
Proof. intros N. destruct (Z.eqb_spec x 0); [contradiction|reflexivity]. Qed.

(** X5. From a header to its payload and back: [get_header] undoes
    [get_payload], and [get_freeblock_header] undoes [get_freeblock], for a
    non-null header whose payload address does not wrap. *)
Theorem payload_header_roundtrip A h :
  0 < h -> h + sizeof_size_t A < SIZE_MOD A ->
  (exists p, get_payload A h = Ret p /\ get_header A p = Ret h) /\
  (exists fb, get_freeblock A h = Ret fb /\ get_freeblock_header A fb = Ret h).
Proof.
  intros P R.
  assert (S : 0 < sizeof_size_t A) by (destruct A; reflexivity).
  assert (E : to_size A (h + sizeof_size_t A) = h + sizeof_size_t A)
    by (apply Z.mod_small; lia).
  assert (E' : to_size A (h + sizeof_size_t A - sizeof_size_t A) = h)
    by (unfold to_size; rewrite Z.add_simpl_r; apply Z.mod_small; lia).
  split; exists (h + sizeof_size_t A).
  - unfold get_payload, get_header.
    rewrite !assert_nonnull by lia. cbn [bind]. rewrite E, E'. split; reflexivity.
  - unfold get_freeblock, get_freeblock_header.
    rewrite !assert_nonnull by lia. cbn [bind]. rewrite E, E'. split; reflexivity.
Qed.

Lemma payload_header_roundtrip_witness :
  exists p, get_payload ILP32 4108 = Ret p /\ get_header ILP32 p = Ret 4108.
Proof.
  destruct (payload_header_roundtrip ILP32 4108) as [H _].
  - reflexivity.
  - reflexivity.
  - exact H.
Defined.

Lemma size_mask_uint x : Z.land (to_size ILP32 (-8)) x = Z.land x (to_uint (-8)).
Proof. apply Z.land_comm. Qed.

(** X6. With a 4-byte [size_t] the struct accessors compute what the macros
    compute: for a block pointer [bp] above 8 whose own and preceding tags
    keep the addresses in range, [get_header] is [HDRP], [get_size] and
    [get_alloc] are [GET_SIZE] and [GET_ALLOC] at the header, [get_footer] is
    [FTRP], and [get_above_header] and [get_below_header] are the headers of
    [NEXT_BLKP] and [PREV_BLKP]. *)
Theorem accessors_agree_with_macros m bp :
  8 < bp -> bp + GET_SIZE m (HDRP bp) <= SIZE_MAX ILP32 ->
  GET_SIZE m (bp - DSIZE) <= bp - 4 ->
  get_header ILP32 bp = Ret (HDRP bp) /\
  get_payload ILP32 (HDRP bp) = Ret bp /\
  get_size ILP32 m (HDRP bp) = Ret (GET_SIZE m (HDRP bp)) /\
  get_alloc ILP32 m (HDRP bp) = Ret (GET_ALLOC m (HDRP bp)) /\
  get_footer ILP32 m (HDRP bp) = Ret (FTRP m bp) /\
  get_above_header ILP32 m (HDRP bp) = Ret (HDRP (NEXT_BLKP m bp)) /\
  get_below_header ILP32 m (HDRP bp) = Ret (HDRP (PREV_BLKP m bp)).
Proof.
  intros P R Q.
  pose proof (GET_SIZE_facts m (HDRP bp)) as (S1 & S2 & S3).
  pose proof (GET_SIZE_facts m (bp - DSIZE)) as (T1 & _).
  assert (G : get_size ILP32 m (HDRP bp) = Ret (GET_SIZE m (HDRP bp))).
  { unfold get_size. rewrite assert_nonnull by (unfold HDRP, WSIZE; lia).
    cbn [bind load_size_t]. rewrite size_mask_uint. reflexivity. }
  unfold SIZE_MAX in R. change (SIZE_MOD ILP32) with 4294967296 in R.
  unfold DSIZE in *.
  split.
  { unfold get_header. rewrite assert_nonnull by lia. cbn [bind sizeof_size_t].
    f_equal. unfold HDRP, WSIZE, to_size. change (SIZE_MOD ILP32) with 4294967296.
    unfold HDRP in S1. apply Z.mod_small. lia. }
  split.
  { unfold get_payload. rewrite assert_nonnull by (unfold HDRP, WSIZE; lia).
    cbn [bind sizeof_size_t]. f_equal. unfold HDRP, WSIZE.
    replace (bp - 4 + 4) with bp by lia.
    apply Z.mod_small. change (SIZE_MOD ILP32) with 4294967296. lia. }
  split; [exact G|]. split.
  { unfold get_alloc. rewrite assert_nonnull by (unfold HDRP, WSIZE; lia).
    reflexivity. }
  split.
  { unfold get_footer. rewrite assert_nonnull by (unfold HDRP, WSIZE; lia).
    cbn [bind]. rewrite G. cbn [bind sizeof_size_t]. f_equal.
    unfold FTRP, DSIZE. unfold to_size. change (SIZE_MOD ILP32) with 4294967296.
    unfold HDRP, WSIZE in *. revert S1 R. generalize (GET_SIZE m (bp - 4)) as s. intros s S1 R.
    rewrite (Z.mod_small (bp - 4 + s)) by lia. rewrite Z.mod_small by lia. lia. }
  split.
  { unfold get_above_header. rewrite assert_nonnull by (unfold HDRP, WSIZE; lia).
    cbn [bind]. rewrite G. cbn [bind]. f_equal.
    unfold NEXT_BLKP, to_size. change (SIZE_MOD ILP32) with 4294967296.
    unfold HDRP, WSIZE in *. revert S1 R. generalize (GET_SIZE m (bp - 4)) as s. intros s S1 R.
    rewrite Z.mod_small by lia. lia. }
  { unfold get_below_header. rewrite assert_nonnull by (unfold HDRP, WSIZE; lia).
    cbn [bind sizeof_size_t].
    assert (E : to_size ILP32 (HDRP bp - 4) = bp - 8).
    { unfold HDRP, WSIZE, to_size. change (SIZE_MOD ILP32) with 4294967296.
      rewrite Z.mod_small by lia. lia. }
    rewrite E. unfold get_size_footer. rewrite assert_nonnull by lia.
    cbn [bind load_size_t]. rewrite size_mask_uint. f_equal.
    unfold PREV_BLKP, DSIZE, to_size. change (SIZE_MOD ILP32) with 4294967296.
    change (Z.land (GET m (bp - 8)) (to_uint (-8))) with (GET_SIZE m (bp - 8)).
    unfold HDRP, WSIZE in *. revert T1 Q. generalize (GET_SIZE m (bp - 8)) as s. intros s T1 Q.
    rewrite Z.mod_small by lia. lia. }
Qed.
Lemma accessors_agree_with_macros_witness :
  get_footer ILP32 (mem (demo_init ILP32)) (HDRP 4112)
    = Ret (FTRP (mem (demo_init ILP32)) 4112) /\
  get_above_header ILP32 (mem (demo_init ILP32)) (HDRP 4112)
    = Ret (HDRP (NEXT_BLKP (mem (demo_init ILP32)) 4112)).
Proof.
  destruct (accessors_agree_with_macros (mem (demo_init ILP32)) 4112)
    as (_ & _ & _ & _ & F & N & _).
  - reflexivity.
  - vm_compute. discriminate.
  - vm_compute. discriminate.
  - split; [exact F|exact N].
Defined.
(** ** Blocks of the list, as the allocator reads them *)

Lemma placed_block_facts st bs p b :
  heap_inv st bs -> In (p, b) (placed (heap_listp st) (prologue :: bs)) ->
  block_start (mem st) (heap_listp st) p /\
  GET_SIZE (mem st) (HDRP p) = bsize b /\
  GET_ALLOC (mem st) (HDRP p) = b2z (balloc b) /\
  8 <= bsize b /\ p mod 8 = 0 /\
  heap_listp st <= p /\ p + bsize b <= mem_brk st.
Proof.
  intros H I.
  destruct (heap_inv_full _ _ H) as (S & E & Hok & T & N).
  destruct (placed_split _ _ _ _ I) as (l1 & l2 & El & Ep).
  destruct (placed_bounds _ _ _ _ Hok I) as [B1 B2].
  assert (Bb : block_at (mem st) p b).
  { rewrite El in S. apply seg_app in S. destruct S as [_ [Bb _]]. rewrite Ep. exact Bb. }
  assert (Ib : In b (prologue :: bs))
    by (rewrite El; apply in_or_app; right; left; reflexivity).
  pose proof (block_tag_size _ _ Hok T Ib) as Tb.
  split.
  { apply (starts_block_start _ (prologue :: bs)); try assumption.
    rewrite El, Ep. apply starts_app. right. apply starts_head. }
  split; [exact (header_size _ _ _ Tb Bb)|].
  split; [exact (header_alloc _ _ _ Tb Bb)|].
  split; [exact (proj1 (proj1 (Forall_forall _ _) Hok _ Ib))|].
  split.
  { rewrite El in Hok. pose proof (total_mod8 _ (Forall_app_l _ _ _ Hok)) as M.
    pose proof (hi_align _ _ H) as Al. rewrite Ep.
    rewrite Z.add_mod, Al, M by lia. reflexivity. }
  split; [exact B1|]. rewrite (hi_brk _ _ H). exact B2.
Qed.

Lemma live_placed st bs p :
  heap_inv st bs -> live st p ->
  In (p, (GET_SIZE (mem st) (HDRP p), true)) (placed (heap_listp st) (prologue :: bs)).
Proof.
  intros H L. destruct (live_allocated _ _ _ H L) as (sz & pre & post & -> & -> & ->).
  change (prologue :: pre ++ (sz, true) :: post) with ((prologue :: pre) ++ (sz, true) :: post).
  apply placed_join.
Qed.

Lemma placed_live st bs p sz :
  heap_inv st bs -> In (p, (sz, true)) (placed (heap_listp st) (prologue :: bs)) ->
  p <> heap_listp st ->
  live st p /\ GET_SIZE (mem st) (HDRP p) = sz.
Proof.
  intros H I N.
  destruct (placed_block_facts _ _ _ _ H I) as (W & S & Al & S8 & _).
  cbn [bsize balloc fst snd b2z] in *.
  split; [|exact S]. split; [exact W|]. split; [exact N|]. split; [lia | exact Al].
Qed.

Lemma blocks_disjoint l q p b p' b' :
  Forall block_ok l -> In (p, b) (placed q l) -> In (p', b') (placed q l) ->
  (p, b) = (p', b') \/ p + bsize b <= p' \/ p' + bsize b' <= p.
Proof.
  intros Hok I I'.
  destruct (placed_split _ _ _ _ I') as (l1 & l2 & -> & ->).
  exact (placed_beside _ _ _ _ _ _ Hok I).
Qed.

Lemma not_live_free st bs p c :
  heap_inv st bs -> In (p, (c, false)) (placed (heap_listp st) (prologue :: bs)) ->
  ~ live st p.
Proof.
  intros H I (_ & _ & _ & Al).
  destruct (placed_block_facts _ _ _ _ H I) as (_ & _ & Al' & _).
  rewrite Al in Al'. discriminate Al'.
Qed.

Lemma not_live_epilogue st bs : heap_inv st bs -> ~ live st (mem_brk st).
Proof.
  intros H (_ & _ & NZ & _). apply NZ.
  exact (tagged_size _ _ _ _ tag_size_0 (hi_epilogue _ _ H)).
Qed.

Lemma free_in_list c bs q p :
  In (p, (c, false)) (placed q (prologue :: bs)) -> In (c, false) bs.
Proof.
  intros I. apply placed_block in I. destruct I as [I | I]; [discriminate I | exact I].
Qed.

(** ** [mm_malloc] *)

Lemma mm_malloc_fresh st bs pre tl :
  heap_inv st bs -> bs = pre ++ tl -> (forall x, In x tl -> balloc x = false) ->
  ~ live st (heap_listp st + total (prologue :: pre)).
Proof.
  intros H E Htl. destruct tl as [|[c al] tl].
  - rewrite app_nil_r in E. subst pre. rewrite <- (hi_brk _ _ H).
    exact (not_live_epilogue _ _ H).
  - assert (al = false) by (apply (Htl (c, al)); left; reflexivity). subst al.
    apply (not_live_free st bs _ c H). rewrite E.
    change (prologue :: pre ++ (c, false) :: tl) with ((prologue :: pre) ++ (c, false) :: tl).
    apply placed_join.
Qed.

(** X7. A successful [mm_malloc] on a well-formed heap, for a request that
    does not wrap: the pointer returned is 8-byte aligned, it is the payload
    of a block that is now allocated and was not allocated before, the block
    has room for the request and its two tags and is less than 16 bytes
    longer than the adjusted size, and it lies inside the region, which stays
    within the capacity. *)
Theorem mm_malloc_returns_block A fuel st bs size :
  heap_inv st bs ->
  (mem_max_addr st - mem_heap_lo st) / 8 < Z.of_nat fuel ->
  0 < size <= SIZE_MAX A - 15 ->
  exists st' r,
    mm_malloc A fuel st size = Some (st', r) /\
    (r <> NULL ->
     r mod 8 = 0 /\ live st' r /\ ~ live st r /\
     size + 8 <= GET_SIZE (mem st') (HDRP r) < adjust_size A size + 16 /\
     heap_listp st' < r /\ r + GET_SIZE (mem st') (HDRP r) <= mem_brk st' /\
     mem_brk st' <= mem_max_addr st).
Proof.
  intros H Fu Sz.
  pose proof (heap_inv_fuel _ _ _ H Fu) as F.
  destruct (mm_malloc_full A fuel st bs size H F Sz)
    as (st' & r & bs' & M & I1 & F1 & F2 & K & Fr & C).
  exists st', r. split; [exact M|]. intros NZ.
  destruct C as [(-> & _) | (pre & c & post & E1 & E2 & E3 & Or)]; [contradiction|].
  assert (Ir : In (r, (c, true)) (placed (heap_listp st') (prologue :: bs'))).
  { rewrite F1, E1, E2.
    change (prologue :: pre ++ (c, true) :: post) with ((prologue :: pre) ++ (c, true) :: post).
    apply placed_join. }
  destruct (placed_block_facts _ _ _ _ I1 Ir) as (_ & S & _ & S8 & M8 & Lo & Hi).
  cbn [bsize fst] in S, S8, Hi.
  assert (Hok : Forall block_ok pre).
  { pose proof (hi_ok _ _ I1) as X. rewrite E1 in X. exact (Forall_app_l _ _ _ X). }
  pose proof (total_nonneg _ Hok) as NP.
  assert (Nh : r <> heap_listp st').
  { rewrite F1, E2. cbn [total prologue bsize fst]. unfold DSIZE. lia. }
  destruct (placed_live _ _ _ _ I1 Ir Nh) as [L _].
  split; [exact M8|]. split; [exact L|]. split.
  - rewrite E2. destruct Or as [(c0 & post0 & Eb & _) | (tl & Eb & Htl & _)].
    + apply (not_live_free st bs _ c0 H). rewrite Eb.
      change (prologue :: pre ++ (c0, false) :: post0)
        with ((prologue :: pre) ++ (c0, false) :: post0).
      apply placed_join.
    + exact (mm_malloc_fresh st bs pre tl H Eb Htl).
  - rewrite S. split; [exact E3|]. split; [lia|]. split; [exact Hi|].
    rewrite <- F2. exact (proj1 (hi_cap _ _ I1)).
Qed.
Lemma demo_heap_inv A : heap_inv (demo_heap A) demo_blocks.
Proof. destruct A; heap_inv_by_eval. Qed.

Lemma demo_heap_live A : live (demo_heap A) 4112.
Proof. destruct A; live_by_eval. Qed.

Lemma demo_heap_fuel A :
  (mem_max_addr (demo_heap A) - mem_heap_lo (demo_heap A)) / 8 < Z.of_nat 4096.
Proof. destruct A; vm_compute; reflexivity. Qed.

Lemma mm_malloc_returns_block_witness :
  exists st' r, mm_malloc ILP32 4096 (demo_heap ILP32) 200 = Some (st', r) /\
                (r <> NULL -> r mod 8 = 0 /\ live st' r).
Proof.
  destruct (mm_malloc_returns_block ILP32 4096 (demo_heap ILP32) demo_blocks 200)
    as (st' & r & M & P).
  - exact (demo_heap_inv ILP32).
  - exact (demo_heap_fuel ILP32).
  - vm_compute. split; [reflexivity | discriminate].
  - exists st', r. split; [exact M|]. intros N. destruct (P N) as (P1 & P2 & _).
    split; [exact P1 | exact P2].
Defined.

(** X8. [mm_malloc] leaves the blocks the caller holds alone: a block that
    is allocated before the call is allocated after it, with the same size
    and the same bytes (tags and payload), and the block returned does not
    overlap it. *)
Theorem mm_malloc_keeps_blocks A fuel st bs size p :
  heap_inv st bs ->
  (mem_max_addr st - mem_heap_lo st) / 8 < Z.of_nat fuel ->
  0 < size <= SIZE_MAX A - 15 ->
  live st p ->
  exists st' r,
    mm_malloc A fuel st size = Some (st', r) /\
    live st' p /\
    GET_SIZE (mem st') (HDRP p) = GET_SIZE (mem st) (HDRP p) /\
    (forall a, p - 4 <= a < p + GET_SIZE (mem st) (HDRP p) - 4 -> mem st' a = mem st a) /\
    (r <> NULL ->
     r + GET_SIZE (mem st') (HDRP r) <= p \/ p + GET_SIZE (mem st) (HDRP p) <= r).
Proof.
  intros H Fu Sz L.
  pose proof (heap_inv_fuel _ _ _ H Fu) as F.
  destruct (mm_malloc_full A fuel st bs size H F Sz)
    as (st' & r & bs' & M & I1 & F1 & F2 & K & Fr & C).
  exists st', r. split; [exact M|].
  pose proof (live_placed _ _ _ H L) as Ip.
  set (sz := GET_SIZE (mem st) (HDRP p)) in *.
  pose proof (K _ _ Ip eq_refl) as Ip'. rewrite <- F1 in Ip'.
  assert (Np : p <> heap_listp st') by (rewrite F1; exact (proj1 (proj2 L))).
  destruct (placed_live _ _ _ _ I1 Ip' Np) as [L' S'].
  split; [exact L'|]. split; [exact S'|]. split.
  - intros a Ha. exact (Fr _ _ a Ip eq_refl Ha).
  - intros NZ.
    destruct C as [(-> & _) | (pre & c & post & E1 & E2 & E3 & Or)]; [contradiction|].
    assert (Ir : In (r, (c, true)) (placed (heap_listp st') (prologue :: bs'))).
    { rewrite F1, E1, E2.
      change (prologue :: pre ++ (c, true) :: post)
        with ((prologue :: pre) ++ (c, true) :: post).
      apply placed_join. }
    destruct (placed_block_facts _ _ _ _ I1 Ir) as (_ & S & _).
    cbn [bsize fst] in S. rewrite S.
    assert (Nl : ~ live st r).
    { rewrite E2. destruct Or as [(c0 & post0 & Eb & _) | (tl & Eb & Htl & _)].
      - apply (not_live_free st bs _ c0 H). rewrite Eb.
        change (prologue :: pre ++ (c0, false) :: post0)
          with ((prologue :: pre) ++ (c0, false) :: post0).
        apply placed_join.
      - exact (mm_malloc_fresh st bs pre tl H Eb Htl). }
    assert (Hok : Forall block_ok (prologue :: bs'))
      by (constructor; [exact block_ok_prologue | exact (hi_ok _ _ I1)]).
    destruct (blocks_disjoint _ _ _ _ _ _ Hok Ir Ip') as [E | D].
    + injection E as -> _. contradiction.
    + cbn [bsize fst] in D. exact D.
Qed.

Lemma mm_malloc_keeps_blocks_witness :
  exists st' r, mm_malloc LP64 4096 (demo_heap LP64) 200 = Some (st', r) /\
                live st' 4112.
Proof.
  destruct (mm_malloc_keeps_blocks LP64 4096 (demo_heap LP64) demo_blocks 200 4112)
    as (st' & r & M & P & _).
  - exact (demo_heap_inv LP64).
  - exact (demo_heap_fuel LP64).
  - vm_compute. split; [reflexivity | discriminate].
  - exact (demo_heap_live LP64).
  - exists st', r. split; [exact M | exact P].
Defined.

(** X9. When [mm_malloc] fails and when it grows the region, on a
    well-formed heap and for a request that does not wrap: it returns NULL
    exactly when no free block is as large as the adjusted size and the
    region cannot grow by [MAX(asize, CHUNKSIZE)] bytes; if some free block
    is large enough the region is not grown; otherwise a successful call
    grows it by [MAX(asize, CHUNKSIZE)] bytes. *)
Theorem mm_malloc_fails_only_when_exhausted A fuel st bs size :
  heap_inv st bs ->
  (mem_max_addr st - mem_heap_lo st) / 8 < Z.of_nat fuel ->
  0 < size <= SIZE_MAX A - 15 ->
  exists st' r,
    mm_malloc A fuel st size = Some (st', r) /\
    (r = NULL <->
     (forall c, In (c, false) bs -> c < adjust_size A size) /\
     mem_brk st + MAX (adjust_size A size) CHUNKSIZE > mem_max_addr st) /\
    ((exists c, In (c, false) bs /\ adjust_size A size <= c) -> mem_brk st' = mem_brk st) /\
    ((forall c, In (c, false) bs -> c < adjust_size A size) -> r <> NULL ->
     mem_brk st' = mem_brk st + MAX (adjust_size A size) CHUNKSIZE).
Proof.
  intros H Fu Sz.
  pose proof (heap_inv_fuel _ _ _ H Fu) as F.
  destruct (mm_malloc_full A fuel st bs size H F Sz)
    as (st' & r & bs' & M & I1 & F1 & F2 & K & Fr & C).
  exists st', r. split; [exact M|].
  destruct C as [(-> & _ & _ & Eb & NF & NR) | (pre & c & post & E1 & E2 & E3 & Or)].
  - split; [split; [intros _; split; assumption | reflexivity]|].
    split; [intros _; exact Eb | intros _ X; contradiction].
  - assert (NZ : r <> NULL).
    { destruct (heap_inv_bounds _ _ H) as (P1 & _).
      assert (Hok : Forall block_ok pre).
      { pose proof (hi_ok _ _ I1) as X. rewrite E1 in X. exact (Forall_app_l _ _ _ X). }
      pose proof (total_nonneg _ Hok). rewrite E2.
      cbn [total prologue bsize fst]. unfold DSIZE, NULL. lia. }
    destruct Or as [(c0 & post0 & Eb & Lc & Ek) | (tl & Eb & Htl & NF & Ek)].
    + assert (I0 : In (c0, false) bs)
        by (rewrite Eb; apply in_or_app; right; left; reflexivity).
      split; [split; [contradiction|]|].
      * intros [NF _]. specialize (NF _ I0). lia.
      * split; [intros _; exact Ek|]. intros NF. specialize (NF _ I0). lia.
    + split; [split; [contradiction|]|].
      * intros [_ NR]. pose proof (proj1 (hi_cap _ _ I1)). lia.
      * split; [|intros _ _; exact Ek].
        intros (c1 & I1' & L1). specialize (NF _ I1'). lia.
Qed.

Lemma mm_malloc_fails_only_when_exhausted_witness :
  exists st' r, mm_malloc ILP32 4096 (demo_heap ILP32) 20000 = Some (st', r) /\
                (r = NULL <->
                 (forall c, In (c, false) demo_blocks -> c < adjust_size ILP32 20000) /\
                 mem_brk (demo_heap ILP32) + MAX (adjust_size ILP32 20000) CHUNKSIZE
                   > mem_max_addr (demo_heap ILP32)).
Proof.
  destruct (mm_malloc_fails_only_when_exhausted ILP32 4096 (demo_heap ILP32) demo_blocks 20000)
    as (st' & r & M & P & _).
  - exact (demo_heap_inv ILP32).
  - exact (demo_heap_fuel ILP32).
  - vm_compute. split; [reflexivity | discriminate].
  - exists st', r. split; [exact M | exact P].
Defined.
(** ** [mm_free] *)

(** X10. [mm_free] of a block the caller holds, on a well-formed heap: the
    heap stays well-formed and the region keeps its size; the block is no
    longer allocated, and a free block covers all of it; every other block
    the caller holds stays allocated with the same size and the same bytes.
    [mm_free(NULL)] does nothing. *)
Theorem mm_free_releases_block A st bs p :
  heap_inv st bs -> live st p ->
  (exists bs', heap_inv (mm_free A st p) bs') /\
  mem_brk (mm_free A st p) = mem_brk st /\
  ~ live (mm_free A st p) p /\
  (exists q, block_start (mem (mm_free A st p)) (heap_listp (mm_free A st p)) q /\
             GET_ALLOC (mem (mm_free A st p)) (HDRP q) = 0 /\
             q <= p /\
             p + GET_SIZE (mem st) (HDRP p) <= q + GET_SIZE (mem (mm_free A st p)) (HDRP q)) /\
  (forall p', live st p' -> p' <> p ->
     live (mm_free A st p) p' /\
     GET_SIZE (mem (mm_free A st p)) (HDRP p') = GET_SIZE (mem st) (HDRP p') /\
     forall a, p' - 4 <= a < p' + GET_SIZE (mem st) (HDRP p') - 4 ->
               mem (mm_free A st p) a = mem st a) /\
  mm_free A st NULL = st.
Proof.
  intros H L.
  destruct (live_allocated _ _ _ H L) as (sz & pre & post & Eb & Ep & Es).
  destruct (mm_free_full A st bs pre sz post H Eb)
    as (bs' & I1 & F1 & F2 & F3 & K & Fr & q & c & Iq & Q1 & Q2).
  rewrite <- Ep in *. rewrite Es.
  set (st' := mm_free A st p) in *.
  rewrite <- F1 in Iq.
  destruct (placed_block_facts _ _ _ _ I1 Iq) as (Wq & Sq & Aq & S8 & _).
  cbn [bsize balloc fst snd b2z] in Sq, Aq, S8.
  assert (Hok : Forall block_ok (prologue :: bs'))
    by (constructor; [exact block_ok_prologue | exact (hi_ok _ _ I1)]).
  assert (Sz8 : 8 <= sz).
  { pose proof (hi_ok _ _ H) as X. rewrite Eb in X. apply Forall_app_r in X.
    inversion X as [|? ? [Y _] _]; subst. exact Y. }
  split; [exists bs'; exact I1|]. split; [exact F3|]. split; [|split; [|split]].
  - intros L'. pose proof (live_placed _ _ _ I1 L') as Ip.
    destruct (blocks_disjoint _ _ _ _ _ _ Hok Ip Iq) as [E | D].
    + injection E as _ _ E. discriminate E.
    + cbn [bsize fst] in D.
      destruct (placed_block_facts _ _ _ _ I1 Ip) as (_ & _ & _ & X & _).
      cbn [bsize fst] in X. lia.
  - exists q. rewrite Sq. split; [exact Wq|]. split; [exact Aq|]. split; [exact Q1 | exact Q2].
  - intros p' L1 Np.
    pose proof (live_placed _ _ _ H L1) as Ip.
    pose proof (K _ _ Ip eq_refl Np) as Ip'. rewrite <- F1 in Ip'.
    assert (Nh : p' <> heap_listp st') by (rewrite F1; exact (proj1 (proj2 L1))).
    destruct (placed_live _ _ _ _ I1 Ip' Nh) as [L' S'].
    split; [exact L'|]. split; [exact S'|].
    intros a Ha. exact (Fr _ _ a Ip eq_refl Np Ha).
  - reflexivity.
Qed.

Lemma mm_free_releases_block_witness :
  ~ live (mm_free LP64 (demo_heap LP64) 4112) 4112.
Proof.
  destruct (mm_free_releases_block LP64 (demo_heap LP64) demo_blocks 4112) as (_ & _ & N & _).
  - exact (demo_heap_inv LP64).
  - exact (demo_heap_live LP64).
  - exact N.
Defined.

Lemma adjust_size_fits_block A size sz :
  0 < size -> size + 8 <= sz -> sz mod 8 = 0 -> sz < UINT_MOD ->
  0 < size <= SIZE_MAX A - 15 /\ adjust_size A size <= sz.
Proof.
  intros P L M U.
  assert (R : 0 < size <= SIZE_MAX A - 15).
  { destruct (SIZE_MOD_mult8 A) as [X _]. unfold SIZE_MAX, UINT_MOD in *.
    revert U X. change (2 ^ 32) with 4294967296. intros. Z.div_mod_to_equations. lia. }
  split; [exact R|].
  destruct (adjust_size_no_wrap A size R) as (E & _). rewrite E.
  unfold adjusted_size_spec. destruct (Z.leb_spec size 8); Z.div_mod_to_equations; lia.
Qed.

(** X11. Space released is reused: after [mm_free] of a block the caller
    holds, a request that the block's payload could hold succeeds without
    growing the region. *)
Theorem free_then_malloc_reuses A fuel st bs p size :
  heap_inv st bs ->
  (mem_max_addr st - mem_heap_lo st) / 8 < Z.of_nat fuel ->
  live st p ->
  0 < size <= GET_SIZE (mem st) (HDRP p) - 8 ->
  exists st' r,
    mm_malloc A fuel (mm_free A st p) size = Some (st', r) /\
    r <> NULL /\ mem_brk st' = mem_brk st.
Proof.
  intros H Fu L Sz.
  destruct (live_allocated _ _ _ H L) as (sz & pre & post & Eb & Ep & Es).
  destruct (mm_free_full A st bs pre sz post H Eb)
    as (bs' & I1 & F1 & F2 & F3 & _ & _ & q & c & Iq & Q1 & Q2).
  rewrite <- Ep in *. rewrite Es in Sz.
  set (s1 := mm_free A st p) in *.
  pose proof (heap_inv_lo _ _ _ _ H I1 F1) as Flo.
  assert (Fu1 : (mem_max_addr s1 - mem_heap_lo s1) / 8 < Z.of_nat fuel)
    by (rewrite F2, Flo; exact Fu).
  assert (Tsz : tag_size sz).
  { destruct (heap_inv_full _ _ H) as (_ & _ & Hok & T & _).
    apply (block_tag_size _ (sz, true) Hok T). right. rewrite Eb.
    apply in_or_app. right. left. reflexivity. }
  destruct Tsz as [[_ U] M8].
  destruct (adjust_size_fits_block A size sz) as [R La]; try lia.
  pose proof (heap_inv_fuel _ _ _ I1 Fu1) as F.
  destruct (mm_malloc_full A fuel s1 bs' size I1 F R)
    as (st' & r & bs2 & M & I2 & G1 & G2 & _ & _ & C).
  pose proof (free_in_list _ _ _ _ Iq) as Ic.
  exists st', r. split; [exact M|].
  destruct C as [(_ & _ & _ & _ & NF & _) | (pre2 & c2 & post2 & E1 & E2 & E3 & Or)].
  - specialize (NF _ Ic). lia.
  - split.
    + destruct (heap_inv_bounds _ _ I1) as (P1 & _).
      assert (Hok : Forall block_ok pre2).
      { pose proof (hi_ok _ _ I2) as X. rewrite E1 in X. exact (Forall_app_l _ _ _ X). }
      pose proof (total_nonneg _ Hok). rewrite E2.
      cbn [total prologue bsize fst]. unfold DSIZE, NULL. lia.
    + destruct Or as [(c0 & post0 & _ & _ & Ek) | (tl & _ & _ & NF & _)].
      * rewrite Ek. exact F3.
      * specialize (NF _ Ic). lia.
Qed.

Lemma free_then_malloc_reuses_witness :
  exists st' r,
    mm_malloc ILP32 4096 (mm_free ILP32 (demo_heap ILP32) 4112) 104 = Some (st', r) /\
    r <> NULL /\ mem_brk st' = mem_brk (demo_heap ILP32).
Proof.
  apply (free_then_malloc_reuses ILP32 4096 (demo_heap ILP32) demo_blocks 4112 104).
  - exact (demo_heap_inv ILP32).
  - exact (demo_heap_fuel ILP32).
  - exact (demo_heap_live ILP32).
  - vm_compute. split; [reflexivity | discriminate].
Defined.
(** ** [mm_init] *)

Lemma init_state_inv A st :
  region_ok st -> mem_brk st + 16 <= mem_max_addr st ->
  exists s6,
    mm_init A st = (let '(s7, r) := extend_heap A s6 (CHUNKSIZE / WSIZE) in
                    if r =? NULL then (s7, -1) else (s7, 0)) /\
    heap_inv s6 [] /\ mem_heap_lo s6 = mem_heap_lo st /\
    mem_brk s6 = mem_heap_lo st + 16 /\ mem_max_addr s6 = mem_max_addr st.
Proof.
  intros (Hlo & Hal & Hb & Hc) G.
  rewrite mm_init_step by lia. cbv zeta.
  rewrite Hb in *.
  set (lo := mem_heap_lo st) in *.
  set (m4 := PUT _ (lo + 3 * WSIZE) (PACK 0 1)).
  set (s6 := mkState m4 _ _ _ _ _ _ _ _).
  exists s6. split; [reflexivity|].
  assert (T8 : tag_size DSIZE) by (split; [unfold UINT_MOD, DSIZE; lia | reflexivity]).
  pose proof tag_size_0 as T0.
  split; [|split; [reflexivity | split; reflexivity]].
  constructor; unfold s6;
    cbn [mem mem_heap_lo mem_brk mem_max_addr heap_listp rover]; fold lo.
  - exact Hlo.
  - reflexivity.
  - unfold WSIZE. rewrite Zplus_mod, Hal. reflexivity.
  - split; [|exact I]. split; cbn [prologue bsize balloc fst snd]; unfold m4; tg.
  - unfold m4. tg.
  - cbn [total prologue bsize fst]. unfold WSIZE, DSIZE. lia.
  - split; [lia | exact Hc].
  - constructor.
  - exact I.
  - left. reflexivity.
Qed.

(** X12. [mm_init] on a fresh region returns 0 exactly when the capacity
    holds the 16 bytes of padding, prologue and epilogue plus one chunk of
    [CHUNKSIZE] bytes, and -1 otherwise.  On success the heap is well-formed
    and consists of one free block of [CHUNKSIZE] bytes; [heap_listp] is 8
    bytes above the start of the region. *)
Theorem mm_init_builds_heap A st :
  region_ok st ->
  (mem_heap_lo st + 4 * WSIZE + CHUNKSIZE <= mem_max_addr st ->
   exists st',
     mm_init A st = (st', 0) /\ heap_inv st' [(CHUNKSIZE, false)] /\
     heap_listp st' = mem_heap_lo st + 2 * WSIZE /\
     mem_brk st' = mem_heap_lo st + 4 * WSIZE + CHUNKSIZE /\
     mem_heap_lo st' = mem_heap_lo st /\ mem_max_addr st' = mem_max_addr st) /\
  (mem_max_addr st < mem_heap_lo st + 4 * WSIZE + CHUNKSIZE -> snd (mm_init A st) = -1).
Proof.
  intros R. pose proof R as (Hlo & Hal & Hb & Hc).
  change (4 * WSIZE) with 16. change CHUNKSIZE with 4096.
  assert (W : 8 <= 1024 * WSIZE < SIZE_MOD A)
    by (destruct (SIZE_MOD_mult8 A) as [P _]; revert P; unfold WSIZE;
        change (2 ^ 32) with 4294967296; lia).
  split.
  - intros G.
    destruct (init_state_inv A st R) as (s6 & E & I6 & Flo & Fb & Fm); [lia|].
    change (CHUNKSIZE / WSIZE) with 1024 in E.
    destruct (extend_heap_inv A s6 [] 1024 I6 eq_refl W)
      as (s7 & bs7 & pre & sz & EH & I7 & Eb & _ & F1 & F2 & F3 & _ & _ & tl & Et & _);
      [unfold WSIZE; lia|].
    symmetry in Et. apply app_eq_nil in Et. destruct Et as [-> _].
    cbn [app] in Eb. subst bs7.
    rewrite EH in E.
    pose proof (hi_listp _ _ I6) as L6. pose proof (hi_brk _ _ I7) as B7.
    pose proof (hi_listp _ _ I7) as L7.
    rewrite F1 in B7. cbn [total prologue bsize fst] in B7, E.
    unfold WSIZE, DSIZE in *.
    assert (sz = 4096) by lia. subst sz.
    destruct (Z.eqb_spec (heap_listp s6 + (8 + 0)) NULL) as [Z0 | _];
      [unfold NULL in Z0; lia|].
    exists s7. split; [exact E|]. split; [exact I7|].
    split; [lia|]. split; [lia|]. split; [lia|]. lia.
  - intros G.
    destruct (Z_gt_le_dec (mem_brk st + 16) (mem_max_addr st)) as [G1 | G1].
    + exact (mm_init_fail A st G1).
    + destruct (init_state_inv A st R G1) as (s6 & E & I6 & Flo & Fb & Fm).
      change (CHUNKSIZE / WSIZE) with 1024 in E.
      rewrite (extend_heap_fail A s6 1024) in E;
        [| unfold WSIZE; lia | reflexivity | lia].
      rewrite E. reflexivity.
Qed.

Lemma mm_init_builds_heap_witness :
  exists st', mm_init LP64 demo_boot = (st', 0) /\ heap_inv st' [(CHUNKSIZE, false)].
Proof.
  destruct (mm_init_builds_heap LP64 demo_boot) as [S _].
  - repeat split; vm_compute; reflexivity.
  - destruct S as (st' & E & I1 & _).
    + vm_compute. discriminate.
    + exists st'. split; [exact E | exact I1].
Defined.
(** ** [extend_heap] *)

Lemma extend_heap_odd A st words :
  words mod 2 <> 0 -> extend_heap A st words = extend_heap A st (words + 1).
Proof.
  intros O. unfold extend_heap.
  assert (E : (words + 1) mod 2 = 0) by (Z.div_mod_to_equations; lia).
  rewrite E. destruct (Z.eqb_spec (words mod 2) 0); [contradiction|].
  reflexivity.
Qed.

(** X13. [extend_heap(words)] on a well-formed heap, where [size] is [words]
    rounded up to an even number of words, in bytes: if the region can grow
    by [size] bytes it grows by exactly that much, the heap stays
    well-formed, and the pointer returned is that of its last block, which is
    free and at least [size] bytes long (longer when the old last block was
    free and has been merged); blocks the caller holds keep their size and
    their bytes.  If the region cannot grow, NULL is returned and nothing
    changes. *)
Theorem extend_heap_appends_free_block A st bs words :
  heap_inv st bs ->
  8 <= (words + words mod 2) * WSIZE < SIZE_MOD A ->
  (mem_brk st + (words + words mod 2) * WSIZE <= mem_max_addr st ->
   exists st' r,
     extend_heap A st words = (st', r) /\ (exists bs', heap_inv st' bs') /\
     mem_brk st' = mem_brk st + (words + words mod 2) * WSIZE /\
     GET_ALLOC (mem st') (HDRP r) = 0 /\
     (words + words mod 2) * WSIZE <= GET_SIZE (mem st') (HDRP r) /\
     r + GET_SIZE (mem st') (HDRP r) = mem_brk st' /\
     r <= mem_brk st /\
     (forall p, live st p ->
        live st' p /\ GET_SIZE (mem st') (HDRP p) = GET_SIZE (mem st) (HDRP p) /\
        forall a, p - 4 <= a < p + GET_SIZE (mem st) (HDRP p) - 4 -> mem st' a = mem st a)) /\
  (mem_brk st + (words + words mod 2) * WSIZE > mem_max_addr st ->
   extend_heap A st words = (st, NULL)).
Proof.
  intros H R.
  assert (Ev : exists w, extend_heap A st words = extend_heap A st w /\
                         w mod 2 = 0 /\ w = words + words mod 2).
  { destruct (Z.eq_dec (words mod 2) 0) as [E | E].
    - exists words. split; [reflexivity|]. split; [exact E | lia].
    - exists (words + 1). split; [exact (extend_heap_odd A st words E)|].
      split; Z.div_mod_to_equations; lia. }
  destruct Ev as (w & -> & Ew & Ewd). rewrite <- Ewd in *. clear Ewd.
  split.
  - intros G.
    destruct (extend_heap_inv A st bs w H Ew R G)
      as (st' & bs' & pre & sz & EH & I1 & Eb & Lsz & F1 & F2 & F3 & K & Fr & tl & Et & Htl).
    exists st', (heap_listp st + total (prologue :: pre)).
    split; [exact EH|]. split; [exists bs'; exact I1|]. split; [exact F3|].
    assert (Ir : In (heap_listp st + total (prologue :: pre), (sz, false))
                    (placed (heap_listp st') (prologue :: bs'))).
    { rewrite F1, Eb.
      change (prologue :: pre ++ [(sz, false)]) with ((prologue :: pre) ++ [(sz, false)]).
      apply placed_join. }
    destruct (placed_block_facts _ _ _ _ I1 Ir) as (_ & S & Al & _).
    cbn [bsize balloc fst snd b2z] in S, Al. rewrite S.
    split; [exact Al|]. split; [exact Lsz|].
    pose proof (hi_brk _ _ I1) as B1. pose proof (hi_brk _ _ H) as B0.
    rewrite Eb in B1.
    change (prologue :: pre ++ [(sz, false)]) with ((prologue :: pre) ++ [(sz, false)]) in B1.
    rewrite total_app in B1. change (total [(sz, false)]) with (sz + 0) in B1.
    split; [lia|]. split; [lia|].
    intros p L. pose proof (live_placed _ _ _ H L) as Ip.
    pose proof (K _ _ Ip eq_refl) as Ip'. rewrite <- F1 in Ip'.
    assert (Nh : p <> heap_listp st') by (rewrite F1; exact (proj1 (proj2 L))).
    destruct (placed_live _ _ _ _ I1 Ip' Nh) as [L' S'].
    split; [exact L'|]. split; [exact S'|].
    intros a Ha. apply Fr. rewrite Et in Ip.
    change (prologue :: pre ++ tl) with ((prologue :: pre) ++ tl) in Ip.
    assert (HokP : Forall block_ok (prologue :: pre)).
    { constructor; [exact block_ok_prologue|].
      pose proof (hi_ok _ _ I1) as X. rewrite Eb in X. exact (Forall_app_l _ _ _ X). }
    destruct (placed_before_free _ tl _ _ _ HokP Htl Ip eq_refl) as [_ Le].
    cbn [bsize fst] in Le. lia.
  - intros G. apply extend_heap_fail; [exact G | exact Ew | lia].
Qed.

Lemma extend_heap_appends_free_block_witness :
  exists st' r, extend_heap ILP32 (demo_heap ILP32) 1023 = (st', r) /\
                mem_brk st' = mem_brk (demo_heap ILP32) + 4096.
Proof.
  destruct (extend_heap_appends_free_block ILP32 (demo_heap ILP32) demo_blocks 1023) as [S _].
  - exact (demo_heap_inv ILP32).
  - vm_compute. split; [discriminate | reflexivity].
  - destruct S as (st' & r & E & _ & B & _).
    + vm_compute. discriminate.
    + exists st', r. split; [exact E | exact B].
Defined.

(** ** [coalesce] *)

(** X14. [coalesce(bp)] on a free block whose neighbours may be free, in a
    heap that is well-formed but for that: it returns the start of the
    merged block, which is [bp] when the predecessor is allocated and the
    predecessor's start otherwise; the block there is free and its size is
    the sum of the sizes of the block and of its free neighbours; the heap is
    well-formed again, with the same blocks before and after the merged one;
    the region keeps its size and no byte outside the merged block's header
    and footer changes.  After a merge, a rover strictly inside the merged
    block is set to its start; otherwise the rover stays. *)
Theorem coalesce_merges_free_neighbours A st pre pb sz post x :
  pre ++ [pb] = prologue :: x ->
  pre_coalesce st pre pb sz post ->
  exists st' bs',
    coalesce A st (heap_listp st + total pre + bsize pb)
      = (st', merged_start (heap_listp st + total pre + bsize pb) (bsize pb) (balloc pb)) /\
    heap_inv st' bs' /\
    prologue :: bs' = merge_before pre pb
                        ++ (merged_size (bsize pb) (balloc pb) sz
                              (bsize (next_tag post)) (balloc (next_tag post)), false)
                        :: merge_after post /\
    GET_ALLOC (mem st')
      (HDRP (merged_start (heap_listp st + total pre + bsize pb) (bsize pb) (balloc pb))) = 0 /\
    GET_SIZE (mem st')
      (HDRP (merged_start (heap_listp st + total pre + bsize pb) (bsize pb) (balloc pb)))
      = merged_size (bsize pb) (balloc pb) sz (bsize (next_tag post)) (balloc (next_tag post)) /\
    mem_brk st' = mem_brk st /\
    (forall a,
       let r := merged_start (heap_listp st + total pre + bsize pb) (bsize pb) (balloc pb) in
       let n := merged_size (bsize pb) (balloc pb) sz
                  (bsize (next_tag post)) (balloc (next_tag post)) in
       (a < r - 4 \/ r <= a) /\ (a < r + n - 8 \/ r + n - 4 <= a) ->
       mem st' a = mem st a) /\
    rover st' =
      (if negb (balloc pb && balloc (next_tag post))
          && (rover st <? merged_start (heap_listp st + total pre + bsize pb)
                            (bsize pb) (balloc pb)
                          + merged_size (bsize pb) (balloc pb) sz
                              (bsize (next_tag post)) (balloc (next_tag post)))
          && (rover st >? merged_start (heap_listp st + total pre + bsize pb)
                            (bsize pb) (balloc pb))
       then merged_start (heap_listp st + total pre + bsize pb) (bsize pb) (balloc pb)
       else rover st).
Proof.
  intros Ex PC.
  destruct (coalesce_inv A st pre pb sz post x Ex PC)
    as (st' & bs' & C & Hbs & Inv & F1 & F2 & F3 & F4 & Fr & Rv).
  pose proof (merge_before_total pre pb) as TB.
  pose proof (merge_middle_total pb sz post) as TM.
  assert (Er : merged_start (heap_listp st + total pre + bsize pb) (bsize pb) (balloc pb)
               = heap_listp st + total (merge_before pre pb)).
  { unfold merged_start. rewrite TB. destruct (balloc pb); lia. }
  rewrite merge_parts_coalesce, TM in Hbs.
  exists st', bs'. split; [exact C|]. split; [exact Inv|]. split; [exact Hbs|].
  assert (Ir : In (heap_listp st + total (merge_before pre pb),
                   (merged_size (bsize pb) (balloc pb) sz
                      (bsize (next_tag post)) (balloc (next_tag post)), false))
                  (placed (heap_listp st') (prologue :: bs'))).
  { rewrite F4, Hbs. apply placed_join. }
  destruct (placed_block_facts _ _ _ _ Inv Ir) as (_ & S & Al & _).
  cbn [bsize balloc fst snd b2z] in S, Al.
  split; [rewrite Er; exact Al|]. split; [rewrite Er; exact S|]. split; [exact F1|].
  split; [|exact Rv].
  cbv zeta. rewrite Er, <- TM. exact Fr.
Qed.
Lemma demo_unmerged_pre_coalesce A :
  pre_coalesce (demo_unmerged A) [] prologue 112 [(3984, false)].
Proof.
  destruct A;
    (constructor;
     [ vm_compute; reflexivity
     | vm_compute; reflexivity
     | vm_compute; reflexivity
     | cbv [seg block_at tagged prologue app]; repeat split; vm_compute; reflexivity
     | unfold tagged; vm_compute; reflexivity
     | vm_compute; reflexivity
     | split; vm_compute; (reflexivity || discriminate)
     | repeat (apply Forall_cons || apply Forall_nil); split; vm_compute;
       (reflexivity || discriminate)
     | simpl; intuition congruence
     | simpl; intuition congruence
     | vm_compute; intuition reflexivity ]).
Qed.

Lemma coalesce_merges_free_neighbours_witness :
  exists st' bs', heap_inv st' bs' /\ prologue :: bs' = [prologue; (4096, false)] /\
                  mem_brk st' = mem_brk (demo_unmerged LP64).
Proof.
  destruct (coalesce_merges_free_neighbours LP64 (demo_unmerged LP64) [] prologue 112
              [(3984, false)] [])
    as (st' & bs' & _ & Inv & Hbs & _ & _ & B & _).
  - reflexivity.
  - exact (demo_unmerged_pre_coalesce LP64).
  - exists st', bs'. split; [exact Inv|]. split; [exact Hbs | exact B].
Defined.
(** ** [mm_realloc] *)






(** ** The region only grows *)














(** ** A heap with no allocated block *)






